(** * PIPE: synthetic background-star fields ([pipe/syntstar.py])

    A shallow embedding of the star-background synthesiser of PIPE and the
    properties of its geometry, windowing, blur discretisation, PSF
    composition, rendering, masking and refinement loop.

    Conventions of the embedding:
    - Python/numpy floats are idealised as real numbers ([R]); rounding is
      not modelled.  Integers (pixel indices, radii, sample counts) are [Z].
    - One-dimensional numpy arrays are lists; two-dimensional arrays are
      index functions [row -> column -> value] together with the shape the
      code passes around.
    - Python exceptions are the [Raise] results of a small error monad. *)

From Stdlib Require Import String Reals Lra Lia ZArith List Bool.
Import ListNotations.
Open Scope R_scope.

(* ================================================================= *)
(** * Part I: the program *)
(* ================================================================= *)

(** ** Exceptions and results *)

Inductive exn : Type :=
| IndexError
| KeyError (name : string)
| TypeError
| Exception (msg : string)
| FitError.   (* whatever the external fitting routine raises *)

Inductive result (A : Type) : Type :=
| Ok (a : A)
| Raise (e : exn).
Arguments Ok {A} a.
Arguments Raise {A} e.

Definition bind {A B : Type} (m : result A) (k : A -> result B) : result B :=
  match m with
  | Ok a => k a
  | Raise e => Raise e
  end.

Notation "x <- m ;; k" := (bind m (fun x => k))
  (at level 61, m at next level, right associativity).

(** Python's [l[n]] for a non-negative index. *)
Definition getitem {A : Type} (l : list A) (n : nat) : result A :=
  match nth_error l n with
  | Some a => Ok a
  | None => Raise IndexError
  end.

(** A [for] loop whose body may raise: the state is threaded through the
    iterations, the first exception ends the loop. *)
Fixpoint for_each {A S : Type} (body : S -> A -> result S) (l : list A) (s : S)
  : result S :=
  match l with
  | [] => Ok s
  | a :: l' => s' <- body s a ;; for_each body l' s'
  end.

(** [range(lo, hi)] over natural numbers. *)
Definition range (lo hi : nat) : list nat := seq lo (hi - lo).

(** ** Arrays *)

(** A two-dimensional numpy array, read at [row, column]. *)
Definition array2 : Type := Z -> Z -> R.

Definition zeros : array2 := fun _ _ => 0.
Definition arr_add (a b : array2) : array2 := fun r c => a r c + b r c.
Definition arr_sub (a b : array2) : array2 := fun r c => a r c - b r c.
Definition arr_scale (k : R) (a : array2) : array2 := fun r c => k * a r c.
Definition arr_div (a : array2) (k : R) : array2 := fun r c => a r c / k.

(** A one-dimensional array minus a scalar, and plus a scalar. *)
Definition vec_sub (v : list R) (d : R) : list R := map (fun e => e - d) v.
Definition vec_add (v : list R) (d : R) : list R := map (fun e => e + d) v.

(** [np.sum] of a one-dimensional array. *)
Definition Rsum (l : list R) : R := fold_right Rplus 0 l.

(** A frame: a two-dimensional array together with its [shape]
    [(rows, columns)]. *)
Record Frame : Type := mkFrame {
  shape : Z * Z;
  pix : array2
}.

(** [np.zeros(shape)], for a shape with non-negative sides.  On a negative
    side numpy raises [ValueError], which this definition does not
    model. *)
Definition np_zeros (shape : Z * Z) : Frame := mkFrame shape zeros.

(** In-place [a += b], [a -= b] and the product [k * a]. *)
Definition frame_add (a b : Frame) : Frame :=
  mkFrame (shape a) (arr_add (pix a) (pix b)).
Definition frame_sub (a b : Frame) : Frame :=
  mkFrame (shape a) (arr_sub (pix a) (pix b)).
Definition frame_scale (k : R) (a : Frame) : Frame :=
  mkFrame (shape a) (arr_scale k (pix a)).

(** A boolean used as a number. *)
Definition b2r (b : bool) : R := if b then 1 else 0.

(** [lo <= k < hi], membership of the slice [lo:hi]. *)
Definition in_slice (lo hi k : Z) : bool := ((lo <=? k) && (k <? hi))%Z.

(** [frame[r0:r1, c0:c1] += src[sr0:, sc0:]] for slices that lie inside both
    arrays and have equal shapes. *)
Definition slice_add (frame : Frame) (r0 r1 c0 c1 : Z) (src : array2)
           (sr0 sc0 : Z) : Frame :=
  mkFrame (shape frame)
          (fun r c =>
             if in_slice r0 r1 r && in_slice c0 c1 c
             then pix frame r c + src (r - r0 + sr0)%Z (c - c0 + sc0)%Z
             else pix frame r c).

(** [l[i0:i1]] for [0 <= i0 <= i1]. *)
Definition slice (l : list R) (i0 i1 : Z) : list R :=
  firstn (Z.to_nat (i1 - i0)) (skipn (Z.to_nat i0) l).

(** [l[n] = v] for an index in range. *)
Fixpoint list_set {A : Type} (l : list A) (n : nat) (v : A) : list A :=
  match l, n with
  | [], _ => []
  | _ :: l', O => v :: l'
  | a :: l', S n' => a :: list_set l' n' v
  end.

(** The entries of the leading [rows] x [cols] block of an array, row by
    row. *)
Definition entries (rows cols : nat) (a : array2) : list R :=
  flat_map (fun r => map (fun c => a r c) (map Z.of_nat (seq 0 cols)))
           (map Z.of_nat (seq 0 rows)).

(** [np.sum] and [np.max] of a [rows] x [cols] array. *)
Definition arr_sum (rows cols : nat) (a : array2) : R :=
  fold_right Rplus 0 (entries rows cols a).

Definition arr_max (rows cols : nat) (a : array2) : R :=
  match entries rows cols a with
  | [] => 0
  | e :: es => fold_left Rmax es e
  end.

(** [a[sel]] for a boolean array [sel] of the same [rows] x [cols] shape:
    the selected entries, row by row. *)
Definition bool_index (rows cols : nat) (sel : Z -> Z -> bool) (a : array2)
  : list R :=
  flat_map (fun r =>
              flat_map (fun c => if sel r c then [a r c] else [])
                       (map Z.of_nat (seq 0 cols)))
           (map Z.of_nat (seq 0 rows)).

(** ** Numeric helpers: numpy and builtin conversions *)

(** [np.ceil] followed by the conversion to an integer. *)
Definition Rceil (x : R) : Z := (- Int_part (- x))%Z.

(** Python's [int(x)] on a float: truncation towards zero. *)
Definition int_of_float (x : R) : Z :=
  if Rle_dec 0 x then Int_part x else (- Int_part (- x))%Z.

Definition Rltb (a b : R) : bool := if Rlt_dec a b then true else false.
Definition Rleb (a b : R) : bool := if Rle_dec a b then true else false.
Definition Reqb (a b : R) : bool := if Req_dec_T a b then true else false.

(** [np.deg2rad]. *)
Definition deg2rad (deg : R) : R := deg * (PI / 180).

(** [np.arange(n)]. *)
Definition arange (n : Z) : list R :=
  map (fun k => INR k) (seq 0 (Z.to_nat n)).

(** [np.linspace(start, stop, num)]: [num] evenly spaced samples, both end
    points included. *)
Definition linspace (start stop : R) (num : nat) : list R :=
  map (fun k => start + INR k * ((stop - start) / INR (num - 1))) (seq 0 num).

(** [np.searchsorted(a, v)] (left side): numpy's binary search for the
    insertion point of [v] in [a]. *)
Fixpoint bisect_left (fuel : nat) (a : list R) (v : R) (lo hi : nat) : nat :=
  match fuel with
  | O => lo
  | S fuel' =>
      if (lo <? hi)%nat then
        let mid := (lo + (hi - lo) / 2)%nat in
        if Rltb (nth mid a 0) v then bisect_left fuel' a v (S mid) hi
        else bisect_left fuel' a v lo mid
      else lo
  end.

Definition searchsorted (a : list R) (v : R) : nat :=
  bisect_left (length a) a v 0 (length a).

(** Selection by a boolean mask, [v[sel]]. *)
Definition mask_select {A : Type} (sel : list bool) (v : list A) : list A :=
  map snd (filter fst (combine sel v)).

(** ** Windowing *)

(** [find_inds(x_len, x, radius)]. *)
Definition find_inds (x_len x radius : Z) : Z * Z * Z * Z :=
  if ((x <? - radius) || (x >? x_len + radius))%Z then (0, 0, 0, 0)%Z
  else
    let '(i0, j0) :=
      if (x >? radius)%Z then ((x - radius)%Z, 0%Z) else (0%Z, (radius - x)%Z) in
    let '(i1, j1) :=
      if (x + radius <? x_len)%Z then ((x + radius + 1)%Z, (2 * radius + 1)%Z)
      else (x_len, (radius - x + x_len)%Z) in
    (i0, i1, j0, j1).

(** [find_area_inds(x, y, shape, radius)]; [shape = (rows, columns)]. *)
Definition find_area_inds (x y : R) (shape : Z * Z) (radius : Z)
  : option (Z * Z * Z * Z) :=
  let i := int_of_float x in
  let i0 := (i - radius)%Z in
  if (i0 >=? snd shape)%Z then None else
  let i1 := (i + radius)%Z in
  if (i1 <=? 0)%Z then None else
  let i0 := Z.max i0 0 in
  let i1 := Z.min i1 (snd shape) in
  let j := int_of_float y in
  let j0 := (j - radius)%Z in
  if (j0 >=? fst shape)%Z then None else
  let j1 := (j + radius)%Z in
  if (j1 <=? 0)%Z then None else
  let j0 := Z.max j0 0 in
  let j1 := Z.min j1 (fst shape) in
  Some (i0, i1, j0, j1).

(** ** Adaptive radius *)

(** [psf_radii(fscales)] on one flux scale. *)
Definition psf_radii (fscales : R) : Z :=
  let radii := 25 + 75 * (fscales - 1e-4) / (1e-1 - 1e-4) in
  Rceil (Rmin (Rmax radii 25) 100).

(** The radius formula as the specification words it: ceiling first, then
    the clamp to [25, 100]. *)
Definition clamp (v lo hi : Z) : Z := Z.min (Z.max v lo) hi.

Definition radius_spec (flux_scale : R) : Z :=
  clamp (Rceil (25 + 75 * (flux_scale - 1e-4) / (1e-1 - 1e-4))) 25 100.

(** ** Geometry *)

(** [rotate_position(x, y, rolldeg)] on scalars. *)
Definition rotate_position (x y rolldeg : R) : R * R :=
  let rollrad := deg2rad rolldeg in
  let cosa := cos rollrad in
  let sina := sin rollrad in
  let xroll := x * cosa + y * sina in
  let yroll := - x * sina + y * cosa in
  (xroll, yroll).

(** [derotate_position(xroll, yroll, rolldegs)]. *)
Definition derotate_position (xroll yroll rolldegs : R) : R * R :=
  rotate_position xroll yroll (- rolldegs).

(** [rotate_position] applied to parallel coordinate arrays and one roll
    angle, as in [rotate_cat]: numpy evaluates the same expressions
    elementwise. *)
Definition rotate_position_arr (x y : list R) (rolldeg : R) : list R * list R :=
  let rollrad := deg2rad rolldeg in
  let cosa := cos rollrad in
  let sina := sin rollrad in
  let xroll := map (fun '(xi, yi) => xi * cosa + yi * sina) (combine x y) in
  let yroll := map (fun '(xi, yi) => - xi * sina + yi * cosa) (combine x y) in
  (xroll, yroll).

Definition derotate_position_arr (xroll yroll : list R) (rolldegs : R)
  : list R * list R :=
  rotate_position_arr xroll yroll (- rolldegs).

(** [rotate_position] applied to one position and an array of roll angles,
    as in [image_cat]. *)
Definition rotate_position_angles (x y : R) (rolldeg : list R) : list R * list R :=
  let rollrad := map deg2rad rolldeg in
  let cosa := map cos rollrad in
  let sina := map sin rollrad in
  let xroll := map (fun '(c, s) => x * c + y * s) (combine cosa sina) in
  let yroll := map (fun '(c, s) => - x * s + y * c) (combine cosa sina) in
  (xroll, yroll).

(** ** PSF models and their blurred composition *)

(** The external [psf_model] objects: callable as
    [psf_mod(x, y, grid=True, circular=True)] on two coordinate vectors,
    returning an image, and carrying a normalisation constant [norm]. *)
Record psf_model : Type := mk_psf_model {
  psf_call : list R -> list R -> bool -> bool -> array2;
  psf_norm : R
}.

Module MultiPSF.

Record t : Type := mk {
  psf_mod : psf_model;
  dxs : list R;
  dys : list R;
  norm : R
}.

(** [MultiPSF.__init__]. *)
Definition init (psf_mod : psf_model) (dxs dys : list R) : t :=
  mk psf_mod dxs dys (psf_norm psf_mod).

(** [MultiPSF.__call__(x, y, grid, circular)]. *)
Definition call (self : t) (x y : list R) (grid circular : bool)
  : result array2 :=
  dx0 <- getitem (dxs self) 0 ;;
  dy0 <- getitem (dys self) 0 ;;
  let ret := psf_call (psf_mod self) (vec_sub x dx0) (vec_sub y dy0)
                      grid circular in
  let N := length (dxs self) in
  ret <- for_each
           (fun ret n =>
              dxn <- getitem (dxs self) n ;;
              dyn <- getitem (dys self) n ;;
              Ok (arr_add ret
                    (psf_call (psf_mod self) (vec_sub x dxn) (vec_sub y dyn)
                              grid circular)))
           (range 1 N) ret ;;
  Ok (arr_div ret (INR N)).

End MultiPSF.

(** ** Catalogues *)

(** The binary table of a star-catalogue file: named columns over a common
    number of rows.  Identifiers are carried as numbers like the other
    columns. *)
Record fits_table : Type := mk_fits_table {
  columns : list (string * list R);
  nrows : nat
}.

(** [hdul[1].columns.names]. *)
Definition names (cat : fits_table) : list string := map fst (columns cat).

(** [name in hdul[1].columns.names]. *)
Definition has_column (cat : fits_table) (name : string) : bool :=
  existsb (String.eqb name) (names cat).

(** [cat[name]] for a name spelled as a column of the table is spelled:
    that column.  The FITS library also accepts a name that differs from
    a column's only in case, which this definition does not model.
    [KeyError] carries the name that was looked up. *)
Definition column (cat : fits_table) (name : string) : result (list R) :=
  match find (fun c => String.eqb name (fst c)) (columns cat) with
  | Some c => Ok (snd c)
  | None => Raise (KeyError name)
  end.

Module WorkCat.

Record t : Type := mk {
  catsize : nat;
  x : list R;
  y : list R;
  fscale : list R;
  dxs : list (list R);
  dys : list (list R);
  coeff : list (option (list R))
}.

(** [WorkCat.__init__]. *)
Definition init (x y fscale : list R) (dxs dys : list (list R)) : t :=
  mk (length x) x y fscale dxs dys (repeat None (length x)).

End WorkCat.

Module star_bg.

Record t : Type := mk {
  pxl_scl : R;
  psfs : list psf_model;
  psf_ids : list nat;
  xpos : list R;
  ypos : list R;
  fscale : list R;
  Teff : list R;
  gaiaID : list R;
  catsize : nat
}.

(** [star_bg.read_starcat(starcatfile, maxrad, fscalemin)], on the table
    found in the opened file. *)
Definition read_starcat (pxl_scl : R) (cat : fits_table)
           (maxrad : option R) (fscalemin : R)
  : result (list R * list R * list R * list R * list R) :=
  N <- match maxrad with
       | None => Ok (nrows cat)
       | Some maxrad =>
           distance <- column cat "distance" ;;
           Ok (searchsorted distance maxrad)
       end ;;
  fscale <-
    (if has_column cat "MAG_CHEOPS" then
       mag <- column cat "MAG_CHEOPS" ;;
       mag0 <- getitem mag 0 ;;
       Ok (map (fun m => Rpower 10 (- 0.4 * (m - mag0))) (firstn N mag))
     else if has_column cat "MAG_GAIA" then
       mag <- column cat "MAG_GAIA" ;;
       mag0 <- getitem mag 0 ;;
       Ok (map (fun m => Rpower 10 (- 0.4 * (m - mag0))) (firstn N mag))
     else
       Raise (Exception "[read_starcat] Error: magnitude column not defined")) ;;
  RA <- column cat "RA" ;;
  RA0 <- getitem RA 0 ;;
  DEC <- column cat "DEC" ;;
  DEC0 <- getitem DEC 0 ;;
  let dx := map (fun ra => (RA0 - ra) * cos (deg2rad DEC0) * 3600.0 / pxl_scl)
                (firstn N RA) in
  let dy := map (fun dec => (dec - DEC0) * 3600.0 / pxl_scl) (firstn N DEC) in
  T_EFF <- column cat "T_EFF" ;;
  let Teff := firstn N T_EFF in
  ID <- column cat "ID" ;;
  let gaiaID := firstn N ID in
  let sel := map (fun f => Rltb fscalemin f) fscale in
  Ok (mask_select sel dx, mask_select sel dy, mask_select sel fscale,
      mask_select sel Teff, mask_select sel gaiaID).

(** [star_bg.__init__]; the PSFs and the per-star PSF indices come from
    [assign_psf], which queries the external PSF library. *)
Definition init (cat : fits_table) (psfs : list psf_model)
           (assign_psf : list R -> list nat)
           (maxrad : option R) (fscalemin pixel_scale : R) : result t :=
  r <- read_starcat pixel_scale cat maxrad fscalemin ;;
  let '(xpos, ypos, fscale, Teff, gaiaID) := r in
  Ok (mk pixel_scale psfs (assign_psf Teff) xpos ypos fscale Teff gaiaID
         (length fscale)).

(** [star_bg.rotate_cat(rolldeg, maxrad)]. *)
Definition rotate_cat (self : t) (rolldeg : R) (maxrad : option R)
  : list R * list R :=
  match maxrad with
  | Some maxrad =>
      let r2 := map (fun '(xi, yi) => xi ^ 2 + yi ^ 2)
                    (combine (xpos self) (ypos self)) in
      let Nmax := searchsorted r2 (maxrad ^ 2) in
      rotate_position_arr (firstn Nmax (xpos self)) (firstn Nmax (ypos self))
                          rolldeg
  | None => rotate_position_arr (xpos self) (ypos self) rolldeg
  end.

(** The body of the loop of [image_cat] for one star at rotated position
    [(xn, yn)]: the offsets appended to [dxs] and [dys]. *)
Definition blur_offsets (blurdeg xn yn num_res_n : R) : list R * list R :=
  let N := (2 * int_of_float num_res_n + 1)%Z in
  if (N >? 2)%Z then
    let angles_deg := map (fun a => 0.5 * blurdeg * a)
                          (linspace (-1) 1 (Z.to_nat N)) in
    let '(rx, ry) := rotate_position_angles xn yn angles_deg in
    (vec_sub rx xn, vec_sub ry yn)
  else
    ([0], [0]).

(** [num_res] of [image_cat], per star. *)
Definition num_res (blurdeg resolution : R) (x y : list R) : list R :=
  let r := map (fun '(xi, yi) => sqrt (xi ^ 2 + yi ^ 2)) (combine x y) in
  map (fun ri => 0.5 * deg2rad blurdeg * ri / resolution) r.

(** [star_bg.image_cat(x0, y0, rolldeg, blurdeg, maxrad, resolution)], for
    [resolution <> 0].  At [resolution = 0] the entries of [num_res] are
    not finite and [int(num_res[n])] raises, which this definition does
    not model. *)
Definition image_cat (self : t) (x0 y0 rolldeg blurdeg : R)
           (maxrad : option R) (resolution : R) : WorkCat.t :=
  let '(x, y) := rotate_cat self rolldeg maxrad in
  let Nstars := length x in
  let fscale := firstn Nstars (fscale self) in
  let num_res := num_res blurdeg resolution x y in
  let offsets :=
    map (fun n => blur_offsets blurdeg (nth n x 0) (nth n y 0) (nth n num_res 0))
        (range 0 Nstars) in
  WorkCat.init (vec_add x x0) (vec_add y y0) fscale
               (map fst offsets) (map snd offsets).

(** The part of the loop body of [image] that renders star [n], after
    the two [continue] tests. *)
Definition image_star (self : t) (x0 y0 : R) (shape : Z * Z)
           (dx dy xcoo ycoo : list R) (ret_img : Frame) (n : nat)
  : result Frame :=
  fscale_n <- getitem (fscale self) n ;;
  let psf_rad := psf_radii fscale_n in
  dx_n <- getitem dx n ;;
  dy_n <- getitem dy n ;;
  match find_area_inds (x0 + dx_n) (y0 + dy_n) shape psf_rad with
  | None => Ok ret_img
  | Some (i0, i1, j0, j1) =>
      let ddx := vec_sub (slice xcoo i0 i1) dx_n in
      let ddy := vec_sub (slice ycoo j0 j1) dy_n in
      psf_id <- getitem (psf_ids self) n ;;
      psf_fun <- getitem (psfs self) psf_id ;;
      let psf_mat := psf_call psf_fun ddx ddy true true in
      let psf_mat : array2 :=
        fun r c =>
          if Rltb (IZR psf_rad ^ 2)
                  (nth (Z.to_nat c) ddx 0 ^ 2 + nth (Z.to_nat r) ddy 0 ^ 2)
          then 0 else psf_mat r c in
      Ok (slice_add ret_img j0 j1 i0 i1 (arr_scale fscale_n psf_mat) 0 0)
  end.

(** The loop body of [image]. *)
Definition image_body (self : t) (x0 y0 : R) (shape : Z * Z)
           (skip : list nat) (limflux : R)
           (dx dy xcoo ycoo : list R) (ret_img : Frame) (n : nat)
  : result Frame :=
  if existsb (Nat.eqb n) skip then Ok ret_img else
  fscale_n <- getitem (fscale self) n ;;
  if Rltb fscale_n limflux then Ok ret_img else
  image_star self x0 y0 shape dx dy xcoo ycoo ret_img n.

(** [star_bg.image(x0, y0, rolldeg, shape, skip, limflux, single_id)]. *)
Definition image (self : t) (x0 y0 rolldeg : R) (shape : Z * Z)
           (skip : list nat) (limflux : R) (single_id : option nat)
  : result Frame :=
  let '(dx, dy) := rotate_cat self rolldeg None in
  let xcoo := vec_sub (arange (snd shape)) x0 in
  let ycoo := vec_sub (arange (fst shape)) y0 in
  let ret_img := np_zeros shape in
  let id_range :=
    match single_id with
    | None => range 0 (catsize self)
    | Some single_id => [single_id]
    end in
  for_each (image_body self x0 y0 shape skip limflux dx dy xcoo ycoo)
           id_range ret_img.

End star_bg.

(** ** Rendering one star *)

(** The sample coordinates [np.linspace(-radius, radius, 2*radius+1)], for
    [radius >= 0].  For a negative radius the count is negative and numpy
    raises [ValueError], which this definition does not model; the radii
    of [psf_radii] are at least 25. *)
Definition window_coords (radius : Z) : list R :=
  linspace (IZR (- radius)) (IZR radius) (Z.to_nat (2 * radius + 1)).

(** [psf_image(x0f, y0f, dxs, dys, psf_mod, radius)]. *)
Definition psf_image (x0f y0f : R) (dxs dys : list R) (psf_mod : psf_model)
           (radius : Z) : result array2 :=
  let v := window_coords radius in
  let psf := MultiPSF.init psf_mod dxs dys in
  MultiPSF.call psf (vec_sub v x0f) (vec_sub v y0f) true true.

(** [psf_fit_image(kf, kx, ky, dxs, dys, psf_mod, radius)]. *)
Definition psf_fit_image (kf kx ky dxs dys : list R) (psf_mod : psf_model)
           (radius : Z) : result array2 :=
  let v := window_coords radius in
  let psf_smear := MultiPSF.init psf_mod dxs dys in
  kf0 <- getitem kf 0 ;;
  kx0 <- getitem kx 0 ;;
  ky0 <- getitem ky 0 ;;
  img <- MultiPSF.call psf_smear (vec_sub v kx0) (vec_sub v ky0) true false ;;
  let ret := arr_scale kf0 img in
  ret <- for_each
           (fun ret n =>
              kfn <- getitem kf n ;;
              kxn <- getitem kx n ;;
              kyn <- getitem ky n ;;
              img <- MultiPSF.call psf_smear (vec_sub v kxn) (vec_sub v kyn)
                                   true false ;;
              Ok (arr_add ret (arr_scale kfn img)))
           (range 1 (length kf)) ret ;;
  let disc : Z -> Z -> bool :=
    fun r c => ((- radius + r) ^ 2 + (- radius + c) ^ 2 <=? radius ^ 2)%Z in
  Ok (fun r c => b2r (disc r c) * ret r c).

(** The footprint either function above produces for a star, by whether a
    fitted kernel [kmat = (kf, kx, ky)] is given. *)
Definition star_frame_of (x0f y0f : R) (dxs dys : list R) (psf_mod : psf_model)
           (kmat : option (list R * list R * list R)) (radius : Z)
  : result array2 :=
  match kmat with
  | None => psf_image x0f y0f dxs dys psf_mod radius
  | Some (kf, kx, ky) =>
      psf_fit_image kf (vec_add kx x0f) (vec_add ky y0f) dxs dys psf_mod radius
  end.

(** [add_star(frame, flux, x0, y0, dxs, dys, psf_mod, kmat, radius)]. *)
Definition add_star (frame : Frame) (flux x0 y0 : R) (dxs dys : list R)
           (psf_mod : psf_model) (kmat : option (list R * list R * list R))
           (radius : Z) : result Frame :=
  let x0i := int_of_float x0 in
  let y0i := int_of_float y0 in
  let x0f := x0 - IZR x0i in
  let y0f := y0 - IZR y0i in
  let '(xi0, xi1, xj0, xj1) := find_inds (snd (shape frame)) x0i radius in
  let '(yi0, yi1, yj0, yj1) := find_inds (fst (shape frame)) y0i radius in
  star_frame <- star_frame_of x0f y0f dxs dys psf_mod kmat radius ;;
  Ok (slice_add frame yi0 yi1 xi0 xi1 (arr_scale flux star_frame) yj0 xj0).

(** [add_psf_mask(frame, x0, y0, dxs, dys, psf_mod, kmat, radius, level)]. *)
Definition add_psf_mask (frame : Frame) (x0 y0 : R) (dxs dys : list R)
           (psf_mod : psf_model) (kmat : option (list R * list R * list R))
           (radius : Z) (level : R) : result Frame :=
  let x0i := int_of_float x0 in
  let y0i := int_of_float y0 in
  let x0f := x0 - IZR x0i in
  let y0f := y0 - IZR y0i in
  let '(xi0, xi1, xj0, xj1) := find_inds (snd (shape frame)) x0i radius in
  let '(yi0, yi1, yj0, yj1) := find_inds (fst (shape frame)) y0i radius in
  star_frame <- star_frame_of x0f y0f dxs dys psf_mod kmat radius ;;
  let side := Z.to_nat (2 * radius + 1) in
  let peak := arr_max side side star_frame in
  Ok (slice_add frame yi0 yi1 xi0 xi1
                (fun r c => b2r (Rltb (level * peak) (star_frame r c)))
                yj0 xj0).

(** [add_circle(frame, x0, y0, radius)], for [radius >= 0].  For
    [radius <= -2] the count of [np.linspace] is negative and numpy
    raises [ValueError], which this definition does not model. *)
Definition add_circle (frame : Frame) (x0 y0 radius : R) : Frame :=
  let im_rad := int_of_float (radius + 1) in
  let x0i := int_of_float x0 in
  let y0i := int_of_float y0 in
  let x0f := x0 - IZR x0i in
  let y0f := y0 - IZR y0i in
  let '(xi0, xi1, xj0, xj1) := find_inds (snd (shape frame)) x0i im_rad in
  let '(yi0, yi1, yj0, yj1) := find_inds (fst (shape frame)) y0i im_rad in
  let v := window_coords im_rad in
  let X : array2 := fun r c => nth (Z.to_nat c) v 0 - x0f in
  let Y : array2 := fun r c => nth (Z.to_nat r) v 0 - y0f in
  let circ_frame : Z -> Z -> bool :=
    fun r c => Rleb (X r c ^ 2 + Y r c ^ 2) (radius ^ 2) in
  slice_add frame yi0 yi1 xi0 xi1 (fun r c => b2r (circ_frame r c)) yj0 xj0.

(** The choice of [kmat] in the [make_*] functions: the star's fitted
    coefficients with the kernel offsets when both are there
    ([kx is not None and work_cat.coeff[n] is not None]). *)
Definition choose_kmat (kx ky : option (list R))
           (coeff : list (option (list R))) (n : nat)
  : result (option (list R * list R * list R)) :=
  match kx with
  | None => Ok None
  | Some kx =>
      coeff_n <- getitem coeff n ;;
      match coeff_n with
      | None => Ok None
      | Some coeff_n =>
          match ky with
          | Some ky => Ok (Some (coeff_n, kx, ky))
          | None => Raise TypeError
          end
      end
  end.

(** [make_single_star_frame(shape, work_cat, psf_mod, star_id, kx, ky)]. *)
Definition make_single_star_frame (shape : Z * Z) (work_cat : WorkCat.t)
           (psf_mod : psf_model) (star_id : nat) (kx ky : option (list R))
  : result Frame :=
  fscale_n <- getitem (WorkCat.fscale work_cat) star_id ;;
  let radius := psf_radii fscale_n in
  let frame := np_zeros shape in
  kmat <- choose_kmat kx ky (WorkCat.coeff work_cat) star_id ;;
  x_n <- getitem (WorkCat.x work_cat) star_id ;;
  y_n <- getitem (WorkCat.y work_cat) star_id ;;
  dxs_n <- getitem (WorkCat.dxs work_cat) star_id ;;
  dys_n <- getitem (WorkCat.dys work_cat) star_id ;;
  add_star frame fscale_n x_n y_n dxs_n dys_n psf_mod kmat radius.

(** ** Refinement of the background model *)

(** The fitting kernel grid of [refine_bg_model]: [xkern], the two
    [np.meshgrid] arrays and the circular support [selk]. *)
Definition kernel_side (krn_rad : Z) : nat := Z.to_nat (2 * krn_rad + 1).

Definition xkern (krn_rad : Z) : list R := window_coords krn_rad.

Definition xkmat (krn_rad : Z) : array2 :=
  fun r c => nth (Z.to_nat c) (xkern krn_rad) 0.

Definition ykmat (krn_rad : Z) : array2 :=
  fun r c => nth (Z.to_nat r) (xkern krn_rad) 0.

Definition selk (krn_rad : Z) : Z -> Z -> bool :=
  fun r c => Rleb (xkmat krn_rad r c ^ 2 + ykmat krn_rad r c ^ 2) (IZR krn_rad ^ 2).

Definition kernel_kx (krn_scl : R) (krn_rad : Z) : list R :=
  map (fun v => krn_scl * v)
      (bool_index (kernel_side krn_rad) (kernel_side krn_rad) (selk krn_rad)
                  (xkmat krn_rad)).

Definition kernel_ky (krn_scl : R) (krn_rad : Z) : list R :=
  map (fun v => krn_scl * v)
      (bool_index (kernel_side krn_rad) (kernel_side krn_rad) (selk krn_rad)
                  (ykmat krn_rad)).

(** What the fitting routine returns:
    [(fitstar_img, _bg, kmat, _sc, _w)]. *)
Definition fit_result : Type := (Frame * R * array2 * R * list R)%type.

(** The model buffer and the working catalogue, both mutated in place by
    [refine_bg_model] and so visible to the caller on every exit. *)
Definition refine_state : Type := (Frame * WorkCat.t)%type.

Section Refiner.

(** The external routine [psf.fit], called as
    [psf_fit([psf_smear], fit_frame, noise, mask, xc, yc, fitrad, defrad,
    krn_scl, krn_rad, bg_fit)]; it may raise. *)
Variable psf_fit :
  list MultiPSF.t -> Frame -> Frame -> (Z -> Z -> bool) ->
  R -> R -> Z -> Z -> R -> Z -> Z -> result fit_result.

Variables (data_frame noise : Frame) (mask : Z -> Z -> bool) (psf_norm : R)
          (psf_ids : list nat) (psfs : list psf_model)
          (krn_scl : R) (krn_rad : Z).

(** First two statements of the loop body: the star's PSF and its
    current rendering. *)
Definition render_current (work_cat : WorkCat.t) (star_id : nat)
  : result (psf_model * Frame) :=
  psf_id <- getitem psf_ids star_id ;;
  psf_mod <- getitem psfs psf_id ;;
  star_img <- make_single_star_frame (shape data_frame) work_cat psf_mod star_id
                (Some (kernel_kx krn_scl krn_rad))
                (Some (kernel_ky krn_scl krn_rad)) ;;
  Ok (psf_mod, star_img).

(** From [fit_frame = data_frame - model] to the call of the fitting
    routine, on the model buffer already reduced by the star. *)
Definition fit_star (model : Frame) (work_cat : WorkCat.t)
           (psf_mod : psf_model) (star_id : nat) : result fit_result :=
  let fit_frame := frame_sub data_frame model in
  dxs_n <- getitem (WorkCat.dxs work_cat) star_id ;;
  dys_n <- getitem (WorkCat.dys work_cat) star_id ;;
  let psf_smear := MultiPSF.init psf_mod dxs_n dys_n in
  fscale_n <- getitem (WorkCat.fscale work_cat) star_id ;;
  let psf_rad := psf_radii fscale_n in
  x_n <- getitem (WorkCat.x work_cat) star_id ;;
  y_n <- getitem (WorkCat.y work_cat) star_id ;;
  let dist := sqrt ((x_n - 0.5 * IZR (snd (shape data_frame))) ^ 2
                    + (y_n - 0.5 * IZR (fst (shape data_frame))) ^ 2) in
  let fitrad :=
    if Rltb (0.5 * IZR (Z.min (fst (shape data_frame)) (snd (shape data_frame))))
            dist
    then psf_rad else 25%Z in
  psf_fit [psf_smear] fit_frame noise mask x_n y_n fitrad psf_rad
          krn_scl krn_rad (-1)%Z.

(** Last four statements of the loop body: the fitted image goes back
    into the model, the flux scale and the coefficients are stored. *)
Definition store_fit (model : Frame) (work_cat : WorkCat.t) (star_id : nat)
           (fit : fit_result) : refine_state :=
  let '(fitstar_img, _bg, kmat, _sc, _w) := fit in
  let model := frame_add model fitstar_img in
  let knorm := arr_sum (kernel_side krn_rad) (kernel_side krn_rad) kmat in
  let fscale_n := nth star_id (WorkCat.fscale work_cat) 0 in
  let fscale :=
    list_set (WorkCat.fscale work_cat) star_id
             (fscale_n * (knorm / (psf_norm * fscale_n))) in
  let coeff :=
    list_set (WorkCat.coeff work_cat) star_id
             (Some (map (fun k => k / knorm)
                        (bool_index (kernel_side krn_rad) (kernel_side krn_rad)
                                    (selk krn_rad) kmat))) in
  (model,
   WorkCat.mk (WorkCat.catsize work_cat) (WorkCat.x work_cat)
              (WorkCat.y work_cat) fscale (WorkCat.dxs work_cat)
              (WorkCat.dys work_cat) coeff).

(** One iteration of the loop over [starids]: the state left behind and
    whether the iteration completed. *)
Definition refine_star (st : refine_state) (star_id : nat)
  : refine_state * result unit :=
  let '(model, work_cat) := st in
  match render_current work_cat star_id with
  | Raise e => (st, Raise e)
  | Ok (psf_mod, star_img) =>
      let model := frame_sub model (frame_scale psf_norm star_img) in
      match fit_star model work_cat psf_mod star_id with
      | Raise e => ((model, work_cat), Raise e)
      | Ok fit => (store_fit model work_cat star_id fit, Ok tt)
      end
  end.

Fixpoint refine_loop (starids : list nat) (st : refine_state)
  : refine_state * result unit :=
  match starids with
  | [] => (st, Ok tt)
  | star_id :: starids' =>
      match refine_star st star_id with
      | (st', Ok _) => refine_loop starids' st'
      | (st', Raise e) => (st', Raise e)
      end
  end.

(** [refine_bg_model(starids, data_frame, noise, mask, model, psf_norm,
    work_cat, psf_ids, psfs, krn_scl, krn_rad)]: the final contents of
    the caller's [model] and [work_cat], and the value returned or the
    exception raised. *)
Definition refine_bg_model (starids : list nat) (model : Frame)
           (work_cat : WorkCat.t) : refine_state * result WorkCat.t :=
  match refine_loop starids (model, work_cat) with
  | (st, Ok _) => (st, Ok (snd st))
  | (st, Raise e) => (st, Raise e)
  end.

End Refiner.

(** ** Masks *)

(** [make_bg_circ_mask(shape, work_cat, skip, radius)]. *)
Definition make_bg_circ_mask (shape : Z * Z) (work_cat : WorkCat.t)
           (skip : list nat) (radius : R) : result (Z -> Z -> bool) :=
  let frame := np_zeros shape in
  frame <- for_each
             (fun frame n =>
                if existsb (Nat.eqb n) skip then Ok frame else
                x_n <- getitem (WorkCat.x work_cat) n ;;
                y_n <- getitem (WorkCat.y work_cat) n ;;
                Ok (add_circle frame x_n y_n radius))
             (range 0 (WorkCat.catsize work_cat)) frame ;;
  Ok (fun r c => Reqb (pix frame r c) 0).

(** The arguments [add_psf_mask] receives for star [n] in
    [make_bg_psf_mask]. *)
Definition psf_mask_star (frame : Frame) (work_cat : WorkCat.t)
           (psf_ids : list nat) (psfs : list psf_model)
           (kx ky : option (list R)) (radius : Z) (level : R) (n : nat)
  : result Frame :=
  kmat <- choose_kmat kx ky (WorkCat.coeff work_cat) n ;;
  x_n <- getitem (WorkCat.x work_cat) n ;;
  y_n <- getitem (WorkCat.y work_cat) n ;;
  dxs_n <- getitem (WorkCat.dxs work_cat) n ;;
  dys_n <- getitem (WorkCat.dys work_cat) n ;;
  psf_id <- getitem psf_ids n ;;
  psf_mod <- getitem psfs psf_id ;;
  add_psf_mask frame x_n y_n dxs_n dys_n psf_mod kmat radius level.

(** [make_bg_psf_mask(shape, work_cat, psf_ids, psfs, skip, kx, ky, radius,
    level)]. *)
Definition make_bg_psf_mask (shape : Z * Z) (work_cat : WorkCat.t)
           (psf_ids : list nat) (psfs : list psf_model) (skip : list nat)
           (kx ky : option (list R)) (radius : Z) (level : R)
  : result (Z -> Z -> bool) :=
  let frame := np_zeros shape in
  frame <- for_each
             (fun frame n =>
                if existsb (Nat.eqb n) skip then Ok frame else
                psf_mask_star frame work_cat psf_ids psfs kx ky radius level n)
             (range 0 (WorkCat.catsize work_cat)) frame ;;
  Ok (fun r c => Reqb (pix frame r c) 0).

(** The magnitude column [read_starcat] works from, if any. *)
Definition mag_column (cat : fits_table) : option string :=
  if has_column cat "MAG_CHEOPS" then Some "MAG_CHEOPS"%string
  else if has_column cat "MAG_GAIA" then Some "MAG_GAIA"%string
  else None.

(** The number of leading rows [read_starcat] keeps. *)
Definition kept_rows (cat : fits_table) (maxrad : option R) (N : nat) : Prop :=
  match maxrad with
  | None => N = nrows cat
  | Some maxrad =>
      exists distance,
        column cat "distance" = Ok distance /\ N = searchsorted distance maxrad
  end.

(** A two-row catalogue with the Gaia magnitude column only. *)
Definition example_table : fits_table :=
  mk_fits_table
    [("ID"%string, [1; 2]); ("RA"%string, [10; 10.01]);
     ("DEC"%string, [20; 20.01]); ("MAG_GAIA"%string, [9; 12]);
     ("T_EFF"%string, [5500; 4000]); ("distance"%string, [0; 40])]
    2.

(** The [i]-th of [N] evenly spaced sub-angles across the blur arc. *)
Definition sub_angle (blurdeg : R) (N i : nat) : R :=
  0.5 * blurdeg * (-1 + INR i * ((1 - -1) / INR (N - 1))).

(** A catalogue of two stars, the target and a neighbour 50 pixels away. *)
Definition example_star_bg : star_bg.t :=
  star_bg.mk 1.01 [] [] [0; 30] [0; 40] [1; 0.05] [5500; 4000] [1; 2] 2.

(** A catalogue of a single star one pixel from the origin. *)
Definition unit_star_bg : star_bg.t :=
  star_bg.mk 1.01 [] [] [1] [0] [1] [5500] [1] 1.

(** The test [image] applies before rendering star [n]: not skipped and
    not fainter than [limflux]. *)
Definition is_drawn (self : star_bg.t) (skip : list nat) (limflux : R) (n : nat)
  : bool :=
  negb (existsb (Nat.eqb n) skip)
  && negb (Rltb (nth n (star_bg.fscale self) 0) limflux).

(** A constant PSF model, zero everywhere. *)
Definition flat_psf : psf_model := mk_psf_model (fun _ _ _ _ => zeros) 1.

(** Three stars with flux scales 1.0, 0.05 and 1e-6. *)
Definition three_star_bg : star_bg.t :=
  star_bg.mk 1.01 [flat_psf] [0; 0; 0]%nat [0; 30; -20] [0; 40; 10]
             [1.0; 0.05; 1e-6] [5500; 4000; 6000] [1; 2; 3] 3.

(** A fitting routine that always fails, and one that always returns an
    empty image with the all-ones kernel. *)
Definition failing_fit :
  list MultiPSF.t -> Frame -> Frame -> (Z -> Z -> bool) ->
  R -> R -> Z -> Z -> R -> Z -> Z -> result fit_result :=
  fun _ _ _ _ _ _ _ _ _ _ _ => Raise FitError.


(** A working catalogue of one unblurred, not yet refined star. *)
Definition one_star_cat : WorkCat.t :=
  WorkCat.init [10] [12] [0.05] [[0]] [[0]].

(** Pixel [(r, c)] lies in the circle [add_circle] draws for a star at
    [(x0, y0)] into a frame of the given shape. *)
Definition circle_covers (shp : Z * Z) (x0 y0 radius : R) (r c : Z) : Prop :=
  pix (add_circle (np_zeros shp) x0 y0 radius) r c <> 0.

(** Pixel [(r, c)] lies in the region [add_psf_mask] marks for star [n]:
    where its footprint exceeds [level] times the footprint's peak. *)
Definition psf_covers (shp : Z * Z) (work_cat : WorkCat.t)
           (psf_ids : list nat) (psfs : list psf_model)
           (kx ky : option (list R)) (radius : Z) (level : R)
           (n : nat) (r c : Z) : Prop :=
  exists frame,
    psf_mask_star (np_zeros shp) work_cat psf_ids psfs kx ky radius level n
    = Ok frame /\
    pix frame r c <> 0.

(** The stars of a list that are not skipped. *)
Definition unskipped (skip : list nat) (l : list nat) : list nat :=
  filter (fun n => negb (existsb (Nat.eqb n) skip)) l.

(** The footprint [make_bg_psf_mask] has [add_psf_mask] compute for star
    [n], with the integer pixel position of the star. *)
Definition star_footprint (work_cat : WorkCat.t) (psf_ids : list nat)
           (psfs : list psf_model) (kx ky : option (list R)) (radius : Z)
           (n : nat) : result (array2 * Z * Z) :=
  kmat <- choose_kmat kx ky (WorkCat.coeff work_cat) n ;;
  x_n <- getitem (WorkCat.x work_cat) n ;;
  y_n <- getitem (WorkCat.y work_cat) n ;;
  dxs_n <- getitem (WorkCat.dxs work_cat) n ;;
  dys_n <- getitem (WorkCat.dys work_cat) n ;;
  psf_id <- getitem psf_ids n ;;
  psf_mod <- getitem psfs psf_id ;;
  star_frame <- star_frame_of (x_n - IZR (int_of_float x_n))
                              (y_n - IZR (int_of_float y_n))
                              dxs_n dys_n psf_mod kmat radius ;;
  Ok (star_frame, int_of_float x_n, int_of_float y_n).

(** Three blur offsets along a short arc, and a three-point sample grid. *)
Definition example_dxs : list R := [-0.5; 0; 0.5].
Definition example_dys : list R := [0.1; 0; -0.1].
Definition example_grid : list R := [-1; 0; 1].

(** ** Further catalogue operations *)

(** [star_bg.rotate_entry(entry, rolldeg)]. *)
Definition rotate_entry (self : star_bg.t) (entry : nat) (rolldeg : R)
  : result (R * R) :=
  x <- getitem (star_bg.xpos self) entry ;;
  y <- getitem (star_bg.ypos self) entry ;;
  Ok (rotate_position x y rolldeg).

(** An array in non-decreasing order. *)
Definition nondecreasing (a : list R) : Prop :=
  forall i j, (i <= j)%nat -> (j < length a)%nat -> nth i a 0 <= nth j a 0.

(** The squared distances [self.xpos**2 + self.ypos**2] of [rotate_cat]. *)
Definition r2_of (self : star_bg.t) : list R :=
  map (fun '(xi, yi) => xi ^ 2 + yi ^ 2)
      (combine (star_bg.xpos self) (star_bg.ypos self)).


(** [dist] of [bright_star_ids]: the distance of every star from the
    target, [(self.xpos**2 + self.ypos**2)**.5]. *)
Definition dist_of (self : star_bg.t) : list R :=
  map (fun '(xi, yi) => sqrt (xi ^ 2 + yi ^ 2))
      (combine (star_bg.xpos self) (star_bg.ypos self)).

(** The loop of [bright_star_ids] over the indices [l] still to visit,
    with the ids gathered so far: two [continue] tests, one [break]. *)
Fixpoint bright_star_loop (self : star_bg.t) (limflux outradius inradius : R)
         (dist : list R) (l : list nat) (ids : list nat) : result (list nat) :=
  match l with
  | [] => Ok ids
  | n :: l' =>
      fscale_n <- getitem (star_bg.fscale self) n ;;
      if Rltb fscale_n limflux
      then bright_star_loop self limflux outradius inradius dist l' ids
      else
        dist_n <- getitem dist n ;;
        if Rltb dist_n inradius
        then bright_star_loop self limflux outradius inradius dist l' ids
        else if Rltb outradius dist_n
             then Ok ids
             else bright_star_loop self limflux outradius inradius dist l'
                                   (ids ++ [n])
  end.

(** [star_bg.bright_star_ids(limflux, outradius, inradius)]. *)
Definition bright_star_ids (self : star_bg.t) (limflux outradius inradius : R)
  : result (list nat) :=
  let dist := dist_of self in
  bright_star_loop self limflux outradius inradius dist
                   (range 0 (star_bg.catsize self)) [].

(** Star [n] is at least as bright as [limflux] and lies between
    [inradius] and [outradius] from the target. *)
Definition bright_and_near (self : star_bg.t) (limflux outradius inradius : R)
           (n : nat) : bool :=
  negb (Rltb (nth n (star_bg.fscale self) 0) limflux)
  && negb (Rltb (nth n (dist_of self) 0) inradius)
  && negb (Rltb outradius (nth n (dist_of self) 0)).

(** Star [n] makes the loop of [bright_star_ids] stop: bright enough, not
    inside [inradius], and beyond [outradius]. *)
Definition bright_and_beyond (self : star_bg.t) (limflux outradius inradius : R)
           (n : nat) : Prop :=
  ~ nth n (star_bg.fscale self) 0 < limflux /\
  ~ nth n (dist_of self) 0 < inradius /\
  outradius < nth n (dist_of self) 0.

(** A catalogue whose parallel arrays all have [catsize] entries. *)
Definition consistent_catalogue (self : star_bg.t) : Prop :=
  length (star_bg.fscale self) = star_bg.catsize self /\
  length (star_bg.xpos self) = star_bg.catsize self /\
  length (star_bg.ypos self) = star_bg.catsize self.

(** [make_bg_frame(shape, work_cat, psf_ids, psfs, skip, kx, ky)]. *)
Definition make_bg_frame (shape : Z * Z) (work_cat : WorkCat.t)
           (psf_ids : list nat) (psfs : list psf_model) (skip : list nat)
           (kx ky : option (list R)) : result Frame :=
  let radii := map psf_radii (WorkCat.fscale work_cat) in
  let frame := np_zeros shape in
  for_each
    (fun frame n =>
       if existsb (Nat.eqb n) skip then Ok frame else
       kmat <- choose_kmat kx ky (WorkCat.coeff work_cat) n ;;
       fscale_n <- getitem (WorkCat.fscale work_cat) n ;;
       x_n <- getitem (WorkCat.x work_cat) n ;;
       y_n <- getitem (WorkCat.y work_cat) n ;;
       dxs_n <- getitem (WorkCat.dxs work_cat) n ;;
       dys_n <- getitem (WorkCat.dys work_cat) n ;;
       psf_id <- getitem psf_ids n ;;
       psf_mod <- getitem psfs psf_id ;;
       radius <- getitem radii n ;;
       add_star frame fscale_n x_n y_n dxs_n dys_n psf_mod kmat radius)
    (range 0 (WorkCat.catsize work_cat)) frame.

(** The frame of star [n] alone, rendered with the PSF assigned to it:
    [make_single_star_frame(shape, work_cat, psfs[psf_ids[n]], n, kx, ky)]. *)
Definition single_star_frame (shape : Z * Z) (work_cat : WorkCat.t)
           (psf_ids : list nat) (psfs : list psf_model)
           (kx ky : option (list R)) (n : nat) : result Frame :=
  psf_id <- getitem psf_ids n ;;
  psf_mod <- getitem psfs psf_id ;;
  make_single_star_frame shape work_cat psf_mod n kx ky.

(** The value of that frame at a pixel, 0 if it cannot be rendered. *)
Definition single_star_pix (shape : Z * Z) (work_cat : WorkCat.t)
           (psf_ids : list nat) (psfs : list psf_model)
           (kx ky : option (list R)) (n : nat) (r c : Z) : R :=
  match single_star_frame shape work_cat psf_ids psfs kx ky n with
  | Ok f => pix f r c
  | Raise _ => 0
  end.

(** What a run of the refinement loop over [starids] may have changed in
    the caller's model buffer and working catalogue. *)
Definition changed_only (starids : list nat) (st st' : refine_state) : Prop :=
  shape (fst st') = shape (fst st) /\
  WorkCat.catsize (snd st') = WorkCat.catsize (snd st) /\
  WorkCat.x (snd st') = WorkCat.x (snd st) /\
  WorkCat.y (snd st') = WorkCat.y (snd st) /\
  WorkCat.dxs (snd st') = WorkCat.dxs (snd st) /\
  WorkCat.dys (snd st') = WorkCat.dys (snd st) /\
  length (WorkCat.fscale (snd st')) = length (WorkCat.fscale (snd st)) /\
  length (WorkCat.coeff (snd st')) = length (WorkCat.coeff (snd st)) /\
  forall m, ~ In m starids ->
    nth_error (WorkCat.fscale (snd st')) m = nth_error (WorkCat.fscale (snd st)) m /\
    nth_error (WorkCat.coeff (snd st')) m = nth_error (WorkCat.coeff (snd st)) m.


(** The grid points of the fitting kernel inside its circular support, as
    (row, column) pairs in the row-major order of [a[selk]]. *)
Definition kernel_support (krn_rad : Z) : list (Z * Z) :=
  filter (fun p => selk krn_rad (fst p) (snd p))
         (list_prod (map Z.of_nat (seq 0 (kernel_side krn_rad)))
                    (map Z.of_nat (seq 0 (kernel_side krn_rad)))).


(** ** Helpers of [read.py] *)

(** [sub_image_indices(offset, size)] on a 2D offset and a 2D size. *)
Definition sub_image_indices (offset size : R * R) : Z * Z * Z * Z :=
  let i0 := int_of_float (fst offset) in
  let i1 := int_of_float (IZR i0 + fst size) in
  let j0 := int_of_float (snd offset) in
  let j1 := int_of_float (IZR j0 + snd size) in
  (i0, i1, j0, j1).

(** [psf_metric(target_params, psf_params, weights)]; the weights are
    first divided by half their Euclidean norm. *)
Definition psf_metric (target_params psf_params weights : list R) : result R :=
  let weights :=
    map (fun w => w / (0.5 * sqrt (Rsum (map (fun w => w ^ 2) weights))))
        weights in
  t0 <- getitem target_params 0 ;;
  p0 <- getitem psf_params 0 ;;
  w0 <- getitem weights 0 ;;
  let dTeff := (t0 / p0 - 1) * w0 in
  t1 <- getitem target_params 1 ;;
  p1 <- getitem psf_params 1 ;;
  w1 <- getitem weights 1 ;;
  let dTF2 := (t1 / p1 - 1) * w1 in
  t2 <- getitem target_params 2 ;;
  p2 <- getitem psf_params 2 ;;
  w2 <- getitem weights 2 ;;
  let dmjd := ((t2 - p2) / 1000.0) * w2 in
  p3 <- getitem psf_params 3 ;;
  w3 <- getitem weights 3 ;;
  let dexptime := (p3 / 60) * w3 in
  Ok (dTeff ^ 2 + dTF2 ^ 2 + dmjd ^ 2 + dexptime ^ 2).


(** ** PSF indices by temperature: the loop of [star_bg.assign_psf] *)

(** [self.psf_mod_Teff] and [self.default_psf_id] of [star_bg.__init__]. *)
Definition psf_mod_Teff : list R := [3000.0; 4000.0; 5000.0; 6000.0; 8000.0; 10000.0].
Definition default_psf_id : nat := 2.

(** [a.argmin()]: the index of the first smallest entry; numpy raises on
    an empty array. *)
Fixpoint argmin_from (l : list R) (i best : nat) (bestv : R) : nat :=
  match l with
  | [] => best
  | v :: l' =>
      if Rltb v bestv then argmin_from l' (S i) i v
      else argmin_from l' (S i) best bestv
  end.

Definition argmin (a : list R) : result nat :=
  match a with
  | [] => Raise (Exception "attempt to get argmin of an empty sequence")
  | v :: l => Ok (argmin_from l 1 0 v)
  end.

(** The second loop of [star_bg.assign_psf], which fills [psf_ids]. A
    catalogue temperature that is not a finite number is [None]. *)
Definition assign_psf_ids (catsize : nat) (Teff : list (option R))
  : result (list nat) :=
  let psf_ids := repeat default_psf_id catsize in
  for_each
    (fun psf_ids n =>
       Teff_n <- getitem Teff n ;;
       match Teff_n with
       | Some Teff_n =>
           id <- argmin (map (fun m => Rabs (m - Teff_n)) psf_mod_Teff) ;;
           Ok (list_set psf_ids n id)
       | None => Ok psf_ids
       end)
    (range 0 catsize) psf_ids.

(** The temperature bin of a star: the bounds are the midpoints of the
    model temperatures, a midpoint going to the cooler model. *)
Definition Teff_bin (Teff_n : option R) : nat :=
  match Teff_n with
  | None => 2
  | Some t =>
      if Rleb t 3500 then 0
      else if Rleb t 4500 then 1
      else if Rleb t 5500 then 2
      else if Rleb t 7000 then 3
      else if Rleb t 9000 then 4
      else 5
  end%nat.


(** [star_bg.smear(x0, y0, rolldeg, shape, limflux)]: the image of all
    stars, the target included, summed over its rows ([np.sum(im, axis=0)]). *)
Definition smear (self : star_bg.t) (x0 y0 rolldeg : R) (shape : Z * Z)
           (limflux : R) : result (list R) :=
  im <- star_bg.image self x0 y0 rolldeg shape [] limflux None ;;
  Ok (map (fun c =>
             Rsum (map (fun r => pix im r c)
                       (map Z.of_nat (seq 0 (Z.to_nat (fst shape))))))
          (map Z.of_nat (seq 0 (Z.to_nat (snd shape))))).


(** A PSF model with the value 1 at every sample, and the catalogue of
    three stars with flux scales 1.0, 0.05 and 1e-6 drawn with it. *)
Definition unit_psf : psf_model := mk_psf_model (fun _ _ _ _ => fun _ _ => 1) 1.

Definition three_star_sky : star_bg.t :=
  star_bg.mk 1.01 [unit_psf] [0; 0; 0]%nat [0; 30; -20] [0; 40; 10]
             [1.0; 0.05; 1e-6] [5500; 4000; 6000] [1; 2; 3] 3.

(** What one pass of the loop body of [image] adds to pixel [(r, c)] for
    star [n] (lines 163-179): nothing when [find_area_inds] finds no
    overlap or the pixel is outside the index ranges it returns; inside
    them, [fscale[n]] times the PSF of the star evaluated on
    [ddx = xcoo[i0:i1] - dx[n]], [ddy = ycoo[j0:j1] - dy[n]], set to zero
    where [xmat**2 + ymat**2 > psf_rad**2]. *)
Definition star_term (self : star_bg.t) (x0 y0 : R) (shp : Z * Z)
           (dx dy : list R) (n : nat) (r c : Z) : R :=
  let fscale_n := nth n (star_bg.fscale self) 0 in
  let psf_rad := psf_radii fscale_n in
  let dx_n := nth n dx 0 in
  let dy_n := nth n dy 0 in
  match find_area_inds (x0 + dx_n) (y0 + dy_n) shp psf_rad with
  | None => 0
  | Some (i0, i1, j0, j1) =>
      if in_slice j0 j1 r && in_slice i0 i1 c then
        let ddx := vec_sub (slice (vec_sub (arange (snd shp)) x0) i0 i1) dx_n in
        let ddy := vec_sub (slice (vec_sub (arange (fst shp)) y0) j0 j1) dy_n in
        let psf_fun :=
          nth (nth n (star_bg.psf_ids self) 0%nat) (star_bg.psfs self) flat_psf in
        if Rltb (IZR psf_rad ^ 2)
                ((IZR c - x0 - dx_n) ^ 2 + (IZR r - y0 - dy_n) ^ 2)
        then 0
        else fscale_n * psf_call psf_fun ddx ddy true true (r - j0)%Z (c - i0)%Z
      else 0
  end.


(** A working catalogue of two unblurred, not yet refined stars, and a
    fitting routine that succeeds for a star left of column 20, with an
    image equal to 3 everywhere and the all-ones kernel, and fails for any
    other star. *)
Definition two_star_cat : WorkCat.t :=
  WorkCat.init [10; 30] [12; 20] [0.05; 0.02] [[0]; [0]] [[0]; [0]].

Definition fit_near_only :
  list MultiPSF.t -> Frame -> Frame -> (Z -> Z -> bool) ->
  R -> R -> Z -> Z -> R -> Z -> Z -> result fit_result :=
  fun _ fit_frame _ _ xc _ _ _ _ _ _ =>
    if Rltb xc 20
    then Ok (mkFrame (shape fit_frame) (fun _ _ => 3), 0, (fun _ _ => 1), 1, [])
    else Raise FitError.

(* ================================================================= *)
(** * Part II: properties *)
(* ================================================================= *)

(** ** Floors and ceilings *)

Lemma Rceil_bounds (x : R) : IZR (Rceil x) - 1 < x <= IZR (Rceil x).
Proof.
  unfold Rceil. rewrite opp_IZR.
  destruct (base_Int_part (- x)) as [H1 H2]. lra.
Qed.

Lemma Rceil_unique (x : R) (z : Z) : IZR z - 1 < x <= IZR z -> Rceil x = z.
Proof.
  intros [H1 H2]. unfold Rceil.
  rewrite <- (Int_part_spec (- x) (- z)); [lia|].
  rewrite opp_IZR. lra.
Qed.

Lemma Rceil_IZR (z : Z) : Rceil (IZR z) = z.
Proof. apply Rceil_unique. lra. Qed.

Lemma Rceil_le_IZR (x : R) (z : Z) : x <= IZR z -> (Rceil x <= z)%Z.
Proof.
  intros H. destruct (Rceil_bounds x) as [H1 _].
  apply Z.lt_succ_r. apply lt_IZR. rewrite succ_IZR. lra.
Qed.

Lemma Rceil_mono (x y : R) : x <= y -> (Rceil x <= Rceil y)%Z.
Proof.
  intros H. apply Rceil_le_IZR. destruct (Rceil_bounds y). lra.
Qed.

Lemma IZR_le_Rceil (x : R) (z : Z) : IZR z <= x -> (z <= Rceil x)%Z.
Proof.
  intros H. apply le_IZR. destruct (Rceil_bounds x). lra.
Qed.

Lemma IZR_lt_Rceil (x : R) (z : Z) : IZR z < x -> (z < Rceil x)%Z.
Proof.
  intros H. apply lt_IZR. destruct (Rceil_bounds x). lra.
Qed.

(** ** Windowing: [find_inds] *)

Lemma find_inds_inside (x_len x radius : Z) :
  (0 < x_len)%Z -> (0 < radius)%Z ->
  (0 <= x - radius)%Z -> (x + radius < x_len)%Z ->
  find_inds x_len x radius = ((x - radius)%Z, (x + radius + 1)%Z, 0%Z, (2 * radius + 1)%Z).
Proof.
  intros Hl Hr H0 H1. unfold find_inds.
  replace ((x <? - radius)%Z) with false by lia.
  replace ((x >? x_len + radius)%Z) with false by lia.
  replace ((x + radius <? x_len)%Z) with true by lia.
  simpl. destruct (x >? radius)%Z eqn:E; [reflexivity|].
  repeat f_equal; lia.
Qed.

Lemma find_inds_left_of_frame (x_len x radius : Z) :
  (x + radius < 0)%Z -> find_inds x_len x radius = (0, 0, 0, 0)%Z.
Proof.
  intros H. unfold find_inds.
  replace ((x <? - radius)%Z) with true by lia. reflexivity.
Qed.

Lemma find_inds_beyond_frame (x_len x radius : Z) :
  (x_len < x - radius)%Z -> find_inds x_len x radius = (0, 0, 0, 0)%Z.
Proof.
  intros H. unfold find_inds.
  replace ((x >? x_len + radius)%Z) with true by lia.
  rewrite orb_true_r. reflexivity.
Qed.

(** At [x = x_len + radius] the window starts one past the last pixel, yet
    the guard [x > x_len + radius] does not fire. *)
Lemma find_inds_at_upper_edge (x_len radius : Z) :
  (0 < x_len)%Z -> (0 < radius)%Z ->
  find_inds x_len (x_len + radius) radius = (x_len, x_len, 0, 0)%Z.
Proof.
  intros Hl Hr. unfold find_inds.
  replace ((x_len + radius <? - radius)%Z) with false by lia.
  replace ((x_len + radius >? x_len + radius)%Z) with false by lia.
  replace ((x_len + radius >? radius)%Z) with true by lia.
  replace ((x_len + radius + radius <? x_len)%Z) with false by lia.
  simpl. repeat f_equal; lia.
Qed.

(** The four indices always describe two in-range slices of equal length,
    which is what makes [frame[i0:i1] += window[j0:j1]] well formed. *)
Lemma find_inds_slices (x_len x radius : Z) :
  (0 <= x_len)%Z -> (0 <= radius)%Z ->
  let '(i0, i1, j0, j1) := find_inds x_len x radius in
  (0 <= i0 <= i1)%Z /\ (i1 <= x_len)%Z /\
  (0 <= j0 <= j1)%Z /\ (j1 <= 2 * radius + 1)%Z /\
  (i1 - i0 = j1 - j0)%Z.
Proof.
  intros Hl Hr. unfold find_inds.
  destruct (x <? - radius)%Z eqn:E1; cbn [orb]; [lia|].
  destruct (x >? x_len + radius)%Z eqn:E2; [lia|].
  destruct (x >? radius)%Z eqn:E3; destruct (x + radius <? x_len)%Z eqn:E4;
    cbv beta iota; lia.
Qed.

(** A window inside the frame, windows cut by either border, and a window
    left of the frame. *)
Example find_inds_ex_inside : find_inds 10 5 2 = (3, 8, 0, 5)%Z.
Proof. reflexivity. Qed.

Example find_inds_ex_left_cut : find_inds 10 0 3 = (0, 4, 3, 7)%Z.
Proof. reflexivity. Qed.

Example find_inds_ex_right_cut : find_inds 10 9 3 = (6, 10, 0, 4)%Z.
Proof. reflexivity. Qed.

Example find_inds_ex_outside : find_inds 10 (-6) 5 = (0, 0, 0, 0)%Z.
Proof. reflexivity. Qed.

(** C3 -- [find_inds] at the upper edge: for [axis_len = 10], [x = 15],
    [radius = 5] the window [10, 20] lies entirely outside [0, 10), and the
    function returns [(10, 10, 0, 0)] instead of the all-zero tuple its
    docstring promises for a window without overlap. *)
Theorem find_inds_no_overlap_nonzero :
  (10 <= 15 - 5)%Z /\
  find_inds 10 15 5 = (10, 10, 0, 0)%Z /\
  find_inds 10 15 5 <> (0, 0, 0, 0)%Z.
Proof.
  split; [lia|]. split; [reflexivity|]. discriminate.
Qed.

(** ** Adaptive radius: [psf_radii] *)

Lemma Rceil_clamp (r : R) (lo hi : Z) :
  (lo <= hi)%Z ->
  Rceil (Rmin (Rmax r (IZR lo)) (IZR hi)) = clamp (Rceil r) lo hi.
Proof.
  intros Hlh. unfold clamp.
  assert (Hlh' : IZR lo <= IZR hi) by (apply IZR_le; exact Hlh).
  destruct (Rle_dec r (IZR lo)) as [Hlo | Hlo].
  - rewrite Rmax_right by exact Hlo.
    rewrite Rmin_left by exact Hlh'.
    rewrite Rceil_IZR.
    pose proof (Rceil_le_IZR r lo Hlo). lia.
  - apply Rnot_le_lt in Hlo.
    rewrite Rmax_left by lra.
    pose proof (IZR_lt_Rceil r lo Hlo) as Hc.
    destruct (Rle_dec r (IZR hi)) as [Hhi | Hhi].
    + rewrite Rmin_left by exact Hhi.
      pose proof (Rceil_le_IZR r hi Hhi). lia.
    + apply Rnot_le_lt in Hhi.
      rewrite Rmin_right by lra.
      rewrite Rceil_IZR.
      pose proof (IZR_lt_Rceil r hi Hhi). lia.
Qed.

Lemma psf_radii_refines (f : R) : psf_radii f = radius_spec f.
Proof. unfold psf_radii, radius_spec. apply (Rceil_clamp _ 25 100). lia. Qed.

Lemma psf_radii_range (f : R) : (25 <= psf_radii f <= 100)%Z.
Proof. rewrite psf_radii_refines. unfold radius_spec, clamp. lia. Qed.

Lemma psf_radii_mono (f1 f2 : R) : f1 <= f2 -> (psf_radii f1 <= psf_radii f2)%Z.
Proof.
  intros H. unfold psf_radii. apply Rceil_mono.
  apply Rle_min_compat_r. apply Rle_max_compat_r. lra.
Qed.

(** C6 -- the adaptive radius computed by [psf_radii] is the clamp to
    [25, 100] of the ceiling of [25 + 75 (f - 1e-4) / (1e-1 - 1e-4)]; it
    always lies in [25, 100] and is monotonic non-decreasing in the flux
    scale. *)
Theorem psf_radii_spec :
  (forall f, psf_radii f = radius_spec f) /\
  (forall f, (25 <= psf_radii f <= 100)%Z) /\
  (forall f1 f2, f1 <= f2 -> (psf_radii f1 <= psf_radii f2)%Z).
Proof.
  split; [exact psf_radii_refines|].
  split; [exact psf_radii_range | exact psf_radii_mono].
Qed.

Lemma psf_radii_spec_witness :
  1e-3 <= 2e-2 /\ (psf_radii 1e-3 <= psf_radii 2e-2)%Z.
Proof.
  split; [lra|].
  apply (proj2 (proj2 psf_radii_spec)). lra.
Defined.

(** The end-to-end value quoted for a star of flux scale 0.02. *)
Example psf_radii_0_02 : psf_radii 0.02 = 40%Z.
Proof.
  unfold psf_radii.
  rewrite Rmax_left by lra. rewrite Rmin_left by lra.
  apply Rceil_unique. lra.
Qed.

(** ** Geometry: rotation and its inverse *)

Lemma deg2rad_opp (d : R) : deg2rad (- d) = - deg2rad d.
Proof. unfold deg2rad. ring. Qed.

Lemma sin_cos_one (a : R) : sin a * sin a + cos a * cos a = 1.
Proof. pose proof (sin2_cos2 a) as H. unfold Rsqr in H. exact H. Qed.

Lemma derotate_rotate_scalar (x y rolldeg : R) :
  derotate_position (fst (rotate_position x y rolldeg))
                    (snd (rotate_position x y rolldeg)) rolldeg = (x, y).
Proof.
  unfold derotate_position, rotate_position. cbn [fst snd].
  rewrite deg2rad_opp, cos_neg, sin_neg.
  set (a := deg2rad rolldeg). pose proof (sin_cos_one a) as H.
  f_equal.
  - replace ((x * cos a + y * sin a) * cos a + (- x * sin a + y * cos a) * - sin a)
      with (x * (sin a * sin a + cos a * cos a)) by ring.
    rewrite H. ring.
  - replace (- (x * cos a + y * sin a) * - sin a + (- x * sin a + y * cos a) * cos a)
      with (y * (sin a * sin a + cos a * cos a)) by ring.
    rewrite H. ring.
Qed.

Lemma derotate_rotate_arr (x y : list R) (rolldeg : R) :
  length x = length y ->
  derotate_position_arr (fst (rotate_position_arr x y rolldeg))
                        (snd (rotate_position_arr x y rolldeg)) rolldeg = (x, y).
Proof.
  unfold derotate_position_arr, rotate_position_arr. cbn [fst snd].
  rewrite deg2rad_opp, cos_neg, sin_neg.
  set (a := deg2rad rolldeg). pose proof (sin_cos_one a) as H.
  revert y. induction x as [|x0 x IH]; intros [|y0 y] Hlen; try discriminate.
  - reflexivity.
  - injection Hlen as Hlen. specialize (IH y Hlen).
    cbn [combine map]. injection IH as IHx IHy.
    f_equal; f_equal; try assumption.
    + replace ((x0 * cos a + y0 * sin a) * cos a + (- x0 * sin a + y0 * cos a) * - sin a)
        with (x0 * (sin a * sin a + cos a * cos a)) by ring.
      rewrite H. ring.
    + replace (- (x0 * cos a + y0 * sin a) * - sin a + (- x0 * sin a + y0 * cos a) * cos a)
        with (y0 * (sin a * sin a + cos a * cos a)) by ring.
      rewrite H. ring.
Qed.

(** C7 -- de-rotating a rotated position by the same roll angle gives the
    position back, exactly in real arithmetic, both for scalar coordinates
    and for coordinate arrays of any (common) length; [derotate_position]
    is rotation by the negated angle. *)
Theorem derotate_rotate_identity :
  (forall xroll yroll rolldegs,
      derotate_position xroll yroll rolldegs
      = rotate_position xroll yroll (- rolldegs)) /\
  (forall x y rolldeg,
      derotate_position (fst (rotate_position x y rolldeg))
                        (snd (rotate_position x y rolldeg)) rolldeg = (x, y)) /\
  (forall x y rolldeg,
      length x = length y ->
      derotate_position_arr (fst (rotate_position_arr x y rolldeg))
                            (snd (rotate_position_arr x y rolldeg)) rolldeg
      = (x, y)).
Proof.
  split; [reflexivity|].
  split; [exact derotate_rotate_scalar | exact derotate_rotate_arr].
Qed.

Lemma derotate_rotate_identity_witness :
  length [1; 2; 3] = length [4; 5; 6] /\
  derotate_position_arr (fst (rotate_position_arr [1; 2; 3] [4; 5; 6] 30))
                        (snd (rotate_position_arr [1; 2; 3] [4; 5; 6] 30)) 30
  = ([1; 2; 3], [4; 5; 6]).
Proof.
  split; [reflexivity|].
  apply (proj2 (proj2 derotate_rotate_identity)). reflexivity.
Defined.

(** ** MultiPSF: the mean over the blur offsets *)

Lemma getitem_nth {A : Type} (l : list A) (n : nat) (d : A) :
  (n < length l)%nat -> getitem l n = Ok (nth n l d).
Proof.
  intros H. unfold getitem.
  rewrite (nth_error_nth' l d H). reflexivity.
Qed.

Lemma Rsum_nil : Rsum [] = 0.
Proof. reflexivity. Qed.

Lemma Rsum_cons (a : R) (l : list R) : Rsum (a :: l) = a + Rsum l.
Proof. reflexivity. Qed.

(** Reading two equally long arrays index by index is reading their zip. *)
Lemma map_nth_combine {B : Type} (F : R -> R -> B) (xs ys : list R) :
  length xs = length ys ->
  map (fun i => F (nth i xs 0) (nth i ys 0)) (seq 0 (length xs))
  = map (fun '(a, b) => F a b) (combine xs ys).
Proof.
  revert ys. induction xs as [|a xs IH]; intros [|b ys] Hlen; try discriminate.
  - reflexivity.
  - injection Hlen as Hlen. cbn [length seq map combine nth]. f_equal.
    rewrite <- seq_shift, map_map. cbn [nth]. apply IH. exact Hlen.
Qed.

Section MultiPSF_mean.

Variables (pm : psf_model) (dxs dys x y : list R) (grid circular : bool).

(** The image of the wrapped model shifted by the [i]-th offset. *)
Let shifted (i : nat) : array2 :=
  psf_call pm (vec_sub x (nth i dxs 0)) (vec_sub y (nth i dys 0)) grid circular.

Lemma MultiPSF_loop (m k : nat) (ret : array2) :
  (k + m <= length dxs)%nat -> (k + m <= length dys)%nat ->
  exists ret',
    for_each
      (fun ret n =>
         dxn <- getitem dxs n ;;
         dyn <- getitem dys n ;;
         Ok (arr_add ret
               (psf_call pm (vec_sub x dxn) (vec_sub y dyn) grid circular)))
      (seq k m) ret = Ok ret' /\
    forall r c,
      ret' r c = ret r c + Rsum (map (fun i => shifted i r c) (seq k m)).
Proof.
  revert k ret. induction m as [|m IH]; intros k ret Hx Hy.
  - exists ret. split; [reflexivity|]. intros r c.
    cbn [seq map]. rewrite Rsum_nil. lra.
  - cbn [seq for_each].
    rewrite (getitem_nth dxs k 0) by lia.
    rewrite (getitem_nth dys k 0) by lia.
    cbn [bind].
    destruct (IH (S k) (arr_add ret (shifted k))) as (ret' & Hrun & Hval);
      [lia | lia |].
    exists ret'. split; [exact Hrun|].
    intros r c. rewrite Hval. unfold arr_add.
    cbn [map]. rewrite Rsum_cons. lra.
Qed.

Lemma MultiPSF_call_mean :
  (1 <= length dxs)%nat -> length dxs = length dys ->
  exists img,
    MultiPSF.call (MultiPSF.init pm dxs dys) x y grid circular = Ok img /\
    forall r c,
      img r c
      = Rsum (map (fun '(dx, dy) =>
                     psf_call pm (vec_sub x dx) (vec_sub y dy) grid circular r c)
                  (combine dxs dys))
        / INR (length dxs).
Proof.
  intros HN Hlen. unfold MultiPSF.call, MultiPSF.init. cbn [MultiPSF.dxs MultiPSF.dys MultiPSF.psf_mod].
  rewrite (getitem_nth dxs 0 0) by lia.
  rewrite (getitem_nth dys 0 0) by lia.
  cbn [bind]. unfold range.
  destruct (MultiPSF_loop (length dxs - 1) 1 (shifted 0)) as (ret' & Hrun & Hval);
    [lia | lia |].
  fold (shifted 0). rewrite Hrun. cbn [bind].
  eexists. split; [reflexivity|].
  intros r c. unfold arr_div. f_equal. rewrite Hval.
  rewrite <- (map_nth_combine
                (fun dx dy => psf_call pm (vec_sub x dx) (vec_sub y dy) grid circular r c)
                dxs dys Hlen).
  destruct (length dxs) as [|n] eqn:E; [lia|].
  replace (S n - 1)%nat with n by lia.
  cbn [seq map]. rewrite Rsum_cons. reflexivity.
Qed.

End MultiPSF_mean.

Lemma vec_sub_0 (v : list R) : vec_sub v 0 = v.
Proof.
  unfold vec_sub. rewrite <- (map_id v) at 2.
  apply map_ext. intros a. lra.
Qed.

Lemma MultiPSF_call_single (pm : psf_model) (x y : list R) (grid circular : bool) :
  exists img,
    MultiPSF.call (MultiPSF.init pm [0] [0]) x y grid circular = Ok img /\
    forall r c, img r c = psf_call pm x y grid circular r c.
Proof.
  eexists. split; [reflexivity|].
  intros r c. unfold arr_div. cbn. rewrite !vec_sub_0. lra.
Qed.

(** C5 -- a MultiPSF with N >= 1 offset samples evaluates to the arithmetic
    mean of the wrapped model at the N shifted coordinate vectors, with the
    same [grid] and [circular] flags; with the single offset (0, 0) it is
    the wrapped model itself at every sample point. *)
Theorem MultiPSF_is_mean :
  (forall pm dxs dys x y grid circular,
      (1 <= length dxs)%nat -> length dxs = length dys ->
      exists img,
        MultiPSF.call (MultiPSF.init pm dxs dys) x y grid circular = Ok img /\
        forall r c,
          img r c
          = Rsum (map (fun '(dx, dy) =>
                         psf_call pm (vec_sub x dx) (vec_sub y dy) grid circular r c)
                      (combine dxs dys))
            / INR (length dxs)) /\
  (forall pm x y grid circular,
      exists img,
        MultiPSF.call (MultiPSF.init pm [0] [0]) x y grid circular = Ok img /\
        forall r c, img r c = psf_call pm x y grid circular r c).
Proof.
  split; [exact MultiPSF_call_mean | exact MultiPSF_call_single].
Qed.

Lemma MultiPSF_is_mean_witness :
  (1 <= length example_dxs)%nat /\
  length example_dxs = length example_dys /\
  exists img,
    MultiPSF.call (MultiPSF.init flat_psf example_dxs example_dys)
                  example_grid example_grid true true = Ok img /\
    forall r c,
      img r c
      = Rsum (map (fun '(dx, dy) =>
                     psf_call flat_psf (vec_sub example_grid dx)
                              (vec_sub example_grid dy) true true r c)
                  (combine example_dxs example_dys))
        / INR (length example_dxs).
Proof.
  assert (H1 : (1 <= length example_dxs)%nat) by (cbn; lia).
  assert (H2 : length example_dxs = length example_dys) by reflexivity.
  split; [exact H1|]. split; [exact H2|].
  exact (proj1 MultiPSF_is_mean flat_psf example_dxs example_dys
               example_grid example_grid true true H1 H2).
Defined.

(** ** Catalogue ingestion: [read_starcat] *)

Lemma has_column_false (cat : fits_table) (name : string) :
  has_column cat name = false -> column cat name = Raise (KeyError name).
Proof.
  unfold has_column, names, column.
  induction (columns cat) as [|[n v] l IH]; cbn [map existsb find fst]; intros H.
  - reflexivity.
  - apply orb_false_elim in H as [H1 H2]. rewrite H1. apply IH. exact H2.
Qed.

Lemma mask_select_map {A : Type} (p : A -> bool) (v : list A) :
  mask_select (map p v) v = filter p v.
Proof.
  unfold mask_select. induction v as [|a v IH]; [reflexivity|].
  cbn [map combine filter fst]. destruct (p a); cbn [map snd]; rewrite IH; reflexivity.
Qed.

Lemma Rltb_true (a b : R) : Rltb a b = true <-> a < b.
Proof. unfold Rltb. destruct (Rlt_dec a b); split; intros; (assumption || discriminate || reflexivity || contradiction). Qed.

Lemma filter_Rltb_Forall (lo : R) (v : list R) :
  Forall (fun f => lo < f) (filter (fun f => Rltb lo f) v).
Proof.
  apply Forall_forall. intros f Hin.
  apply filter_In in Hin as [_ H]. apply Rltb_true. exact H.
Qed.

Lemma read_starcat_no_magnitude (pxl_scl : R) (cat : fits_table)
      (maxrad : option R) (fscalemin : R) :
  mag_column cat = None ->
  (exists e, star_bg.read_starcat pxl_scl cat maxrad fscalemin = Raise e) /\
  (forall N, kept_rows cat maxrad N ->
     star_bg.read_starcat pxl_scl cat maxrad fscalemin
     = Raise (Exception "[read_starcat] Error: magnitude column not defined")).
Proof.
  unfold mag_column. intros H.
  destruct (has_column cat "MAG_CHEOPS") eqn:E1; [discriminate|].
  destruct (has_column cat "MAG_GAIA") eqn:E2; [discriminate|].
  unfold star_bg.read_starcat. rewrite E1, E2. split.
  - destruct maxrad as [m|]; cbn [bind].
    + destruct (column cat "distance"); cbn [bind]; eexists; reflexivity.
    + eexists; reflexivity.
  - intros N HN. destruct maxrad as [m|]; cbn [bind]; [|reflexivity].
    destruct HN as (d & Hd & _). rewrite Hd. reflexivity.
Qed.

Lemma read_starcat_flux (pxl_scl : R) (cat : fits_table) (maxrad : option R)
      (fscalemin : R) (name : string) (N : nat)
      (mag RA DEC T_EFF ID : list R) (mag0 RA0 DEC0 : R) :
  mag_column cat = Some name ->
  kept_rows cat maxrad N ->
  column cat name = Ok mag -> getitem mag 0 = Ok mag0 ->
  column cat "RA" = Ok RA -> getitem RA 0 = Ok RA0 ->
  column cat "DEC" = Ok DEC -> getitem DEC 0 = Ok DEC0 ->
  column cat "T_EFF" = Ok T_EFF -> column cat "ID" = Ok ID ->
  exists dx dy fscale Teff gaiaID,
    star_bg.read_starcat pxl_scl cat maxrad fscalemin
    = Ok (dx, dy, fscale, Teff, gaiaID) /\
    fscale = filter (fun f => Rltb fscalemin f)
                    (map (fun m => Rpower 10 (- 0.4 * (m - mag0))) (firstn N mag)) /\
    Forall (fun f => fscalemin < f) fscale.
Proof.
  intros Hname HN Hmag Hmag0 HRA HRA0 HDEC HDEC0 HT HID.
  assert (HNrun : match maxrad with
                  | None => Ok (nrows cat)
                  | Some maxrad =>
                      distance <- column cat "distance" ;;
                      Ok (searchsorted distance maxrad)
                  end = Ok N).
  { destruct maxrad as [m|]; cbn in HN.
    - destruct HN as (d & Hd & ->). rewrite Hd. reflexivity.
    - rewrite HN. reflexivity. }
  unfold star_bg.read_starcat. rewrite HNrun. cbn [bind].
  unfold mag_column in Hname.
  destruct (has_column cat "MAG_CHEOPS") eqn:E1;
    [| destruct (has_column cat "MAG_GAIA") eqn:E2; [|discriminate]];
    injection Hname as <-;
    rewrite Hmag; cbn [bind]; rewrite Hmag0; cbn [bind];
    rewrite HRA; cbn [bind]; rewrite HRA0; cbn [bind];
    rewrite HDEC; cbn [bind]; rewrite HDEC0; cbn [bind];
    rewrite HT; cbn [bind]; rewrite HID; cbn [bind];
    do 5 eexists; (split; [reflexivity|]);
    rewrite mask_select_map; (split; [reflexivity | apply filter_Rltb_Forall]).
Qed.

(** C9 -- [read_starcat] raises, and so returns no partial result, when
    neither MAG_CHEOPS nor MAG_GAIA is a column of the catalogue table;
    when one of them is (MAG_CHEOPS first), and the other columns it reads
    are there, it returns the flux scales 10^(-0.4 (mag - mag[0])) of the
    kept rows relative to the first row, filtered to those strictly above
    [fscalemin]. *)
Theorem read_starcat_spec :
  (forall pxl_scl cat maxrad fscalemin,
      has_column cat "MAG_CHEOPS" = false ->
      has_column cat "MAG_GAIA" = false ->
      (exists e, star_bg.read_starcat pxl_scl cat maxrad fscalemin = Raise e) /\
      (forall N, kept_rows cat maxrad N ->
         star_bg.read_starcat pxl_scl cat maxrad fscalemin
         = Raise (Exception "[read_starcat] Error: magnitude column not defined"))) /\
  (forall pxl_scl cat maxrad fscalemin name N mag RA DEC T_EFF ID mag0 RA0 DEC0,
      mag_column cat = Some name ->
      kept_rows cat maxrad N ->
      column cat name = Ok mag -> getitem mag 0 = Ok mag0 ->
      column cat "RA" = Ok RA -> getitem RA 0 = Ok RA0 ->
      column cat "DEC" = Ok DEC -> getitem DEC 0 = Ok DEC0 ->
      column cat "T_EFF" = Ok T_EFF -> column cat "ID" = Ok ID ->
      exists dx dy fscale Teff gaiaID,
        star_bg.read_starcat pxl_scl cat maxrad fscalemin
        = Ok (dx, dy, fscale, Teff, gaiaID) /\
        fscale = filter (fun f => Rltb fscalemin f)
                        (map (fun m => Rpower 10 (- 0.4 * (m - mag0)))
                             (firstn N mag)) /\
        Forall (fun f => fscalemin < f) fscale).
Proof.
  split.
  - intros pxl_scl cat maxrad fscalemin H1 H2.
    apply read_starcat_no_magnitude. unfold mag_column. rewrite H1, H2. reflexivity.
  - intros. eapply read_starcat_flux; eassumption.
Qed.

Lemma read_starcat_spec_witness :
  exists dx dy fscale Teff gaiaID,
    star_bg.read_starcat 1.01 example_table None 1e-5
    = Ok (dx, dy, fscale, Teff, gaiaID) /\
    fscale = filter (fun f => Rltb 1e-5 f)
                    (map (fun m => Rpower 10 (- 0.4 * (m - 9))) (firstn 2 [9; 12])) /\
    Forall (fun f => 1e-5 < f) fscale.
Proof.
  apply (proj2 read_starcat_spec 1.01 example_table None 1e-5
               "MAG_GAIA"%string 2%nat [9; 12] [10; 10.01] [20; 20.01]
               [5500; 4000] [1; 2] 9 10 20); reflexivity.
Defined.

(** ** WorkingCatalog construction: [image_cat] *)

Lemma nth_map_lt {A B : Type} (f : A -> B) (l : list A) (n : nat) (d : B) (d' : A) :
  (n < length l)%nat -> nth n (map f l) d = f (nth n l d').
Proof.
  intros H. rewrite (nth_indep (map f l) d (f d')) by (rewrite length_map; exact H).
  apply map_nth.
Qed.

Lemma rotate_position_arr_length (x y : list R) (rolldeg : R) :
  length (fst (rotate_position_arr x y rolldeg))
  = length (snd (rotate_position_arr x y rolldeg)).
Proof. unfold rotate_position_arr. cbn [fst snd]. rewrite !length_map. reflexivity. Qed.

Lemma rotate_cat_length (sb : star_bg.t) (rolldeg : R) (maxrad : option R) :
  length (fst (star_bg.rotate_cat sb rolldeg maxrad))
  = length (snd (star_bg.rotate_cat sb rolldeg maxrad)).
Proof.
  unfold star_bg.rotate_cat. destruct maxrad; apply rotate_position_arr_length.
Qed.

Lemma int_of_float_nonneg (x : R) : 0 <= x -> int_of_float x = Int_part x.
Proof. intros H. unfold int_of_float. destruct (Rle_dec 0 x); [reflexivity | contradiction]. Qed.

Lemma Int_part_nonneg (x : R) : 0 <= x -> (0 <= Int_part x)%Z.
Proof.
  intros H. destruct (base_Int_part x) as [H1 H2].
  assert (Hlt : IZR (-1) < IZR (Int_part x)) by lra.
  apply lt_IZR in Hlt. lia.
Qed.

Lemma int_of_float_le_m1 (x : R) : x <= -1 -> (int_of_float x <= -1)%Z.
Proof.
  intros H. unfold int_of_float. destruct (Rle_dec 0 x) as [H0|H0]; [lra|].
  destruct (base_Int_part (- x)) as [H1 H2].
  assert (Hlt : IZR 0 < IZR (Int_part (- x))) by lra.
  apply lt_IZR in Hlt. lia.
Qed.

Lemma num_res_nth (blurdeg resolution : R) (x y : list R) (n : nat) :
  length x = length y -> (n < length x)%nat ->
  nth n (star_bg.num_res blurdeg resolution x y) 0
  = 0.5 * deg2rad blurdeg * sqrt (nth n x 0 ^ 2 + nth n y 0 ^ 2) / resolution.
Proof.
  intros Hlen Hn. unfold star_bg.num_res.
  rewrite (nth_map_lt _ _ n 0 0) by (rewrite length_map, length_combine; lia).
  rewrite (nth_map_lt _ _ n 0 (0, 0)) by (rewrite length_combine; lia).
  rewrite combine_nth by exact Hlen. reflexivity.
Qed.

Lemma linspace_length (a b : R) (n : nat) : length (linspace a b n) = n.
Proof. unfold linspace. rewrite length_map, length_seq. reflexivity. Qed.

Lemma linspace_nth (a b : R) (n i : nat) :
  (i < n)%nat ->
  nth i (linspace a b n) 0 = a + INR i * ((b - a) / INR (n - 1)).
Proof.
  intros H. unfold linspace.
  rewrite (nth_map_lt _ _ i 0 0%nat) by (rewrite length_seq; exact H).
  rewrite seq_nth by exact H. reflexivity.
Qed.

Lemma sub_angle_first (blurdeg : R) (N : nat) : sub_angle blurdeg N 0 = - (blurdeg / 2).
Proof. unfold sub_angle. cbn [INR]. lra. Qed.

Lemma sub_angle_last (blurdeg : R) (N : nat) :
  (2 <= N)%nat -> sub_angle blurdeg N (N - 1) = blurdeg / 2.
Proof.
  intros H. unfold sub_angle.
  assert (HN : INR (N - 1) <> 0) by (apply not_0_INR; lia).
  set (k := INR (N - 1)) in *.
  replace (-1 + k * ((1 - -1) / k)) with 1 by (field; exact HN). lra.
Qed.

Section blur_offsets_facts.

Variables (blurdeg xn yn nr : R).
Let N : Z := (2 * int_of_float nr + 1)%Z.

Lemma blur_offsets_collapsed :
  (N <= 2)%Z -> star_bg.blur_offsets blurdeg xn yn nr = ([0], [0]).
Proof.
  intros H. unfold star_bg.blur_offsets. fold N.
  replace (N >? 2)%Z with false by lia. reflexivity.
Qed.

Lemma blur_offsets_sampled :
  (2 < N)%Z ->
  let offs := star_bg.blur_offsets blurdeg xn yn nr in
  length (fst offs) = Z.to_nat N /\
  length (snd offs) = Z.to_nat N /\
  forall i, (i < Z.to_nat N)%nat ->
    nth i (fst offs) 0
    = fst (rotate_position xn yn (sub_angle blurdeg (Z.to_nat N) i)) - xn /\
    nth i (snd offs) 0
    = snd (rotate_position xn yn (sub_angle blurdeg (Z.to_nat N) i)) - yn.
Proof.
  intros H. unfold star_bg.blur_offsets. fold N.
  replace (N >? 2)%Z with true by lia.
  unfold rotate_position_angles, vec_sub. cbn [fst snd].
  set (angles := map (fun a => 0.5 * blurdeg * a) (linspace (-1) 1 (Z.to_nat N))).
  assert (Hlen : length angles = Z.to_nat N)
    by (unfold angles; rewrite length_map, linspace_length; reflexivity).
  assert (Hcs : length (combine (map cos (map deg2rad angles))
                                (map sin (map deg2rad angles))) = Z.to_nat N)
    by (rewrite length_combine, !length_map, Hlen; lia).
  rewrite !length_map, Hcs.
  split; [reflexivity|]. split; [reflexivity|].
  intros i Hi.
  assert (Hang : nth i angles 0 = sub_angle blurdeg (Z.to_nat N) i).
  { unfold angles. rewrite (nth_map_lt _ _ i 0 0) by (rewrite linspace_length; exact Hi).
    rewrite linspace_nth by exact Hi. reflexivity. }
  rewrite !(nth_map_lt _ _ i 0 0) by (rewrite length_map, Hcs; exact Hi).
  rewrite !(nth_map_lt _ _ i 0 (0, 0)) by (rewrite Hcs; exact Hi).
  rewrite combine_nth by (rewrite !length_map; reflexivity).
  repeat (rewrite (nth_map_lt _ _ i 0 0)
            by (rewrite ?length_map, Hlen; exact Hi)).
  rewrite Hang. unfold rotate_position. cbn [fst snd]. split; reflexivity.
Qed.

End blur_offsets_facts.

Lemma image_cat_offsets (sb : star_bg.t) (x0 y0 rolldeg blurdeg : R)
      (maxrad : option R) (resolution : R) (n : nat) :
  let xy := star_bg.rotate_cat sb rolldeg maxrad in
  let wc := star_bg.image_cat sb x0 y0 rolldeg blurdeg maxrad resolution in
  (n < length (fst xy))%nat ->
  let xn := nth n (fst xy) 0 in
  let yn := nth n (snd xy) 0 in
  let nr := 0.5 * deg2rad blurdeg * sqrt (xn ^ 2 + yn ^ 2) / resolution in
  nth n (star_bg.num_res blurdeg resolution (fst xy) (snd xy)) 0 = nr /\
  nth n (WorkCat.dxs wc) [] = fst (star_bg.blur_offsets blurdeg xn yn nr) /\
  nth n (WorkCat.dys wc) [] = snd (star_bg.blur_offsets blurdeg xn yn nr).
Proof.
  intros xy wc Hn xn yn nr.
  pose proof (rotate_cat_length sb rolldeg maxrad) as Hlen. fold xy in Hlen.
  assert (Hnr : nth n (star_bg.num_res blurdeg resolution (fst xy) (snd xy)) 0 = nr)
    by (apply num_res_nth; assumption).
  split; [exact Hnr|].
  unfold wc, star_bg.image_cat. fold xy. destruct xy as [x y] eqn:Exy.
  cbn [fst snd] in *. unfold WorkCat.init. cbn [WorkCat.dxs WorkCat.dys].
  unfold range. rewrite Nat.sub_0_r, !map_map.
  rewrite !(nth_map_lt _ _ n [] 0%nat) by (rewrite length_seq; exact Hn).
  rewrite seq_nth by exact Hn. cbn [Nat.add]. rewrite Hnr.
  split; reflexivity.
Qed.

Lemma num_res_nonneg (blurdeg resolution r : R) :
  0 <= blurdeg -> 0 < resolution ->
  0 <= 0.5 * deg2rad blurdeg * sqrt r / resolution.
Proof.
  intros Hb Hr. unfold deg2rad.
  pose proof PI_RGT_0 as Hpi. pose proof (sqrt_pos r) as Hs.
  apply Rmult_le_pos; [|apply Rlt_le, Rinv_0_lt_compat; exact Hr].
  apply Rmult_le_pos; [|exact Hs].
  apply Rmult_le_pos; [lra|].
  apply Rmult_le_pos; [exact Hb|lra].
Qed.

(** C4 (as amended) -- for every star kept by [image_cat], the sample
    count is N = 2 int(num_res) + 1 with [int] truncating towards zero and
    num_res = 0.5 deg2rad(blurdeg) r / resolution; N is always odd; for a
    non-negative blur span and positive resolution it equals
    2 floor(num_res) + 1 and is at least 1; when N <= 2 the offsets are the
    single zero offset; otherwise there are exactly N offsets, the star's
    rotated position rotated further by N evenly spaced sub-angles from
    -blurdeg/2 to +blurdeg/2, minus the rotated position itself. *)
Theorem image_cat_blur_samples :
  forall (sb : star_bg.t) (x0 y0 rolldeg blurdeg : R) (maxrad : option R)
         (resolution : R) (n : nat),
    resolution <> 0 ->
    let xy := star_bg.rotate_cat sb rolldeg maxrad in
    let wc := star_bg.image_cat sb x0 y0 rolldeg blurdeg maxrad resolution in
    (n < length (fst xy))%nat ->
    let xn := nth n (fst xy) 0 in
    let yn := nth n (snd xy) 0 in
    let nr := nth n (star_bg.num_res blurdeg resolution (fst xy) (snd xy)) 0 in
    let N := (2 * int_of_float nr + 1)%Z in
    nr = 0.5 * deg2rad blurdeg * sqrt (xn ^ 2 + yn ^ 2) / resolution /\
    Z.odd N = true /\
    (0 <= blurdeg -> 0 < resolution ->
       N = (2 * Int_part nr + 1)%Z /\ (1 <= N)%Z) /\
    ((N <= 2)%Z ->
       nth n (WorkCat.dxs wc) [] = [0] /\ nth n (WorkCat.dys wc) [] = [0]) /\
    ((2 < N)%Z ->
       length (nth n (WorkCat.dxs wc) []) = Z.to_nat N /\
       length (nth n (WorkCat.dys wc) []) = Z.to_nat N /\
       sub_angle blurdeg (Z.to_nat N) 0 = - (blurdeg / 2) /\
       sub_angle blurdeg (Z.to_nat N) (Z.to_nat N - 1) = blurdeg / 2 /\
       forall i, (i < Z.to_nat N)%nat ->
         nth i (nth n (WorkCat.dxs wc) []) 0
         = fst (rotate_position xn yn (sub_angle blurdeg (Z.to_nat N) i)) - xn /\
         nth i (nth n (WorkCat.dys wc) []) 0
         = snd (rotate_position xn yn (sub_angle blurdeg (Z.to_nat N) i)) - yn).
Proof.
  intros sb x0 y0 rolldeg blurdeg maxrad resolution n Hres xy wc Hn xn yn nr N.
  destruct (image_cat_offsets sb x0 y0 rolldeg blurdeg maxrad resolution n Hn)
    as (Hnr & Hdx & Hdy).
  fold xy xn yn in Hnr, Hdx, Hdy. fold wc in Hdx, Hdy. fold nr in Hnr.
  rewrite <- Hnr in Hdx, Hdy.
  split; [exact Hnr|].
  split; [unfold N; rewrite Z.add_comm, Z.odd_add_mul_2; reflexivity|].
  split.
  { intros Hb Hr.
    assert (H0 : 0 <= nr) by (rewrite Hnr; apply num_res_nonneg; assumption).
    unfold N. rewrite (int_of_float_nonneg nr H0).
    split; [reflexivity|]. pose proof (Int_part_nonneg nr H0). lia. }
  split.
  { intros HN. rewrite Hdx, Hdy.
    rewrite (blur_offsets_collapsed blurdeg xn yn nr HN). split; reflexivity. }
  intros HN. rewrite Hdx, Hdy.
  destruct (blur_offsets_sampled blurdeg xn yn nr HN) as (L1 & L2 & Hi).
  split; [exact L1|]. split; [exact L2|].
  split; [apply sub_angle_first|].
  split; [apply sub_angle_last; fold N; lia|].
  exact Hi.
Qed.

Lemma image_cat_blur_samples_witness :
  0.2 <> 0 /\
  (1 < length (fst (star_bg.rotate_cat example_star_bg 0 None)))%nat /\
  Z.odd (2 * int_of_float
               (nth 1 (star_bg.num_res 1 0.2
                         (fst (star_bg.rotate_cat example_star_bg 0 None))
                         (snd (star_bg.rotate_cat example_star_bg 0 None))) 0)%R
         + 1) = true.
Proof.
  assert (H1 : 0.2 <> 0) by lra.
  assert (H2 : (1 < length (fst (star_bg.rotate_cat example_star_bg 0 None)))%nat)
    by (cbn; lia).
  split; [exact H1|]. split; [exact H2|].
  exact (proj1 (proj2 (image_cat_blur_samples example_star_bg 0 0 0 1 None 0.2 1
                                              H1 H2))).
Defined.

Lemma deg2rad_0 : deg2rad 0 = 0.
Proof. unfold deg2rad. lra. Qed.

(** The claim as worded fails for a negative blur span: a star one pixel
    from the target, roll angle 0, blur span -360 degrees and resolution
    0.2 give num_res = -5 pi, hence a sample count of -29, below 1 (and
    different from 2 floor(num_res) + 1 = -31). *)
Lemma image_cat_count_below_one :
  ~ (1 <= 2 * int_of_float
               (nth 0 (star_bg.num_res (-360) 0.2
                         (fst (star_bg.rotate_cat unit_star_bg 0 None))
                         (snd (star_bg.rotate_cat unit_star_bg 0 None))) 0)%R
          + 1)%Z.
Proof.
  rewrite num_res_nth by (cbn; lia).
  unfold star_bg.rotate_cat, unit_star_bg, rotate_position_arr.
  cbn [star_bg.xpos star_bg.ypos combine map fst snd nth].
  rewrite deg2rad_0, cos_0, sin_0.
  replace ((1 * 1 + 0 * 0) ^ 2 + (- (1) * 0 + 0 * 1) ^ 2) with 1 by ring.
  rewrite sqrt_1.
  assert (H : 0.5 * deg2rad (-360) * 1 / 0.2 <= -1).
  { unfold deg2rad. pose proof PI2_3_2. lra. }
  pose proof (int_of_float_le_m1 _ H). lia.
Qed.

(** ** Image rendering: which stars [image] draws *)

Lemma Rltb_false (a b : R) : Rltb a b = false <-> ~ a < b.
Proof.
  unfold Rltb. destruct (Rlt_dec a b); split; intros;
    (assumption || discriminate || reflexivity || contradiction).
Qed.

Lemma image_body_filter (self : star_bg.t) (x0 y0 : R) (shp : Z * Z)
      (skip : list nat) (limflux : R) (dx dy xcoo ycoo : list R) (l : list nat) :
  (forall n, In n l -> (n < length (star_bg.fscale self))%nat) ->
  forall ret_img,
    for_each (star_bg.image_body self x0 y0 shp skip limflux dx dy xcoo ycoo)
             l ret_img
    = for_each (star_bg.image_star self x0 y0 shp dx dy xcoo ycoo)
               (filter (is_drawn self skip limflux) l) ret_img.
Proof.
  induction l as [|n l IH]; intros Hl ret_img; [reflexivity|].
  assert (Hn : (n < length (star_bg.fscale self))%nat) by (apply Hl; left; reflexivity).
  assert (Hl' : forall m, In m l -> (m < length (star_bg.fscale self))%nat)
    by (intros m Hm; apply Hl; right; exact Hm).
  cbn [for_each filter]. unfold star_bg.image_body at 1, is_drawn at 1.
  destruct (existsb (Nat.eqb n) skip); cbn [negb andb bind].
  - apply IH. exact Hl'.
  - rewrite (getitem_nth _ n 0 Hn). cbn [bind].
    destruct (Rltb (nth n (star_bg.fscale self) 0) limflux); cbn [negb].
    + cbn [bind]. apply IH. exact Hl'.
    + cbn [for_each].
      destruct (star_bg.image_star self x0 y0 shp dx dy xcoo ycoo ret_img n);
        cbn [bind]; [apply IH; exact Hl' | reflexivity].
Qed.

Lemma image_draws_filtered (self : star_bg.t) (x0 y0 rolldeg : R) (shp : Z * Z)
      (skip : list nat) (limflux : R) :
  star_bg.catsize self = length (star_bg.fscale self) ->
  star_bg.image self x0 y0 rolldeg shp skip limflux None
  = for_each (star_bg.image_star self x0 y0 shp
                (fst (star_bg.rotate_cat self rolldeg None))
                (snd (star_bg.rotate_cat self rolldeg None))
                (vec_sub (arange (snd shp)) x0)
                (vec_sub (arange (fst shp)) y0))
             (filter (is_drawn self skip limflux)
                     (range 0 (star_bg.catsize self)))
             (np_zeros shp).
Proof.
  intros Hsize. unfold star_bg.image.
  destruct (star_bg.rotate_cat self rolldeg None) as [dx dy]. cbn [fst snd].
  apply image_body_filter.
  intros n Hn. unfold range in Hn. apply in_seq in Hn. lia.
Qed.

Lemma three_star_drawn :
  filter (is_drawn three_star_bg [] 1e-5) (range 0 (star_bg.catsize three_star_bg))
  = [0; 1]%nat.
Proof.
  unfold range, three_star_bg, is_drawn.
  cbn [star_bg.catsize star_bg.fscale Nat.sub seq filter existsb negb andb nth].
  replace (Rltb 1.0 1e-5) with false by (symmetry; apply Rltb_false; lra).
  replace (Rltb 0.05 1e-5) with false by (symmetry; apply Rltb_false; lra).
  replace (Rltb 1e-6 1e-5) with true by (symmetry; apply Rltb_true; lra).
  reflexivity.
Qed.

(** ** Background refinement: [refine_bg_model] *)

Lemma bind_Ok_inv {A B : Type} (m : result A) (k : A -> result B) (b : B) :
  bind m k = Ok b -> exists a, m = Ok a /\ k a = Ok b.
Proof.
  destruct m as [a|e]; cbn [bind]; intros H; [|discriminate].
  exists a. split; [reflexivity | exact H].
Qed.

Lemma getitem_Ok_lt {A : Type} (l : list A) (n : nat) (a : A) :
  getitem l n = Ok a -> nth_error l n = Some a /\ (n < length l)%nat.
Proof.
  unfold getitem. destruct (nth_error l n) as [a'|] eqn:E; intros H; [|discriminate].
  injection H as <-. split; [reflexivity|].
  apply nth_error_Some. congruence.
Qed.

Lemma list_set_same {A : Type} (l : list A) (n : nat) (v : A) :
  (n < length l)%nat -> nth_error (list_set l n v) n = Some v.
Proof.
  revert n. induction l as [|a l IH]; intros [|n] H; cbn in *; try lia.
  - reflexivity.
  - apply IH. lia.
Qed.

Lemma list_set_other {A : Type} (l : list A) (n m : nat) (v : A) :
  m <> n -> nth_error (list_set l n v) m = nth_error l m.
Proof.
  revert n m. induction l as [|a l IH]; intros [|n] [|m] H; cbn; try reflexivity.
  - contradiction.
  - apply IH. lia.
Qed.

Lemma window_coords_nth (radius : Z) (k : nat) :
  (0 <= radius)%Z -> (Z.of_nat k < 2 * radius + 1)%Z ->
  nth k (window_coords radius) 0 = IZR (Z.of_nat k - radius).
Proof.
  intros Hr Hk. unfold window_coords.
  rewrite linspace_nth by lia.
  rewrite minus_IZR, opp_IZR, <- INR_IZR_INZ.
  destruct (Z.eq_dec radius 0) as [-> | Hne].
  - assert (k = 0%nat) by lia. subst k. cbn [INR]. lra.
  - assert (Hpos : 0 < IZR radius) by (apply IZR_lt; lia).
    replace (INR (Z.to_nat (2 * radius + 1) - 1)) with (2 * IZR radius).
    + field. lra.
    + replace (Z.to_nat (2 * radius + 1) - 1)%nat with (Z.to_nat (2 * radius)) by lia.
      rewrite INR_IZR_INZ, Z2Nat.id by lia. rewrite mult_IZR. reflexivity.
Qed.

Lemma Rleb_true (a b : R) : Rleb a b = true <-> a <= b.
Proof.
  unfold Rleb. destruct (Rle_dec a b); split; intros;
    (assumption || discriminate || reflexivity || contradiction).
Qed.

(** The kernel support is the disc of radius [krn_rad] around the centre
    of the kernel grid. *)
Lemma selk_disc (krn_rad r c : Z) :
  (0 <= r < 2 * krn_rad + 1)%Z -> (0 <= c < 2 * krn_rad + 1)%Z ->
  selk krn_rad r c = true <->
  ((c - krn_rad) ^ 2 + (r - krn_rad) ^ 2 <= krn_rad ^ 2)%Z.
Proof.
  intros Hr Hc. unfold selk, xkmat, ykmat, xkern.
  rewrite !window_coords_nth by lia.
  rewrite !Z2Nat.id by lia.
  rewrite Rleb_true.
  replace (IZR (c - krn_rad) ^ 2 + IZR (r - krn_rad) ^ 2)
    with (IZR ((c - krn_rad) ^ 2 + (r - krn_rad) ^ 2))
    by (rewrite plus_IZR, !(pow_IZR _ 2); reflexivity).
  replace (IZR krn_rad ^ 2) with (IZR (krn_rad ^ 2))
    by (rewrite (pow_IZR _ 2); reflexivity).
  split; [apply le_IZR | apply IZR_le].
Qed.

Section Refiner_facts.

Variable psf_fit :
  list MultiPSF.t -> Frame -> Frame -> (Z -> Z -> bool) ->
  R -> R -> Z -> Z -> R -> Z -> Z -> result fit_result.
Variables (data_frame noise : Frame) (mask : Z -> Z -> bool) (psf_norm : R)
          (psf_ids : list nat) (psfs : list psf_model)
          (krn_scl : R) (krn_rad : Z).

Let render := render_current data_frame psf_ids psfs krn_scl krn_rad.
Let fit := fit_star psf_fit data_frame noise mask krn_scl krn_rad.
Let store := store_fit psf_norm krn_rad.
Let step := refine_star psf_fit data_frame noise mask psf_norm psf_ids psfs
                        krn_scl krn_rad.
Let loop := refine_loop psf_fit data_frame noise mask psf_norm psf_ids psfs
                        krn_scl krn_rad.


Lemma refine_star_completed (model : Frame) (work_cat : WorkCat.t)
      (star_id : nat) (psf_mod : psf_model) (star_img : Frame)
      (fitted : fit_result) :
  render work_cat star_id = Ok (psf_mod, star_img) ->
  fit (frame_sub model (frame_scale psf_norm star_img)) work_cat psf_mod star_id
  = Ok fitted ->
  step (model, work_cat) star_id
  = (store (frame_sub model (frame_scale psf_norm star_img)) work_cat star_id
           fitted, Ok tt).
Proof.
  intros Hr Hf. unfold step, refine_star. fold render. rewrite Hr.
  fold fit. rewrite Hf. reflexivity.
Qed.

Lemma refine_star_fit_raises (model : Frame) (work_cat : WorkCat.t)
      (star_id : nat) (psf_mod : psf_model) (star_img : Frame) (e : exn) :
  render work_cat star_id = Ok (psf_mod, star_img) ->
  fit (frame_sub model (frame_scale psf_norm star_img)) work_cat psf_mod star_id
  = Raise e ->
  step (model, work_cat) star_id
  = ((frame_sub model (frame_scale psf_norm star_img), work_cat), Raise e).
Proof.
  intros Hr Hf. unfold step, refine_star. fold render. rewrite Hr.
  fold fit. rewrite Hf. reflexivity.
Qed.

Lemma refine_star_render_raises (model : Frame) (work_cat : WorkCat.t)
      (star_id : nat) (e : exn) :
  render work_cat star_id = Raise e ->
  step (model, work_cat) star_id = ((model, work_cat), Raise e).
Proof.
  intros Hr. unfold step, refine_star. fold render. rewrite Hr. reflexivity.
Qed.

Lemma refine_loop_app (l1 l2 : list nat) (st : refine_state) :
  loop (l1 ++ l2) st
  = match loop l1 st with
    | (st', Ok _) => loop l2 st'
    | (st', Raise e) => (st', Raise e)
    end.
Proof.
  revert st. induction l1 as [|a l1 IH]; intros st; [reflexivity|].
  cbn [app]. unfold loop in *. cbn [refine_loop].
  destruct (refine_star _ _ _ _ _ _ _ _ _ st a) as [st' [u|e]];
    [apply IH | reflexivity].
Qed.

(** When the rendering of a star succeeded, a failure of [fit_star] is a
    failure of the fitting routine itself. *)
Lemma fit_star_raise_is_psf_fit (model : Frame) (work_cat : WorkCat.t)
      (star_id : nat) (psf_mod psf_mod' : psf_model) (star_img : Frame)
      (e : exn) :
  render work_cat star_id = Ok (psf_mod', star_img) ->
  fit model work_cat psf_mod star_id = Raise e ->
  exists basis fit_frame x_n y_n fitrad defrad,
    psf_fit basis fit_frame noise mask x_n y_n fitrad defrad krn_scl krn_rad (-1)%Z
    = Raise e.
Proof.
  unfold render, render_current. intros H.
  apply bind_Ok_inv in H as (pid & _ & H).
  apply bind_Ok_inv in H as (pm & _ & H).
  apply bind_Ok_inv in H as (img & H & _).
  unfold make_single_star_frame in H.
  apply bind_Ok_inv in H as (f & Hf & H).
  apply bind_Ok_inv in H as (km & _ & H).
  apply bind_Ok_inv in H as (xn & Hx & H).
  apply bind_Ok_inv in H as (yn & Hy & H).
  apply bind_Ok_inv in H as (dxn & Hdx & H).
  apply bind_Ok_inv in H as (dyn & Hdy & _).
  unfold fit, fit_star. rewrite Hdx, Hdy, Hf, Hx, Hy. cbn [bind].
  intros Hfit. do 6 eexists. exact Hfit.
Qed.

End Refiner_facts.

Lemma render_one_star_returns (shp : Z * Z) (krn_scl : R) (krn_rad : Z) :
  exists star_img,
    render_current (np_zeros shp) [0%nat] [flat_psf] krn_scl krn_rad one_star_cat 0
    = Ok (flat_psf, star_img).
Proof.
  unfold render_current, make_single_star_frame, one_star_cat, WorkCat.init.
  cbn [getitem nth_error bind WorkCat.fscale WorkCat.coeff WorkCat.x WorkCat.y
       WorkCat.dxs WorkCat.dys length repeat choose_kmat].
  unfold add_star.
  destruct (find_inds _ _ _) as [[[xi0 xi1] xj0] xj1].
  destruct (find_inds _ _ _) as [[[yi0 yi1] yj0] yj1].
  eexists. reflexivity.
Qed.



Lemma refine_loop_exits psf_fit data_frame noise mask psf_norm psf_ids psfs
      krn_scl krn_rad (starids : list nat) (st : refine_state) :
  (exists st',
      refine_loop psf_fit data_frame noise mask psf_norm psf_ids psfs
                  krn_scl krn_rad starids st = (st', Ok tt)) \/
  (exists done star_k rest model_k work_cat_k,
      starids = done ++ star_k :: rest /\
      refine_loop psf_fit data_frame noise mask psf_norm psf_ids psfs
                  krn_scl krn_rad done st = ((model_k, work_cat_k), Ok tt) /\
      ((exists e,
           render_current data_frame psf_ids psfs krn_scl krn_rad
                          work_cat_k star_k = Raise e) \/
       (exists psf_mod star_img e,
           render_current data_frame psf_ids psfs krn_scl krn_rad
                          work_cat_k star_k = Ok (psf_mod, star_img) /\
           fit_star psf_fit data_frame noise mask krn_scl krn_rad
                    (frame_sub model_k (frame_scale psf_norm star_img))
                    work_cat_k psf_mod star_k = Raise e))).
Proof.
  revert st. induction starids as [|a l IH]; intros [model work_cat].
  - left. eexists. reflexivity.
  - destruct (render_current data_frame psf_ids psfs krn_scl krn_rad work_cat a)
      as [[psf_mod star_img]|e] eqn:Hr.
    + destruct (fit_star psf_fit data_frame noise mask krn_scl krn_rad
                  (frame_sub model (frame_scale psf_norm star_img))
                  work_cat psf_mod a) as [fitted|e] eqn:Hf.
      * pose proof (refine_star_completed psf_fit data_frame noise mask psf_norm
                      psf_ids psfs krn_scl krn_rad model work_cat a psf_mod
                      star_img fitted Hr Hf) as Hstep.
        cbv zeta in Hstep. cbn [refine_loop]. rewrite Hstep.
        destruct (IH (store_fit psf_norm krn_rad
                        (frame_sub model (frame_scale psf_norm star_img))
                        work_cat a fitted))
          as [[st' Hdone] | (done & k & rest & mk & wk & -> & Hdone & Hk)].
        -- left. exists st'. exact Hdone.
        -- right. exists (a :: done), k, rest, mk, wk.
           split; [reflexivity|]. split; [|exact Hk].
           cbn [refine_loop]. rewrite Hstep. exact Hdone.
      * right. exists [], a, l, model, work_cat.
        split; [reflexivity|]. split; [reflexivity|].
        right. exists psf_mod, star_img, e. split; [exact Hr | exact Hf].
    + right. exists [], a, l, model, work_cat.
      split; [reflexivity|]. split; [reflexivity|].
      left. exists e. exact Hr.
Qed.

Lemma refine_bg_model_after psf_fit data_frame noise mask psf_norm psf_ids psfs
      krn_scl krn_rad (done : list nat) (star_k : nat) (rest : list nat)
      (model : Frame) (work_cat : WorkCat.t) (st_k st' : refine_state) (e : exn) :
  refine_loop psf_fit data_frame noise mask psf_norm psf_ids psfs
              krn_scl krn_rad done (model, work_cat) = (st_k, Ok tt) ->
  refine_star psf_fit data_frame noise mask psf_norm psf_ids psfs
              krn_scl krn_rad st_k star_k = (st', Raise e) ->
  refine_bg_model psf_fit data_frame noise mask psf_norm psf_ids psfs
                  krn_scl krn_rad (done ++ star_k :: rest) model work_cat
  = (st', Raise e).
Proof.
  intros Hdone Hstep. unfold refine_bg_model.
  pose proof (refine_loop_app psf_fit data_frame noise mask psf_norm psf_ids psfs
                krn_scl krn_rad done (star_k :: rest) (model, work_cat)) as Happ.
  cbv zeta in Happ. rewrite Happ, Hdone.
  cbn [refine_loop]. rewrite Hstep. reflexivity.
Qed.

Section Refiner_trace.

Variable psf_fit :
  list MultiPSF.t -> Frame -> Frame -> (Z -> Z -> bool) ->
  R -> R -> Z -> Z -> R -> Z -> Z -> result fit_result.
Variables (data_frame noise : Frame) (mask : Z -> Z -> bool) (psf_norm : R)
          (psf_ids : list nat) (psfs : list psf_model)
          (krn_scl : R) (krn_rad : Z).

Let render := render_current data_frame psf_ids psfs krn_scl krn_rad.
Let fit := fit_star psf_fit data_frame noise mask krn_scl krn_rad.
Let step := refine_star psf_fit data_frame noise mask psf_norm psf_ids psfs
                        krn_scl krn_rad.
Let loop := refine_loop psf_fit data_frame noise mask psf_norm psf_ids psfs
                        krn_scl krn_rad.

(** A completed iteration, read backwards: the star was rendered and
    fitted, and the buffer is the old one minus [psf_norm] times the
    rendering plus the fitted image. *)
Lemma refine_star_Ok_inv (model : Frame) (work_cat : WorkCat.t) (star_id : nat)
      (st' : refine_state) :
  step (model, work_cat) star_id = (st', Ok tt) ->
  exists psf_mod star_img fitstar_img bg kmat sc w,
    render work_cat star_id = Ok (psf_mod, star_img) /\
    fit (frame_sub model (frame_scale psf_norm star_img)) work_cat psf_mod star_id
    = Ok (fitstar_img, bg, kmat, sc, w) /\
    shape (fst st') = shape model /\
    forall r c,
      pix (fst st') r c
      = pix model r c - psf_norm * pix star_img r c + pix fitstar_img r c.
Proof.
  unfold step, refine_star. fold render.
  destruct (render work_cat star_id) as [[psf_mod star_img]|e]; [|discriminate].
  fold fit.
  destruct (fit (frame_sub model (frame_scale psf_norm star_img)) work_cat
                psf_mod star_id) as [fitted|e] eqn:Hf; [|discriminate].
  destruct fitted as [[[[fitstar_img bg] kmat] sc] w].
  intros H. injection H as <-.
  exists psf_mod, star_img, fitstar_img, bg, kmat, sc, w.
  split; [reflexivity|]. split; [exact Hf|].
  split; [reflexivity|].
  intros r c. reflexivity.
Qed.

Lemma refine_loop_snoc (done : list nat) (star_k : nat)
      (st st_k st' : refine_state) :
  loop done st = (st_k, Ok tt) ->
  step st_k star_k = (st', Ok tt) ->
  loop (done ++ [star_k]) st = (st', Ok tt).
Proof.
  intros Hdone Hstep.
  pose proof (refine_loop_app psf_fit data_frame noise mask psf_norm psf_ids psfs
                krn_scl krn_rad done [star_k] st) as Happ.
  cbv zeta in Happ. unfold loop, step in *. rewrite Happ, Hdone.
  cbn [refine_loop]. rewrite Hstep. reflexivity.
Qed.

(** The buffer after the stars of [done]: the initial one plus, for each
    star in turn, its fitted image minus [psf_norm] times its rendering
    at that point of the run. *)
Lemma refine_loop_trace (done : list nat) :
  forall model work_cat model_k work_cat_k,
    loop done (model, work_cat) = ((model_k, work_cat_k), Ok tt) ->
    exists trace : list (Frame * Frame),
      length trace = length done /\
      (forall i, (i < length done)%nat ->
         exists st_i psf_mod star_img fitstar_img bg kmat sc w,
           nth_error trace i = Some (star_img, fitstar_img) /\
           loop (firstn i done) (model, work_cat) = (st_i, Ok tt) /\
           render (snd st_i) (nth i done 0%nat) = Ok (psf_mod, star_img) /\
           fit (frame_sub (fst st_i) (frame_scale psf_norm star_img))
               (snd st_i) psf_mod (nth i done 0%nat)
           = Ok (fitstar_img, bg, kmat, sc, w)) /\
      shape model_k = shape model /\
      forall r c,
        pix model_k r c
        = pix model r c
          + Rsum (map (fun sf => pix (snd sf) r c - psf_norm * pix (fst sf) r c)
                      trace).
Proof.
  induction done as [|a l IH]; intros model work_cat model_k work_cat_k Hrun.
  - unfold loop in Hrun. cbn [refine_loop] in Hrun. injection Hrun as <- <-.
    exists []. split; [reflexivity|]. split; [intros i Hi; cbn in Hi; lia|].
    split; [reflexivity|].
    intros r c. cbn [map]. rewrite Rsum_nil. lra.
  - unfold loop in Hrun. cbn [refine_loop] in Hrun.
    change (refine_star psf_fit data_frame noise mask psf_norm psf_ids psfs
                        krn_scl krn_rad (model, work_cat) a)
      with (step (model, work_cat) a) in Hrun.
    destruct (step (model, work_cat) a) as [[model1 work_cat1] [[]|e]] eqn:Hstep;
      [|discriminate].
    change (refine_loop psf_fit data_frame noise mask psf_norm psf_ids psfs
                        krn_scl krn_rad l (model1, work_cat1))
      with (loop l (model1, work_cat1)) in Hrun.
    destruct (refine_star_Ok_inv model work_cat a (model1, work_cat1) Hstep)
      as (psf_mod & star_img & fitstar_img & bg & kmat & sc & w
          & Hr & Hf & Hshape & Hpix).
    cbn [fst] in Hshape, Hpix.
    destruct (IH model1 work_cat1 model_k work_cat_k Hrun)
      as (trace & Hlen & Hsteps & Hshape_k & Hpix_k).
    exists ((star_img, fitstar_img) :: trace).
    split; [cbn [length]; rewrite Hlen; reflexivity|].
    split; [|split; [congruence|]].
    + intros [|i] Hi.
      * exists (model, work_cat), psf_mod, star_img, fitstar_img, bg, kmat, sc, w.
        cbn [nth_error firstn nth fst snd].
        split; [reflexivity|]. split; [reflexivity|].
        split; [exact Hr | exact Hf].
      * cbn [length] in Hi.
        destruct (Hsteps i ltac:(lia))
          as (st_i & pm & si & fi & bg' & km' & sc' & w' & Hn & Hl & Hr' & Hf').
        exists st_i, pm, si, fi, bg', km', sc', w'.
        cbn [nth_error firstn nth].
        split; [exact Hn|]. split; [|split; [exact Hr' | exact Hf']].
        unfold loop, step in *. cbn [refine_loop]. rewrite Hstep. exact Hl.
    + intros r c. rewrite Hpix_k, Hpix. cbn [map fst snd]. rewrite Rsum_cons. lra.
Qed.

End Refiner_trace.

(** C2 -- the exits of [refine_bg_model] and the model buffer they leave,
    for a kernel radius that is not negative, a model buffer of the shape
    of the data frame and a fitting routine whose image has the shape of
    the frame it is given, so that the array operations of the loop
    cannot themselves fail.  Each star refined leaves the buffer as it
    found it minus psf_norm times the star's rendering plus the fitted
    image, so after the stars of [done] the buffer is the initial one
    plus, star by star, fitted image minus psf_norm times rendering.  If
    the fit for star k then raises, the buffer is that state minus
    psf_norm times the current rendering of star k, the catalogue is as
    the earlier stars left it, and the exception reaches the caller.  If
    already the rendering of star k raises, the buffer is the state after
    the earlier stars.  If no star fails, the call returns the catalogue.
    Every run ends in one of these three ways. *)
Theorem refine_bg_model_exit_states :
  forall psf_fit data_frame noise mask psf_norm psf_ids psfs krn_scl krn_rad
         model work_cat,
    (0 <= krn_rad)%Z ->
    (0 <= fst (shape data_frame))%Z -> (0 <= snd (shape data_frame))%Z ->
    shape model = shape data_frame ->
    (forall basis fit_frame noise' mask' xc yc fitrad defrad ks kr bg_fit
            fitstar_img bg kmat sc w,
        psf_fit basis fit_frame noise' mask' xc yc fitrad defrad ks kr bg_fit
        = Ok (fitstar_img, bg, kmat, sc, w) ->
        shape fitstar_img = shape fit_frame) ->
    let run := refine_bg_model psf_fit data_frame noise mask psf_norm
                               psf_ids psfs krn_scl krn_rad in
    let loop := refine_loop psf_fit data_frame noise mask psf_norm
                            psf_ids psfs krn_scl krn_rad in
    let render := render_current data_frame psf_ids psfs krn_scl krn_rad in
    let fit := fit_star psf_fit data_frame noise mask krn_scl krn_rad in
    (forall done star_k model_k work_cat_k psf_mod star_img
            fitstar_img bg kmat sc w,
        loop done (model, work_cat) = ((model_k, work_cat_k), Ok tt) ->
        render work_cat_k star_k = Ok (psf_mod, star_img) ->
        fit (frame_sub model_k (frame_scale psf_norm star_img))
            work_cat_k psf_mod star_k = Ok (fitstar_img, bg, kmat, sc, w) ->
        exists model' work_cat',
          loop (done ++ [star_k]) (model, work_cat)
          = ((model', work_cat'), Ok tt) /\
          shape model' = shape model /\
          forall r c,
            pix model' r c
            = pix model_k r c - psf_norm * pix star_img r c
              + pix fitstar_img r c) /\
    (forall done model_k work_cat_k,
        loop done (model, work_cat) = ((model_k, work_cat_k), Ok tt) ->
        exists trace : list (Frame * Frame),
          length trace = length done /\
          (forall i, (i < length done)%nat ->
             exists st_i psf_mod star_img fitstar_img bg kmat sc w,
               nth_error trace i = Some (star_img, fitstar_img) /\
               loop (firstn i done) (model, work_cat) = (st_i, Ok tt) /\
               render (snd st_i) (nth i done 0%nat) = Ok (psf_mod, star_img) /\
               fit (frame_sub (fst st_i) (frame_scale psf_norm star_img))
                   (snd st_i) psf_mod (nth i done 0%nat)
               = Ok (fitstar_img, bg, kmat, sc, w)) /\
          shape model_k = shape model /\
          forall r c,
            pix model_k r c
            = pix model r c
              + Rsum (map (fun sf =>
                             pix (snd sf) r c - psf_norm * pix (fst sf) r c)
                          trace)) /\
    (forall done star_k rest model_k work_cat_k psf_mod star_img e,
        loop done (model, work_cat) = ((model_k, work_cat_k), Ok tt) ->
        render work_cat_k star_k = Ok (psf_mod, star_img) ->
        fit (frame_sub model_k (frame_scale psf_norm star_img))
            work_cat_k psf_mod star_k = Raise e ->
        run (done ++ star_k :: rest) model work_cat
        = ((frame_sub model_k (frame_scale psf_norm star_img), work_cat_k),
           Raise e) /\
        (forall r c,
            pix (frame_sub model_k (frame_scale psf_norm star_img)) r c
            = pix model_k r c - psf_norm * pix star_img r c) /\
        (exists basis fit_frame x_n y_n fitrad defrad,
            psf_fit basis fit_frame noise mask x_n y_n fitrad defrad
                    krn_scl krn_rad (-1)%Z = Raise e)) /\
    (forall done star_k rest model_k work_cat_k e,
        loop done (model, work_cat) = ((model_k, work_cat_k), Ok tt) ->
        render work_cat_k star_k = Raise e ->
        run (done ++ star_k :: rest) model work_cat
        = ((model_k, work_cat_k), Raise e)) /\
    (forall starids st,
        loop starids (model, work_cat) = (st, Ok tt) ->
        run starids model work_cat = (st, Ok (snd st))) /\
    (forall starids,
        (exists st, loop starids (model, work_cat) = (st, Ok tt)) \/
        (exists done star_k rest model_k work_cat_k,
            starids = done ++ star_k :: rest /\
            loop done (model, work_cat) = ((model_k, work_cat_k), Ok tt) /\
            ((exists e, render work_cat_k star_k = Raise e) \/
             (exists psf_mod star_img e,
                 render work_cat_k star_k = Ok (psf_mod, star_img) /\
                 fit (frame_sub model_k (frame_scale psf_norm star_img))
                     work_cat_k psf_mod star_k = Raise e)))).
Proof.
  intros psf_fit data_frame noise mask psf_norm psf_ids psfs krn_scl krn_rad
         model work_cat _ _ _ _ _ run loop render fit.
  split; [|split; [|split; [|split; [|split]]]].
  - intros done star_k model_k work_cat_k psf_mod star_img fitstar_img bg kmat sc w
           Hdone Hrender Hfit.
    pose proof (refine_star_completed psf_fit data_frame noise mask psf_norm
                  psf_ids psfs krn_scl krn_rad model_k work_cat_k star_k psf_mod
                  star_img (fitstar_img, bg, kmat, sc, w) Hrender Hfit) as Hstep.
    cbv zeta in Hstep.
    destruct (store_fit psf_norm krn_rad
                (frame_sub model_k (frame_scale psf_norm star_img))
                work_cat_k star_k (fitstar_img, bg, kmat, sc, w))
      as [model' work_cat'] eqn:Hstore.
    exists model', work_cat'.
    split.
    { apply (refine_loop_snoc psf_fit data_frame noise mask psf_norm psf_ids psfs
               krn_scl krn_rad done star_k (model, work_cat) (model_k, work_cat_k));
        [exact Hdone | exact Hstep]. }
    destruct (refine_star_Ok_inv psf_fit data_frame noise mask psf_norm psf_ids
                psfs krn_scl krn_rad model_k work_cat_k star_k
                (model', work_cat') Hstep)
      as (pm & si & fi & bg' & km' & sc' & w' & Hr' & Hf' & Hshape & Hpix).
    cbn [fst] in Hshape, Hpix.
    fold render in Hr'. rewrite Hrender in Hr'. injection Hr' as <- <-.
    fold fit in Hf'. rewrite Hfit in Hf'. injection Hf' as <- _ _ _ _.
    destruct (refine_loop_trace psf_fit data_frame noise mask psf_norm psf_ids
                psfs krn_scl krn_rad done model work_cat model_k work_cat_k Hdone)
      as (_ & _ & _ & Hshape_k & _).
    split; [congruence | exact Hpix].
  - intros done model_k work_cat_k Hdone.
    exact (refine_loop_trace psf_fit data_frame noise mask psf_norm psf_ids
             psfs krn_scl krn_rad done model work_cat model_k work_cat_k Hdone).
  - intros done star_k rest model_k work_cat_k psf_mod star_img e
           Hdone Hrender Hfit.
    split; [|split].
    + eapply refine_bg_model_after; [exact Hdone|].
      pose proof (refine_star_fit_raises psf_fit data_frame noise mask psf_norm
                    psf_ids psfs krn_scl krn_rad model_k work_cat_k star_k
                    psf_mod star_img e Hrender Hfit) as Hstep.
      exact Hstep.
    + intros r c. reflexivity.
    + exact (fit_star_raise_is_psf_fit psf_fit data_frame noise mask psf_ids psfs
               krn_scl krn_rad _ work_cat_k star_k psf_mod psf_mod star_img e
               Hrender Hfit).
  - intros done star_k rest model_k work_cat_k e Hdone Hrender.
    eapply refine_bg_model_after; [exact Hdone|].
    exact (refine_star_render_raises psf_fit data_frame noise mask psf_norm
             psf_ids psfs krn_scl krn_rad model_k work_cat_k star_k e Hrender).
  - intros starids st Hloop.
    unfold run, refine_bg_model. fold loop. rewrite Hloop. reflexivity.
  - intros starids. apply refine_loop_exits.
Qed.

Lemma fit_near_only_shape :
  forall basis fit_frame noise' mask' xc yc fitrad defrad ks kr bg_fit
         fitstar_img bg kmat sc w,
    fit_near_only basis fit_frame noise' mask' xc yc fitrad defrad ks kr bg_fit
    = Ok (fitstar_img, bg, kmat, sc, w) ->
    shape fitstar_img = shape fit_frame.
Proof.
  intros basis fit_frame noise' mask' xc yc fitrad defrad ks kr bg_fit
         fitstar_img bg kmat sc w H.
  unfold fit_near_only in H.
  destruct (Rltb xc 20); [|discriminate].
  injection H as <- _ _ _ _. reflexivity.
Qed.

Lemma two_star_first_renders (shp : Z * Z) :
  exists star_img,
    render_current (np_zeros shp) [0; 0]%nat [unit_psf] 0.3 3 two_star_cat 0
    = Ok (unit_psf, star_img).
Proof.
  unfold render_current, make_single_star_frame, two_star_cat, WorkCat.init.
  cbn [getitem nth_error bind WorkCat.fscale WorkCat.coeff WorkCat.x WorkCat.y
       WorkCat.dxs WorkCat.dys length repeat choose_kmat].
  unfold add_star.
  destruct (find_inds _ _ _) as [[[xi0 xi1] xj0] xj1].
  destruct (find_inds _ _ _) as [[[yi0 yi1] yj0] yj1].
  eexists. reflexivity.
Qed.

Lemma two_star_first_fit (shp : Z * Z) (noise : Frame) (mask : Z -> Z -> bool)
      (model : Frame) :
  fit_star fit_near_only (np_zeros shp) noise mask 0.3 3 model two_star_cat
           unit_psf 0
  = Ok (mkFrame shp (fun _ _ => 3), 0, (fun _ _ => 1), 1, []).
Proof.
  unfold fit_star, two_star_cat, WorkCat.init.
  cbn [getitem nth_error bind WorkCat.fscale WorkCat.x WorkCat.y
       WorkCat.dxs WorkCat.dys].
  unfold fit_near_only.
  replace (Rltb 10 20) with true by (symmetry; apply Rltb_true; lra).
  reflexivity.
Qed.

Lemma two_star_second_renders (shp : Z * Z) (model : Frame) (fitted : fit_result) :
  exists star_img,
    render_current (np_zeros shp) [0; 0]%nat [unit_psf] 0.3 3
                   (snd (store_fit 2 3 model two_star_cat 0 fitted)) 1
    = Ok (unit_psf, star_img).
Proof.
  destruct fitted as [[[[fitstar_img bg] kmat] sc] w].
  unfold render_current, make_single_star_frame, store_fit, two_star_cat,
         WorkCat.init.
  cbn [snd getitem nth_error bind WorkCat.fscale WorkCat.coeff WorkCat.x WorkCat.y
       WorkCat.dxs WorkCat.dys length repeat choose_kmat list_set].
  unfold add_star.
  destruct (find_inds _ _ _) as [[[xi0 xi1] xj0] xj1].
  destruct (find_inds _ _ _) as [[[yi0 yi1] yj0] yj1].
  eexists. reflexivity.
Qed.

Lemma two_star_second_fit_raises (shp : Z * Z) (noise : Frame)
      (mask : Z -> Z -> bool) (model model0 : Frame) (fitted : fit_result) :
  fit_star fit_near_only (np_zeros shp) noise mask 0.3 3 model
           (snd (store_fit 2 3 model0 two_star_cat 0 fitted)) unit_psf 1
  = Raise FitError.
Proof.
  destruct fitted as [[[[fitstar_img bg] kmat] sc] w].
  unfold fit_star, store_fit, two_star_cat, WorkCat.init.
  cbn [snd getitem nth_error bind WorkCat.fscale WorkCat.x WorkCat.y
       WorkCat.dxs WorkCat.dys list_set].
  unfold fit_near_only.
  replace (Rltb 30 20) with false by (symmetry; apply Rltb_false; lra).
  reflexivity.
Qed.

Lemma refine_bg_model_exit_states_witness :
  exists star_img0 star_img1 model_1 work_cat_1,
    refine_loop fit_near_only (np_zeros (50, 50)%Z) (np_zeros (50, 50)%Z)
                (fun _ _ => true) 2 [0; 0]%nat [unit_psf] 0.3 3
                ([] ++ [0%nat]) (np_zeros (50, 50)%Z, two_star_cat)
    = ((model_1, work_cat_1), Ok tt) /\
    (forall r c, pix model_1 r c = 0 - 2 * pix star_img0 r c + 3) /\
    refine_bg_model fit_near_only (np_zeros (50, 50)%Z) (np_zeros (50, 50)%Z)
                    (fun _ _ => true) 2 [0; 0]%nat [unit_psf] 0.3 3
                    ([0%nat] ++ [1%nat]) (np_zeros (50, 50)%Z) two_star_cat
    = ((frame_sub model_1 (frame_scale 2 star_img1), work_cat_1),
       Raise FitError).
Proof.
  assert (Hrad : (0 <= 3)%Z) by lia.
  assert (Hrows : (0 <= fst (shape (np_zeros (50, 50)%Z)))%Z) by (cbn; lia).
  assert (Hcols : (0 <= snd (shape (np_zeros (50, 50)%Z)))%Z) by (cbn; lia).
  pose proof (refine_bg_model_exit_states
                fit_near_only (np_zeros (50, 50)%Z) (np_zeros (50, 50)%Z)
                (fun _ _ => true) 2 [0; 0]%nat [unit_psf] 0.3 3%Z
                (np_zeros (50, 50)%Z) two_star_cat
                Hrad Hrows Hcols eq_refl fit_near_only_shape) as T.
  cbv zeta in T. destruct T as (Tstep & _ & Tfit & _).
  destruct (two_star_first_renders (50, 50)%Z) as [star_img0 Hr0].
  pose proof (two_star_first_fit (50, 50)%Z (np_zeros (50, 50)%Z) (fun _ _ => true)
                (frame_sub (np_zeros (50, 50)%Z) (frame_scale 2 star_img0)))
    as Hf0.
  destruct (Tstep [] 0%nat (np_zeros (50, 50)%Z) two_star_cat unit_psf star_img0
                  _ _ _ _ _ eq_refl Hr0 Hf0)
    as (model_1 & work_cat_1 & Hloop & _ & Hpix).
  assert (Hwc : work_cat_1
                = snd (store_fit 2 3
                         (frame_sub (np_zeros (50, 50)%Z) (frame_scale 2 star_img0))
                         two_star_cat 0
                         (mkFrame (50, 50)%Z (fun _ _ => 3), 0, (fun _ _ => 1), 1, []))).
  { pose proof (refine_star_completed fit_near_only (np_zeros (50, 50)%Z)
                  (np_zeros (50, 50)%Z) (fun _ _ => true) 2 [0; 0]%nat [unit_psf]
                  0.3 3%Z (np_zeros (50, 50)%Z) two_star_cat 0%nat unit_psf
                  star_img0 _ Hr0 Hf0) as Hstep.
    cbv zeta in Hstep. cbn [app refine_loop] in Hloop.
    rewrite Hstep in Hloop. injection Hloop as _ <-. reflexivity. }
  destruct (two_star_second_renders (50, 50)%Z
              (frame_sub (np_zeros (50, 50)%Z) (frame_scale 2 star_img0))
              (mkFrame (50, 50)%Z (fun _ _ => 3), 0, (fun _ _ => 1), 1, []))
    as [star_img1 Hr1].
  rewrite <- Hwc in Hr1.
  pose proof (two_star_second_fit_raises (50, 50)%Z (np_zeros (50, 50)%Z)
                (fun _ _ => true)
                (frame_sub model_1 (frame_scale 2 star_img1))
                (frame_sub (np_zeros (50, 50)%Z) (frame_scale 2 star_img0))
                (mkFrame (50, 50)%Z (fun _ _ => 3), 0, (fun _ _ => 1), 1, []))
    as Hf1.
  rewrite <- Hwc in Hf1.
  exists star_img0, star_img1, model_1, work_cat_1.
  split; [exact Hloop|]. split.
  - intros r c. rewrite Hpix. cbn [np_zeros pix]. unfold zeros. reflexivity.
  - exact (proj1 (Tfit [0%nat] 1%nat [] model_1 work_cat_1 unit_psf star_img1
                       FitError Hloop Hr1 Hf1)).
Defined.

(** ** Masks: clean pixels are [True] *)

(** What the index ranges of [find_inds] mean: the frame positions in the
    destination slice are those of the frame that fall in the window
    around [x], and each is paired with its own offset in the window. *)
Lemma in_slice_true (lo hi k : Z) : in_slice lo hi k = true <-> (lo <= k < hi)%Z.
Proof. unfold in_slice. rewrite andb_true_iff, Z.leb_le, Z.ltb_lt. reflexivity. Qed.

Lemma find_inds_spec (x_len x radius : Z) :
  (0 <= x_len)%Z -> (0 <= radius)%Z ->
  let '(i0, i1, j0, j1) := find_inds x_len x radius in
  forall c,
    (in_slice i0 i1 c = true <->
     (0 <= c < x_len)%Z /\ (x - radius <= c <= x + radius)%Z) /\
    (in_slice i0 i1 c = true -> (c - i0 + j0 = c - x + radius)%Z).
Proof.
  intros Hl Hr. unfold find_inds.
  destruct (x <? - radius)%Z eqn:E1; cbn [orb];
    [intros c; rewrite !in_slice_true; lia|].
  destruct (x >? x_len + radius)%Z eqn:E2;
    [intros c; rewrite !in_slice_true; lia|].
  destruct (x >? radius)%Z eqn:E3; destruct (x + radius <? x_len)%Z eqn:E4;
    cbv beta iota; intros c; rewrite !in_slice_true; lia.
Qed.

Lemma slice_add_pix (frame : Frame) (r0 r1 c0 c1 : Z) (src : array2)
      (sr0 sc0 r c : Z) :
  pix (slice_add frame r0 r1 c0 c1 src sr0 sc0) r c
  = pix frame r c
    + (if in_slice r0 r1 r && in_slice c0 c1 c
       then src (r - r0 + sr0)%Z (c - c0 + sc0)%Z else 0).
Proof.
  unfold slice_add. cbn [pix].
  destruct (in_slice r0 r1 r && in_slice c0 c1 c); lra.
Qed.

Lemma b2r_nonneg (b : bool) : 0 <= b2r b.
Proof. destruct b; cbn; lra. Qed.

Lemma b2r_nonzero (b : bool) : b2r b <> 0 <-> b = true.
Proof. destruct b; cbn; split; intros H; try lra; try reflexivity; discriminate. Qed.

Lemma Reqb_true (a b : R) : Reqb a b = true <-> a = b.
Proof.
  unfold Reqb. destruct (Req_dec_T a b); split; intros;
    (assumption || discriminate || reflexivity || contradiction).
Qed.

Lemma Rsum_nonneg_zero (l : list R) :
  (forall v, In v l -> 0 <= v) ->
  (Rsum l = 0 <-> forall v, In v l -> v = 0).
Proof.
  induction l as [|a l IH]; intros Hpos.
  - split; [intros _ v [] | reflexivity].
  - rewrite Rsum_cons.
    assert (Ha : 0 <= a) by (apply Hpos; left; reflexivity).
    assert (Hl : forall v, In v l -> 0 <= v) by (intros v Hv; apply Hpos; right; exact Hv).
    assert (Hs : 0 <= Rsum l).
    { clear IH Hpos. induction l as [|b l IHl]; [rewrite Rsum_nil; lra|].
      rewrite Rsum_cons.
      assert (0 <= b) by (apply Hl; left; reflexivity).
      assert (0 <= Rsum l) by (apply IHl; intros v Hv; apply Hl; right; exact Hv).
      lra. }
    specialize (IH Hl). split.
    + intros H v [<- | Hv]; [lra|]. apply IH; [lra | exact Hv].
    + intros H. rewrite (H a) by (left; reflexivity).
      rewrite (proj2 IH) by (intros v Hv; apply H; right; exact Hv). lra.
Qed.

(** *** The circular mask *)

Lemma add_circle_shape (frame : Frame) (x0 y0 radius : R) :
  shape (add_circle frame x0 y0 radius) = shape frame.
Proof.
  unfold add_circle.
  destruct (find_inds _ _ _) as [[[xi0 xi1] xj0] xj1].
  destruct (find_inds _ _ _) as [[[yi0 yi1] yj0] yj1].
  reflexivity.
Qed.

Lemma add_circle_pix (frame : Frame) (x0 y0 radius : R) (r c : Z) :
  pix (add_circle frame x0 y0 radius) r c
  = pix frame r c + pix (add_circle (np_zeros (shape frame)) x0 y0 radius) r c.
Proof.
  unfold add_circle. cbn [shape np_zeros].
  destruct (find_inds _ _ _) as [[[xi0 xi1] xj0] xj1].
  destruct (find_inds _ _ _) as [[[yi0 yi1] yj0] yj1].
  rewrite !slice_add_pix. cbn [pix np_zeros]. unfold zeros.
  destruct (in_slice yi0 yi1 r && in_slice xi0 xi1 c); lra.
Qed.

Lemma add_circle_nonneg (shp : Z * Z) (x0 y0 radius : R) (r c : Z) :
  0 <= pix (add_circle (np_zeros shp) x0 y0 radius) r c.
Proof.
  unfold add_circle. cbn [shape np_zeros].
  destruct (find_inds _ _ _) as [[[xi0 xi1] xj0] xj1].
  destruct (find_inds _ _ _) as [[[yi0 yi1] yj0] yj1].
  rewrite slice_add_pix. cbn [pix np_zeros]. unfold zeros.
  destruct (in_slice yi0 yi1 r && in_slice xi0 xi1 c); [|lra].
  pose proof (b2r_nonneg
                (Rleb ((nth (Z.to_nat (c - xi0 + xj0)) (window_coords (int_of_float (radius + 1))) 0
                        - (x0 - IZR (int_of_float x0))) ^ 2
                       + (nth (Z.to_nat (r - yi0 + yj0)) (window_coords (int_of_float (radius + 1))) 0
                          - (y0 - IZR (int_of_float y0))) ^ 2)
                      (radius ^ 2))).
  lra.
Qed.

Lemma unskipped_In (skip l : list nat) (n : nat) :
  In n (unskipped skip l) <-> In n l /\ ~ In n skip.
Proof.
  unfold unskipped. rewrite filter_In, negb_true_iff. split; intros [H1 H2]; (split; [exact H1|]).
  - intros Hin. assert (E : existsb (Nat.eqb n) skip = true).
    { apply existsb_exists. exists n. split; [exact Hin | apply Nat.eqb_refl]. }
    congruence.
  - destruct (existsb (Nat.eqb n) skip) eqn:E; [|reflexivity].
    apply existsb_exists in E as (m & Hm & Heq).
    apply Nat.eqb_eq in Heq. subst m. contradiction.
Qed.

Lemma circ_mask_loop (work_cat : WorkCat.t) (skip : list nat) (radius : R)
      (l : list nat) :
  (forall n, In n l -> (n < length (WorkCat.x work_cat))%nat
                       /\ (n < length (WorkCat.y work_cat))%nat) ->
  forall frame,
  exists frame',
    for_each
      (fun frame n =>
         if existsb (Nat.eqb n) skip then Ok frame else
         x_n <- getitem (WorkCat.x work_cat) n ;;
         y_n <- getitem (WorkCat.y work_cat) n ;;
         Ok (add_circle frame x_n y_n radius))
      l frame = Ok frame' /\
    shape frame' = shape frame /\
    forall r c,
      pix frame' r c
      = pix frame r c
        + Rsum (map (fun n =>
                       pix (add_circle (np_zeros (shape frame))
                                       (nth n (WorkCat.x work_cat) 0)
                                       (nth n (WorkCat.y work_cat) 0) radius) r c)
                    (unskipped skip l)).
Proof.
  induction l as [|n l IH]; intros Hl frame.
  - exists frame. split; [reflexivity|]. split; [reflexivity|].
    intros r c. cbn [unskipped filter map]. rewrite Rsum_nil. lra.
  - assert (Hl' : forall m, In m l -> (m < length (WorkCat.x work_cat))%nat
                                      /\ (m < length (WorkCat.y work_cat))%nat)
      by (intros m Hm; apply Hl; right; exact Hm).
    destruct (Hl n (or_introl eq_refl)) as [Hx Hy].
    cbn [for_each]. unfold unskipped. cbn [filter]. fold (unskipped skip l).
    destruct (existsb (Nat.eqb n) skip); cbn [negb bind].
    + apply IH. exact Hl'.
    + rewrite (getitem_nth _ n 0 Hx), (getitem_nth _ n 0 Hy). cbn [bind].
      destruct (IH Hl' (add_circle frame (nth n (WorkCat.x work_cat) 0)
                                   (nth n (WorkCat.y work_cat) 0) radius))
        as (frame' & Hrun & Hshape & Hpix).
      exists frame'. split; [exact Hrun|].
      rewrite add_circle_shape in Hshape, Hpix.
      split; [exact Hshape|].
      intros r c. rewrite Hpix, add_circle_pix. cbn [map]. rewrite Rsum_cons. lra.
Qed.

Lemma make_bg_circ_mask_clean (shp : Z * Z) (work_cat : WorkCat.t)
      (skip : list nat) (radius : R) :
  (WorkCat.catsize work_cat <= length (WorkCat.x work_cat))%nat ->
  (WorkCat.catsize work_cat <= length (WorkCat.y work_cat))%nat ->
  exists mask,
    make_bg_circ_mask shp work_cat skip radius = Ok mask /\
    forall r c,
      mask r c = true <->
      forall n, (n < WorkCat.catsize work_cat)%nat -> ~ In n skip ->
                ~ circle_covers shp (nth n (WorkCat.x work_cat) 0)
                                (nth n (WorkCat.y work_cat) 0) radius r c.
Proof.
  intros Hx Hy. unfold make_bg_circ_mask.
  destruct (circ_mask_loop work_cat skip radius (range 0 (WorkCat.catsize work_cat)))
    with (frame := np_zeros shp) as (frame' & Hrun & _ & Hpix).
  { intros n Hn. unfold range in Hn. apply in_seq in Hn. lia. }
  rewrite Hrun. cbn [bind]. eexists. split; [reflexivity|].
  intros r c. rewrite Reqb_true, Hpix. cbn [np_zeros pix shape]. unfold zeros.
  rewrite Rplus_0_l, Rsum_nonneg_zero.
  - split.
    + intros H n Hn Hskip Hcov. apply Hcov. apply H.
      apply in_map_iff. exists n. split; [reflexivity|].
      apply unskipped_In. split; [|exact Hskip].
      unfold range. apply in_seq. lia.
    + intros H v Hv. apply in_map_iff in Hv as (n & <- & Hn).
      apply unskipped_In in Hn as [Hn Hskip].
      unfold range in Hn. apply in_seq in Hn.
      destruct (Req_dec_T (pix (add_circle (np_zeros shp)
                                  (nth n (WorkCat.x work_cat) 0)
                                  (nth n (WorkCat.y work_cat) 0) radius) r c) 0)
        as [E|E]; [exact E|].
      exfalso. apply (H n); [lia | exact Hskip | exact E].
  - intros v Hv. apply in_map_iff in Hv as (n & <- & _). apply add_circle_nonneg.
Qed.

Lemma int_of_float_close (x : R) : -1 < x - IZR (int_of_float x) < 1.
Proof.
  unfold int_of_float. destruct (Rle_dec 0 x) as [H|H].
  - destruct (base_Int_part x). lra.
  - destruct (base_Int_part (- x)). rewrite opp_IZR. lra.
Qed.

Lemma int_of_float_ge (x : R) (k : Z) : 0 <= x -> IZR k < x + 1 -> (k <= int_of_float (x + 1))%Z.
Proof.
  intros H0 Hk. rewrite int_of_float_nonneg by lra.
  destruct (base_Int_part (x + 1)) as [H1 H2].
  apply Z.lt_succ_r. apply lt_IZR. rewrite succ_IZR. lra.
Qed.

(** The value [add_circle] adds at a pixel of the frame: 1 inside the
    window around the star's integer position when the pixel is within
    [radius] of the star's position, 0 elsewhere. *)
Lemma add_circle_value (shp : Z * Z) (x0 y0 radius : R) (r c : Z) :
  (0 <= fst shp)%Z -> (0 <= snd shp)%Z -> 0 <= radius ->
  let im_rad := int_of_float (radius + 1) in
  let x0i := int_of_float x0 in
  let y0i := int_of_float y0 in
  pix (add_circle (np_zeros shp) x0 y0 radius) r c
  = if (in_slice 0 (fst shp) r && in_slice (y0i - im_rad) (y0i + im_rad + 1) r)
       && (in_slice 0 (snd shp) c && in_slice (x0i - im_rad) (x0i + im_rad + 1) c)
    then b2r (Rleb ((IZR c - x0) ^ 2 + (IZR r - y0) ^ 2) (radius ^ 2))
    else 0.
Proof.
  intros Hrows Hcols Hrad im_rad x0i y0i.
  assert (Him : (0 <= im_rad)%Z).
  { unfold im_rad. rewrite int_of_float_nonneg by lra. apply Int_part_nonneg. lra. }
  unfold add_circle. cbn [shape np_zeros]. fold im_rad x0i y0i.
  pose proof (find_inds_spec (snd shp) x0i im_rad Hcols Him) as Sx.
  pose proof (find_inds_spec (fst shp) y0i im_rad Hrows Him) as Sy.
  destruct (find_inds (snd shp) x0i im_rad) as [[[xi0 xi1] xj0] xj1].
  destruct (find_inds (fst shp) y0i im_rad) as [[[yi0 yi1] yj0] yj1].
  destruct (Sx c) as [Sx1 Sx2]. destruct (Sy r) as [Sy1 Sy2]. clear Sx Sy.
  rewrite slice_add_pix. cbn [pix np_zeros]. unfold zeros. rewrite Rplus_0_l.
  assert (Hb : in_slice yi0 yi1 r && in_slice xi0 xi1 c
               = (in_slice 0 (fst shp) r && in_slice (y0i - im_rad) (y0i + im_rad + 1) r)
                 && (in_slice 0 (snd shp) c && in_slice (x0i - im_rad) (x0i + im_rad + 1) c)).
  { apply eq_true_iff_eq. rewrite !andb_true_iff, Sx1, Sy1, !in_slice_true. lia. }
  rewrite <- Hb.
  destruct (in_slice yi0 yi1 r) eqn:Er; destruct (in_slice xi0 xi1 c) eqn:Ec;
    cbn [andb]; try reflexivity.
  rewrite (Sx2 eq_refl), (Sy2 eq_refl).
  destruct (proj1 Sx1 eq_refl) as [_ Wx]. destruct (proj1 Sy1 eq_refl) as [_ Wy].
  rewrite <- (Z2Nat.id (c - x0i + im_rad)) at 1 by lia.
  rewrite <- (Z2Nat.id (r - y0i + im_rad)) at 1 by lia.
  rewrite !Nat2Z.id.
  rewrite !window_coords_nth by (rewrite ?Z2Nat.id; lia).
  rewrite !Z2Nat.id by lia.
  clearbody im_rad x0i y0i.
  replace (IZR (c - x0i + im_rad - im_rad) - (x0 - IZR x0i)) with (IZR c - x0)
    by (repeat (rewrite minus_IZR || rewrite plus_IZR); ring).
  replace (IZR (r - y0i + im_rad - im_rad) - (y0 - IZR y0i)) with (IZR r - y0)
    by (repeat (rewrite minus_IZR || rewrite plus_IZR); ring).
  reflexivity.
Qed.

(** Inside the frame, the circle drawn for a star is the set of pixels
    within [radius] of the star's position. *)
Lemma circle_covers_spec (shp : Z * Z) (x0 y0 radius : R) (r c : Z) :
  0 <= radius ->
  (0 <= r < fst shp)%Z -> (0 <= c < snd shp)%Z ->
  circle_covers shp x0 y0 radius r c <->
  (IZR c - x0) ^ 2 + (IZR r - y0) ^ 2 <= radius ^ 2.
Proof.
  intros Hrad Hr Hc. unfold circle_covers.
  rewrite add_circle_value by (lia || exact Hrad).
  replace (in_slice 0 (fst shp) r) with true by (symmetry; apply in_slice_true; lia).
  replace (in_slice 0 (snd shp) c) with true by (symmetry; apply in_slice_true; lia).
  cbn [andb].
  set (im_rad := int_of_float (radius + 1)).
  set (x0i := int_of_float x0). set (y0i := int_of_float y0).
  destruct (in_slice (y0i - im_rad) (y0i + im_rad + 1) r
            && in_slice (x0i - im_rad) (x0i + im_rad + 1) c) eqn:Ew.
  - rewrite b2r_nonzero, Rleb_true. reflexivity.
  - split; [intros H; exfalso; apply H; reflexivity|].
    intros Hin. exfalso.
    assert (Hdx : (IZR c - x0) ^ 2 <= radius ^ 2).
    { pose proof (pow2_ge_0 (IZR r - y0)). lra. }
    assert (Hdy : (IZR r - y0) ^ 2 <= radius ^ 2).
    { pose proof (pow2_ge_0 (IZR c - x0)). lra. }
    assert (Hax : - radius <= IZR c - x0 <= radius) by (split; nra).
    assert (Hay : - radius <= IZR r - y0 <= radius) by (split; nra).
    pose proof (int_of_float_close x0) as Cx. fold x0i in Cx.
    pose proof (int_of_float_close y0) as Cy. fold y0i in Cy.
    assert (Wx : (x0i - im_rad <= c < x0i + im_rad + 1)%Z).
    { split.
      - assert (H1 : (x0i - c <= im_rad)%Z)
          by (apply int_of_float_ge; [exact Hrad | rewrite minus_IZR; lra]).
        lia.
      - assert (H1 : (c - x0i <= im_rad)%Z)
          by (apply int_of_float_ge; [exact Hrad | rewrite minus_IZR; lra]).
        lia. }
    assert (Wy : (y0i - im_rad <= r < y0i + im_rad + 1)%Z).
    { split.
      - assert (H1 : (y0i - r <= im_rad)%Z)
          by (apply int_of_float_ge; [exact Hrad | rewrite minus_IZR; lra]).
        lia.
      - assert (H1 : (r - y0i <= im_rad)%Z)
          by (apply int_of_float_ge; [exact Hrad | rewrite minus_IZR; lra]).
        lia. }
    apply in_slice_true in Wx. apply in_slice_true in Wy.
    rewrite Wx, Wy in Ew. discriminate.
Qed.

(** *** The PSF mask *)

(** The value [add_psf_mask] adds at a pixel: 1 inside the window around
    the star's integer position where the footprint exceeds [level] times
    its peak, 0 elsewhere; it raises exactly when the footprint cannot be
    produced. *)
Lemma add_psf_mask_value (frame : Frame) (x0 y0 : R) (dxs dys : list R)
      (psf_mod : psf_model) (kmat : option (list R * list R * list R))
      (radius : Z) (level : R) :
  (0 <= fst (shape frame))%Z -> (0 <= snd (shape frame))%Z -> (0 <= radius)%Z ->
  let x0i := int_of_float x0 in
  let y0i := int_of_float y0 in
  let side := Z.to_nat (2 * radius + 1) in
  match star_frame_of (x0 - IZR x0i) (y0 - IZR y0i) dxs dys psf_mod kmat radius with
  | Raise e =>
      add_psf_mask frame x0 y0 dxs dys psf_mod kmat radius level = Raise e
  | Ok star_frame =>
      exists frame',
        add_psf_mask frame x0 y0 dxs dys psf_mod kmat radius level = Ok frame' /\
        shape frame' = shape frame /\
        forall r c,
          pix frame' r c
          = pix frame r c
            + (if (in_slice 0 (fst (shape frame)) r
                   && in_slice (y0i - radius) (y0i + radius + 1) r)
                  && (in_slice 0 (snd (shape frame)) c
                      && in_slice (x0i - radius) (x0i + radius + 1) c)
               then b2r (Rltb (level * arr_max side side star_frame)
                              (star_frame (r - y0i + radius)%Z (c - x0i + radius)%Z))
               else 0)
  end.
Proof.
  intros Hrows Hcols Hrad x0i y0i side.
  unfold add_psf_mask. fold x0i y0i.
  pose proof (find_inds_spec (snd (shape frame)) x0i radius Hcols Hrad) as Sx.
  pose proof (find_inds_spec (fst (shape frame)) y0i radius Hrows Hrad) as Sy.
  destruct (find_inds (snd (shape frame)) x0i radius) as [[[xi0 xi1] xj0] xj1].
  destruct (find_inds (fst (shape frame)) y0i radius) as [[[yi0 yi1] yj0] yj1].
  destruct (star_frame_of (x0 - IZR x0i) (y0 - IZR y0i) dxs dys psf_mod kmat radius)
    as [star_frame|e]; cbn [bind]; [|reflexivity].
  eexists. split; [reflexivity|]. split; [reflexivity|].
  intros r c. destruct (Sx c) as [Sx1 Sx2]. destruct (Sy r) as [Sy1 Sy2].
  rewrite slice_add_pix. f_equal. fold side.
  assert (Hb : in_slice yi0 yi1 r && in_slice xi0 xi1 c
               = (in_slice 0 (fst (shape frame)) r
                  && in_slice (y0i - radius) (y0i + radius + 1) r)
                 && (in_slice 0 (snd (shape frame)) c
                     && in_slice (x0i - radius) (x0i + radius + 1) c)).
  { apply eq_true_iff_eq. rewrite !andb_true_iff, Sx1, Sy1, !in_slice_true. lia. }
  rewrite <- Hb.
  destruct (in_slice yi0 yi1 r) eqn:Er; destruct (in_slice xi0 xi1 c) eqn:Ec;
    cbn [andb]; try reflexivity.
  rewrite (Sx2 eq_refl), (Sy2 eq_refl). reflexivity.
Qed.

Section psf_mask_facts.

Variables (shp : Z * Z) (work_cat : WorkCat.t) (psf_ids : list nat)
          (psfs : list psf_model) (skip : list nat) (kx ky : option (list R))
          (radius : Z) (level : R).
Hypothesis Hrows : (0 <= fst shp)%Z.
Hypothesis Hcols : (0 <= snd shp)%Z.
Hypothesis Hrad : (0 <= radius)%Z.

(** What star [n] adds to the mask frame at a pixel. *)
Let marked (n : nat) (r c : Z) : R :=
  match psf_mask_star (np_zeros shp) work_cat psf_ids psfs kx ky radius level n with
  | Ok f => pix f r c
  | Raise _ => 0
  end.

Lemma psf_mask_star_split (frame : Frame) (n : nat) :
  shape frame = shp ->
  match psf_mask_star (np_zeros shp) work_cat psf_ids psfs kx ky radius level n with
  | Raise e =>
      psf_mask_star frame work_cat psf_ids psfs kx ky radius level n = Raise e
  | Ok f0 =>
      exists frame',
        psf_mask_star frame work_cat psf_ids psfs kx ky radius level n = Ok frame' /\
        shape frame' = shp /\
        forall r c, pix frame' r c = pix frame r c + pix f0 r c /\ 0 <= pix f0 r c
  end.
Proof.
  intros Hshape. unfold psf_mask_star.
  destruct (choose_kmat kx ky (WorkCat.coeff work_cat) n) as [kmat|e];
    cbn [bind]; [|reflexivity].
  destruct (getitem (WorkCat.x work_cat) n) as [x_n|e]; cbn [bind]; [|reflexivity].
  destruct (getitem (WorkCat.y work_cat) n) as [y_n|e]; cbn [bind]; [|reflexivity].
  destruct (getitem (WorkCat.dxs work_cat) n) as [dxs_n|e]; cbn [bind]; [|reflexivity].
  destruct (getitem (WorkCat.dys work_cat) n) as [dys_n|e]; cbn [bind]; [|reflexivity].
  destruct (getitem psf_ids n) as [psf_id|e]; cbn [bind]; [|reflexivity].
  destruct (getitem psfs psf_id) as [psf_mod|e]; cbn [bind]; [|reflexivity].
  pose proof (add_psf_mask_value (np_zeros shp) x_n y_n dxs_n dys_n psf_mod kmat
                radius level Hrows Hcols Hrad) as H0.
  pose proof (add_psf_mask_value frame x_n y_n dxs_n dys_n psf_mod kmat
                radius level) as H1.
  rewrite Hshape in H1. specialize (H1 Hrows Hcols Hrad).
  cbv zeta in H0, H1. cbn [shape np_zeros] in H0.
  destruct (star_frame_of _ _ dxs_n dys_n psf_mod kmat radius) as [sf|e].
  - destruct H0 as (f0 & E0 & _ & P0). destruct H1 as (f1 & E1 & S1 & P1).
    rewrite E0. exists f1. split; [exact E1|]. split; [exact S1|].
    intros r c. rewrite P1, P0. cbn [pix np_zeros]. unfold zeros.
    destruct (_ && _).
    + pose proof (b2r_nonneg
                    (Rltb (level * arr_max (Z.to_nat (2 * radius + 1))
                                           (Z.to_nat (2 * radius + 1)) sf)
                          (sf (r - int_of_float y_n + radius)%Z
                              (c - int_of_float x_n + radius)%Z))).
      split; lra.
    + split; lra.
  - rewrite H0. exact H1.
Qed.

Lemma psf_mask_loop (l : list nat) :
  (forall n, In n l -> ~ In n skip ->
     exists f, psf_mask_star (np_zeros shp) work_cat psf_ids psfs kx ky
                             radius level n = Ok f) ->
  forall frame, shape frame = shp ->
  exists frame',
    for_each
      (fun frame n =>
         if existsb (Nat.eqb n) skip then Ok frame else
         psf_mask_star frame work_cat psf_ids psfs kx ky radius level n)
      l frame = Ok frame' /\
    shape frame' = shp /\
    forall r c,
      pix frame' r c
      = pix frame r c + Rsum (map (fun n => marked n r c) (unskipped skip l)).
Proof.
  induction l as [|n l IH]; intros Hl frame Hshape.
  - exists frame. split; [reflexivity|]. split; [exact Hshape|].
    intros r c. cbn [unskipped filter map]. rewrite Rsum_nil. lra.
  - assert (Hl' : forall m, In m l -> ~ In m skip ->
              exists f, psf_mask_star (np_zeros shp) work_cat psf_ids psfs kx ky
                                      radius level m = Ok f)
      by (intros m Hm; apply Hl; right; exact Hm).
    cbn [for_each]. unfold unskipped. cbn [filter]. fold (unskipped skip l).
    destruct (existsb (Nat.eqb n) skip) eqn:Eskip; cbn [negb bind].
    + apply IH; assumption.
    + assert (Hn : ~ In n skip).
      { intros Hin. assert (E : existsb (Nat.eqb n) skip = true).
        { apply existsb_exists. exists n. split; [exact Hin | apply Nat.eqb_refl]. }
        congruence. }
      destruct (Hl n (or_introl eq_refl) Hn) as [f0 Hf0].
      pose proof (psf_mask_star_split frame n Hshape) as Hsplit.
      assert (Hm : forall r c, marked n r c = pix f0 r c)
        by (intros r c; unfold marked; rewrite Hf0; reflexivity).
      rewrite Hf0 in Hsplit. destruct Hsplit as (f1 & E1 & S1 & P1).
      rewrite E1. cbn [bind].
      destruct (IH Hl' f1 S1) as (frame' & Hrun & Hshape' & Hpix).
      exists frame'. split; [exact Hrun|]. split; [exact Hshape'|].
      intros r c. rewrite Hpix. destruct (P1 r c) as [-> _].
      cbn [map]. rewrite Rsum_cons, Hm. lra.
Qed.

Lemma marked_nonneg (n : nat) (r c : Z) : 0 <= marked n r c.
Proof.
  unfold marked.
  pose proof (psf_mask_star_split (np_zeros shp) n eq_refl) as H.
  destruct (psf_mask_star (np_zeros shp) work_cat psf_ids psfs kx ky radius level n)
    as [f0|e]; [|lra].
  destruct H as (f1 & _ & _ & P). destruct (P r c) as [_ H0]. exact H0.
Qed.

Lemma make_bg_psf_mask_clean :
  (forall n, (n < WorkCat.catsize work_cat)%nat -> ~ In n skip ->
     exists f, psf_mask_star (np_zeros shp) work_cat psf_ids psfs kx ky
                             radius level n = Ok f) ->
  exists mask,
    make_bg_psf_mask shp work_cat psf_ids psfs skip kx ky radius level = Ok mask /\
    forall r c,
      mask r c = true <->
      forall n, (n < WorkCat.catsize work_cat)%nat -> ~ In n skip ->
                ~ psf_covers shp work_cat psf_ids psfs kx ky radius level n r c.
Proof.
  intros Hret. unfold make_bg_psf_mask.
  destruct (psf_mask_loop (range 0 (WorkCat.catsize work_cat)))
    with (frame := np_zeros shp) as (frame' & Hrun & _ & Hpix).
  { intros n Hn. unfold range in Hn. apply in_seq in Hn. apply Hret. lia. }
  { reflexivity. }
  rewrite Hrun. cbn [bind]. eexists. split; [reflexivity|].
  intros r c. rewrite Reqb_true, Hpix. cbn [np_zeros pix]. unfold zeros.
  rewrite Rplus_0_l, Rsum_nonneg_zero.
  - split.
    + intros H n Hn Hskip (f & Hf & Hcov). apply Hcov.
      assert (Hz : marked n r c = 0).
      { apply H. apply in_map_iff. exists n. split; [reflexivity|].
        apply unskipped_In. split; [|exact Hskip].
        unfold range. apply in_seq. lia. }
      unfold marked in Hz. rewrite Hf in Hz. exact Hz.
    + intros H v Hv. apply in_map_iff in Hv as (n & <- & Hn).
      apply unskipped_In in Hn as [Hn Hskip].
      unfold range in Hn. apply in_seq in Hn.
      destruct (Hret n ltac:(lia) Hskip) as [f Hf].
      unfold marked. rewrite Hf.
      destruct (Req_dec_T (pix f r c) 0) as [E|E]; [exact E|].
      exfalso. apply (H n ltac:(lia) Hskip). exists f. split; [exact Hf | exact E].
  - intros v Hv. apply in_map_iff in Hv as (n & <- & _). apply marked_nonneg.
Qed.

End psf_mask_facts.

(** Inside the frame, the region marked for a star is where its footprint,
    laid out on the window around the star's integer position, exceeds
    [level] times the peak of the whole footprint. *)
Lemma psf_covers_spec (shp : Z * Z) (work_cat : WorkCat.t) (psf_ids : list nat)
      (psfs : list psf_model) (kx ky : option (list R)) (radius : Z) (level : R)
      (n : nat) (r c : Z) :
  (0 <= radius)%Z -> (0 <= r < fst shp)%Z -> (0 <= c < snd shp)%Z ->
  psf_covers shp work_cat psf_ids psfs kx ky radius level n r c <->
  exists star_frame x0i y0i,
    star_footprint work_cat psf_ids psfs kx ky radius n = Ok (star_frame, x0i, y0i) /\
    (x0i - radius <= c <= x0i + radius)%Z /\
    (y0i - radius <= r <= y0i + radius)%Z /\
    level * arr_max (Z.to_nat (2 * radius + 1)) (Z.to_nat (2 * radius + 1)) star_frame
    < star_frame (r - y0i + radius)%Z (c - x0i + radius)%Z.
Proof.
  intros Hrad Hr Hc. unfold psf_covers, psf_mask_star, star_footprint.
  destruct (choose_kmat kx ky (WorkCat.coeff work_cat) n) as [kmat|e]; cbn [bind].
  2: { split; [intros (f & H & _) | intros (sf & a & b & H & _)]; discriminate. }
  destruct (getitem (WorkCat.x work_cat) n) as [x_n|e]; cbn [bind].
  2: { split; [intros (f & H & _) | intros (sf & a & b & H & _)]; discriminate. }
  destruct (getitem (WorkCat.y work_cat) n) as [y_n|e]; cbn [bind].
  2: { split; [intros (f & H & _) | intros (sf & a & b & H & _)]; discriminate. }
  destruct (getitem (WorkCat.dxs work_cat) n) as [dxs_n|e]; cbn [bind].
  2: { split; [intros (f & H & _) | intros (sf & a & b & H & _)]; discriminate. }
  destruct (getitem (WorkCat.dys work_cat) n) as [dys_n|e]; cbn [bind].
  2: { split; [intros (f & H & _) | intros (sf & a & b & H & _)]; discriminate. }
  destruct (getitem psf_ids n) as [psf_id|e]; cbn [bind].
  2: { split; [intros (f & H & _) | intros (sf & a & b & H & _)]; discriminate. }
  destruct (getitem psfs psf_id) as [psf_mod|e]; cbn [bind].
  2: { split; [intros (f & H & _) | intros (sf & a & b & H & _)]; discriminate. }
  pose proof (add_psf_mask_value (np_zeros shp) x_n y_n dxs_n dys_n psf_mod kmat
                radius level) as H0.
  cbn [shape np_zeros] in H0.
  specialize (H0 ltac:(lia) ltac:(lia) Hrad). cbv zeta in H0.
  destruct (star_frame_of _ _ dxs_n dys_n psf_mod kmat radius) as [sf|e]; cbn [bind].
  2: { rewrite H0.
       split; [intros (f & H & _) | intros (sf & a & b & H & _)]; discriminate. }
  destruct H0 as (f0 & E0 & _ & P0). rewrite E0.
  specialize (P0 r c). cbn [pix np_zeros] in P0. unfold zeros in P0.
  rewrite Rplus_0_l in P0.
  replace (in_slice 0 (fst shp) r) with true in P0
    by (symmetry; apply in_slice_true; lia).
  replace (in_slice 0 (snd shp) c) with true in P0
    by (symmetry; apply in_slice_true; lia).
  cbn [andb] in P0.
  set (x0i := int_of_float x_n) in *. set (y0i := int_of_float y_n) in *.
  split.
  - intros (f & Hf & Hne). injection Hf as <-. rewrite P0 in Hne.
    destruct (in_slice (y0i - radius) (y0i + radius + 1) r) eqn:Er;
      destruct (in_slice (x0i - radius) (x0i + radius + 1) c) eqn:Ec;
      cbn [andb] in Hne; try (exfalso; apply Hne; reflexivity).
    apply in_slice_true in Er, Ec. apply b2r_nonzero, Rltb_true in Hne.
    exists sf, x0i, y0i. split; [reflexivity|].
    split; [lia|]. split; [lia | exact Hne].
  - intros (sf' & a & b & Heq & Wx & Wy & Hlt).
    injection Heq as <- <- <-.
    exists f0. split; [reflexivity|]. rewrite P0.
    replace (in_slice (y0i - radius) (y0i + radius + 1) r) with true
      by (symmetry; apply in_slice_true; lia).
    replace (in_slice (x0i - radius) (x0i + radius + 1) c) with true
      by (symmetry; apply in_slice_true; lia).
    cbn [andb]. apply b2r_nonzero, Rltb_true. exact Hlt.
Qed.

(** C10 -- both background-star masks are True on clean pixels and False
    on contaminated ones, for a frame with non-negative sides and a
    non-negative radius.  [make_bg_circ_mask] is True exactly at the
    pixels that the circle drawn by [add_circle] for no non-skipped star
    covers, and inside the frame that circle is the set of pixels within
    [radius] of the star's position.  [make_bg_psf_mask] is True exactly
    at the pixels that the region marked by [add_psf_mask] for no
    non-skipped star covers, and inside the frame that region is where the
    star's rendered footprint exceeds [level] times the footprint's own
    peak. *)
Theorem bg_masks_true_on_clean_pixels :
  (forall shp work_cat skip radius,
      (0 <= fst shp)%Z -> (0 <= snd shp)%Z -> 0 <= radius ->
      (WorkCat.catsize work_cat <= length (WorkCat.x work_cat))%nat ->
      (WorkCat.catsize work_cat <= length (WorkCat.y work_cat))%nat ->
      exists mask,
        make_bg_circ_mask shp work_cat skip radius = Ok mask /\
        forall r c,
          mask r c = true <->
          forall n, (n < WorkCat.catsize work_cat)%nat -> ~ In n skip ->
                    ~ circle_covers shp (nth n (WorkCat.x work_cat) 0)
                                    (nth n (WorkCat.y work_cat) 0) radius r c) /\
  (forall shp x0 y0 radius r c,
      0 <= radius -> (0 <= r < fst shp)%Z -> (0 <= c < snd shp)%Z ->
      circle_covers shp x0 y0 radius r c <->
      (IZR c - x0) ^ 2 + (IZR r - y0) ^ 2 <= radius ^ 2) /\
  (forall shp work_cat psf_ids psfs skip kx ky radius level,
      (0 <= fst shp)%Z -> (0 <= snd shp)%Z -> (0 <= radius)%Z ->
      (forall n, (n < WorkCat.catsize work_cat)%nat -> ~ In n skip ->
         exists f, psf_mask_star (np_zeros shp) work_cat psf_ids psfs kx ky
                                 radius level n = Ok f) ->
      exists mask,
        make_bg_psf_mask shp work_cat psf_ids psfs skip kx ky radius level
        = Ok mask /\
        forall r c,
          mask r c = true <->
          forall n, (n < WorkCat.catsize work_cat)%nat -> ~ In n skip ->
                    ~ psf_covers shp work_cat psf_ids psfs kx ky radius level n r c) /\
  (forall shp work_cat psf_ids psfs kx ky radius level n r c,
      (0 <= radius)%Z -> (0 <= r < fst shp)%Z -> (0 <= c < snd shp)%Z ->
      psf_covers shp work_cat psf_ids psfs kx ky radius level n r c <->
      exists star_frame x0i y0i,
        star_footprint work_cat psf_ids psfs kx ky radius n
        = Ok (star_frame, x0i, y0i) /\
        (x0i - radius <= c <= x0i + radius)%Z /\
        (y0i - radius <= r <= y0i + radius)%Z /\
        level * arr_max (Z.to_nat (2 * radius + 1)) (Z.to_nat (2 * radius + 1))
                        star_frame
        < star_frame (r - y0i + radius)%Z (c - x0i + radius)%Z).
Proof.
  split.
  { intros shp work_cat skip radius _ _ _. apply make_bg_circ_mask_clean. }
  split; [exact circle_covers_spec|].
  split; [|exact psf_covers_spec].
  intros shp work_cat psf_ids psfs skip kx ky radius level Hrows Hcols Hrad.
  apply make_bg_psf_mask_clean; assumption.
Qed.

Lemma psf_mask_one_star_returns (shp : Z * Z) (n : nat) :
  (n < WorkCat.catsize one_star_cat)%nat -> ~ In n [] ->
  exists f,
    psf_mask_star (np_zeros shp) one_star_cat [0%nat] [unit_psf] None None 25 0.1 n
    = Ok f.
Proof.
  intros Hn _. assert (n = 0%nat) by (cbn in Hn; lia). subst n.
  unfold psf_mask_star, one_star_cat, WorkCat.init.
  cbn [getitem nth_error bind WorkCat.coeff WorkCat.x WorkCat.y
       WorkCat.dxs WorkCat.dys length repeat choose_kmat].
  unfold add_psf_mask.
  destruct (find_inds _ _ _) as [[[xi0 xi1] xj0] xj1].
  destruct (find_inds _ _ _) as [[[yi0 yi1] yj0] yj1].
  eexists. reflexivity.
Qed.

Lemma bg_masks_true_on_clean_pixels_witness :
  (exists mask,
      make_bg_circ_mask (50, 50)%Z one_star_cat [] 20 = Ok mask /\
      forall r c,
        mask r c = true <->
        forall n, (n < WorkCat.catsize one_star_cat)%nat -> ~ In n [] ->
                  ~ circle_covers (50, 50)%Z (nth n (WorkCat.x one_star_cat) 0)
                                  (nth n (WorkCat.y one_star_cat) 0) 20 r c) /\
  (exists mask,
      make_bg_psf_mask (50, 50)%Z one_star_cat [0%nat] [unit_psf] [] None None 25 0.1
      = Ok mask /\
      forall r c,
        mask r c = true <->
        forall n, (n < WorkCat.catsize one_star_cat)%nat -> ~ In n [] ->
                  ~ psf_covers (50, 50)%Z one_star_cat [0%nat] [unit_psf] None None
                               25 0.1 n r c).
Proof.
  split.
  - apply (proj1 bg_masks_true_on_clean_pixels);
      [cbn; lia | cbn; lia | lra | cbn; lia | cbn; lia].
  - apply (proj1 (proj2 (proj2 bg_masks_true_on_clean_pixels)));
      [cbn; lia | cbn; lia | lia | apply psf_mask_one_star_returns].
Defined.

(* ================================================================= *)
(** * Part III: further properties of the code *)
(* ================================================================= *)

(** ** Geometry *)

(** X1 -- [rotate_position] preserves the distance of a position from the
    origin (the target): the squared norm of the rotated position is that
    of the position. *)
Theorem rotate_position_preserves_norm :
  forall x y rolldeg,
    fst (rotate_position x y rolldeg) ^ 2 + snd (rotate_position x y rolldeg) ^ 2
    = x ^ 2 + y ^ 2.
Proof.
  intros x y rolldeg. unfold rotate_position. cbn [fst snd].
  set (a := deg2rad rolldeg). pose proof (sin_cos_one a) as H.
  replace ((x * cos a + y * sin a) ^ 2 + (- x * sin a + y * cos a) ^ 2)
    with ((x ^ 2 + y ^ 2) * (sin a * sin a + cos a * cos a)) by ring.
  rewrite H. ring.
Qed.

Lemma deg2rad_plus (a b : R) : deg2rad (a + b) = deg2rad a + deg2rad b.
Proof. unfold deg2rad. ring. Qed.

Lemma deg2rad_360 : deg2rad 360 = 2 * PI.
Proof. unfold deg2rad. field. Qed.

Lemma rotate_position_plus (x y a b : R) :
  rotate_position (fst (rotate_position x y a)) (snd (rotate_position x y a)) b
  = rotate_position x y (a + b).
Proof.
  unfold rotate_position. cbn [fst snd].
  rewrite deg2rad_plus, cos_plus, sin_plus. f_equal; ring.
Qed.

(** X2 -- rotations by roll angles act as a group on positions: the zero
    angle is the identity, rotating by [a] and then by [b] is rotating by
    [a + b], a full turn of 360 degrees changes nothing, and rotating a
    de-rotated position gives the position back. *)
Theorem rotate_position_group_action :
  (forall x y, rotate_position x y 0 = (x, y)) /\
  (forall x y a b,
      rotate_position (fst (rotate_position x y a))
                      (snd (rotate_position x y a)) b
      = rotate_position x y (a + b)) /\
  (forall x y a, rotate_position x y (a + 360) = rotate_position x y a) /\
  (forall x y rolldeg,
      rotate_position (fst (derotate_position x y rolldeg))
                      (snd (derotate_position x y rolldeg)) rolldeg = (x, y)).
Proof.
  assert (H0 : forall x y, rotate_position x y 0 = (x, y)).
  { intros x y. unfold rotate_position. rewrite deg2rad_0, cos_0, sin_0.
    f_equal; ring. }
  split; [exact H0|]. split; [exact rotate_position_plus|]. split.
  - intros x y a. unfold rotate_position.
    rewrite deg2rad_plus, deg2rad_360, cos_plus, sin_plus, cos_2PI, sin_2PI.
    f_equal; ring.
  - intros x y rolldeg. unfold derotate_position.
    rewrite rotate_position_plus.
    replace (- rolldeg + rolldeg) with 0 by ring. apply H0.
Qed.

(** ** Rotating the catalogue *)

Lemma rotate_position_arr_nth (x y : list R) (rolldeg : R) (n : nat) :
  length x = length y -> (n < length x)%nat ->
  (nth n (fst (rotate_position_arr x y rolldeg)) 0,
   nth n (snd (rotate_position_arr x y rolldeg)) 0)
  = rotate_position (nth n x 0) (nth n y 0) rolldeg.
Proof.
  intros Hlen Hn. unfold rotate_position_arr, rotate_position. cbn [fst snd].
  rewrite !(nth_map_lt _ _ n 0 (0, 0)) by (rewrite length_combine; lia).
  rewrite combine_nth by exact Hlen. reflexivity.
Qed.

Lemma rotate_position_arr_len (x y : list R) (rolldeg : R) :
  length x = length y ->
  length (fst (rotate_position_arr x y rolldeg)) = length x.
Proof.
  intros Hlen. unfold rotate_position_arr. cbn [fst].
  rewrite length_map, length_combine. lia.
Qed.

(** X3 -- [rotate_cat] without [maxrad] keeps every star, in order, and
    only turns it around the target: the two returned arrays have the
    length of the catalogue, entry [n] is the rotation of star [n], at the
    same distance from the target, and it is what [rotate_entry] returns
    for that star. *)
Theorem rotate_cat_keeps_stars :
  forall self rolldeg,
    length (star_bg.xpos self) = length (star_bg.ypos self) ->
    let xy := star_bg.rotate_cat self rolldeg None in
    length (fst xy) = length (star_bg.xpos self) /\
    length (snd xy) = length (star_bg.xpos self) /\
    forall n, (n < length (star_bg.xpos self))%nat ->
      (nth n (fst xy) 0, nth n (snd xy) 0)
      = rotate_position (nth n (star_bg.xpos self) 0)
                        (nth n (star_bg.ypos self) 0) rolldeg /\
      nth n (fst xy) 0 ^ 2 + nth n (snd xy) 0 ^ 2
      = nth n (star_bg.xpos self) 0 ^ 2 + nth n (star_bg.ypos self) 0 ^ 2 /\
      rotate_entry self n rolldeg = Ok (nth n (fst xy) 0, nth n (snd xy) 0).
Proof.
  intros self rolldeg Hlen xy. unfold xy, star_bg.rotate_cat.
  pose proof (rotate_position_arr_len _ _ rolldeg Hlen) as L1.
  split; [exact L1|].
  split; [rewrite <- rotate_position_arr_length; exact L1|].
  intros n Hn.
  pose proof (rotate_position_arr_nth _ _ rolldeg n Hlen Hn) as Hnth.
  split; [exact Hnth|]. split.
  - pose proof (f_equal fst Hnth) as Hx. pose proof (f_equal snd Hnth) as Hy.
    cbn [fst snd] in Hx, Hy. rewrite Hx, Hy.
    apply rotate_position_preserves_norm.
  - unfold rotate_entry.
    rewrite (getitem_nth _ n 0 Hn), (getitem_nth _ n 0) by lia.
    cbn [bind]. rewrite Hnth. reflexivity.
Qed.

Lemma rotate_cat_keeps_stars_witness :
  length (star_bg.xpos example_star_bg) = length (star_bg.ypos example_star_bg) /\
  length (fst (star_bg.rotate_cat example_star_bg 30 None))
  = length (star_bg.xpos example_star_bg).
Proof.
  split; [reflexivity|].
  exact (proj1 (rotate_cat_keeps_stars example_star_bg 30 eq_refl)).
Defined.

Lemma bisect_left_spec (a : list R) (v : R) :
  nondecreasing a ->
  forall fuel lo hi,
    (lo <= hi)%nat -> (hi <= length a)%nat -> (hi - lo <= fuel)%nat ->
    (forall i, (i < lo)%nat -> nth i a 0 < v) ->
    (forall i, (hi <= i)%nat -> (i < length a)%nat -> v <= nth i a 0) ->
    let k := bisect_left fuel a v lo hi in
    (k <= length a)%nat /\
    (forall i, (i < k)%nat -> nth i a 0 < v) /\
    (forall i, (k <= i)%nat -> (i < length a)%nat -> v <= nth i a 0).
Proof.
  intros Hsorted. induction fuel as [|fuel IH]; intros lo hi Hlh Hhi Hfuel Hlo Hup.
  - cbn [bisect_left]. assert (lo = hi) by lia. subst hi.
    split; [lia|]. split; assumption.
  - cbn [bisect_left]. destruct (lo <? hi)%nat eqn:E.
    + apply Nat.ltb_lt in E.
      set (mid := (lo + (hi - lo) / 2)%nat).
      assert (Hmid : (lo <= mid < hi)%nat).
      { unfold mid. split; [lia|].
        assert ((hi - lo) / 2 < hi - lo)%nat by (apply Nat.div_lt; lia). lia. }
      destruct (Rltb (nth mid a 0) v) eqn:Ev.
      * apply Rltb_true in Ev. apply IH; try lia.
        -- intros i Hi. assert (nth i a 0 <= nth mid a 0) by (apply Hsorted; lia). lra.
        -- exact Hup.
      * apply Rltb_false in Ev. apply IH; try lia.
        -- exact Hlo.
        -- intros i Hi Hi'. assert (nth mid a 0 <= nth i a 0) by (apply Hsorted; lia). lra.
    + apply Nat.ltb_ge in E. assert (lo = hi) by lia. subst hi.
      split; [lia|]. split; assumption.
Qed.

Lemma searchsorted_spec (a : list R) (v : R) :
  nondecreasing a ->
  (searchsorted a v <= length a)%nat /\
  (forall i, (i < searchsorted a v)%nat -> nth i a 0 < v) /\
  (forall i, (searchsorted a v <= i)%nat -> (i < length a)%nat -> v <= nth i a 0).
Proof.
  intros Hsorted. unfold searchsorted.
  apply (bisect_left_spec a v Hsorted (length a) 0%nat (length a)); lia.
Qed.

(** X4 -- on a catalogue sorted by distance from the target, [rotate_cat]
    with [maxrad] keeps exactly the leading stars that lie strictly within
    [maxrad]: every kept star has squared distance below [maxrad**2], every
    dropped one has it at or above, and the kept stars are rotated like
    the others. *)
Theorem rotate_cat_maxrad_cut :
  forall self rolldeg maxrad,
    length (star_bg.xpos self) = length (star_bg.ypos self) ->
    nondecreasing (r2_of self) ->
    let xy := star_bg.rotate_cat self rolldeg (Some maxrad) in
    let Nmax := length (fst xy) in
    (Nmax <= length (star_bg.xpos self))%nat /\
    length (snd xy) = Nmax /\
    (forall n, (n < Nmax)%nat ->
       nth n (star_bg.xpos self) 0 ^ 2 + nth n (star_bg.ypos self) 0 ^ 2
       < maxrad ^ 2 /\
       (nth n (fst xy) 0, nth n (snd xy) 0)
       = rotate_position (nth n (star_bg.xpos self) 0)
                         (nth n (star_bg.ypos self) 0) rolldeg) /\
    (forall n, (Nmax <= n)%nat -> (n < length (star_bg.xpos self))%nat ->
       maxrad ^ 2
       <= nth n (star_bg.xpos self) 0 ^ 2 + nth n (star_bg.ypos self) 0 ^ 2).
Proof.
  intros self rolldeg maxrad Hlen Hsorted xy Nmax.
  pose proof (searchsorted_spec (r2_of self) (maxrad ^ 2) Hsorted) as (Hk & Hlo & Hup).
  set (k := searchsorted (r2_of self) (maxrad ^ 2)) in *.
  assert (Lr2 : length (r2_of self) = length (star_bg.xpos self))
    by (unfold r2_of; rewrite length_map, length_combine; lia).
  assert (Hr2 : forall n, (n < length (star_bg.xpos self))%nat ->
             nth n (r2_of self) 0
             = nth n (star_bg.xpos self) 0 ^ 2 + nth n (star_bg.ypos self) 0 ^ 2).
  { intros n Hn. unfold r2_of.
    rewrite (nth_map_lt _ _ n 0 (0, 0)) by (rewrite length_combine; lia).
    rewrite combine_nth by exact Hlen. reflexivity. }
  assert (Hxy : xy = rotate_position_arr (firstn k (star_bg.xpos self))
                                         (firstn k (star_bg.ypos self)) rolldeg)
    by reflexivity.
  assert (Lf : length (firstn k (star_bg.xpos self))
               = length (firstn k (star_bg.ypos self)))
    by (rewrite !length_firstn; lia).
  assert (HN : Nmax = k).
  { unfold Nmax. rewrite Hxy, rotate_position_arr_len by exact Lf.
    rewrite length_firstn. lia. }
  split; [lia|]. split.
  { rewrite Hxy, <- rotate_position_arr_length. fold xy. rewrite <- Hxy. reflexivity. }
  split.
  - intros n Hn. split.
    + rewrite <- Hr2 by lia. apply Hlo. lia.
    + rewrite Hxy, rotate_position_arr_nth
        by (rewrite ?length_firstn; lia).
      rewrite !nth_firstn. replace (n <? k)%nat with true by (symmetry; apply Nat.ltb_lt; lia).
      reflexivity.
  - intros n Hn Hn'. rewrite <- Hr2 by lia. apply Hup; lia.
Qed.

Lemma rotate_cat_maxrad_cut_witness :
  length (star_bg.xpos example_star_bg) = length (star_bg.ypos example_star_bg) /\
  nondecreasing (r2_of example_star_bg) /\
  (length (fst (star_bg.rotate_cat example_star_bg 30%R (Some 10%R)))
   <= length (star_bg.xpos example_star_bg))%nat.
Proof.
  assert (Hs : nondecreasing (r2_of example_star_bg)).
  { intros i j Hij Hj. cbn in Hj.
    assert (Hc : ((i = 0 /\ j = 0) \/ (i = 0 /\ j = 1) \/ (i = 1 /\ j = 1))%nat) by lia.
    destruct Hc as [[-> ->] | [[-> ->] | [-> ->]]]; cbn; lra. }
  split; [reflexivity|]. split; [exact Hs|].
  exact (proj1 (rotate_cat_maxrad_cut example_star_bg 30 10 eq_refl Hs)).
Defined.

(** ** Windowing *)

(** X5 -- what the four indices of [find_inds] mean, for a frame axis of
    length [x_len >= 0] and a window of radius [radius >= 0] centred on
    [x]: both slices are in range and equally long; the destination slice
    [i0:i1] holds exactly the frame positions that fall in the window
    [x - radius, x + radius]; and each of them is paired with its own
    offset [c - (x - radius)] in the window. *)
Theorem find_inds_pairs_frame_and_window :
  forall x_len x radius,
    (0 <= x_len)%Z -> (0 <= radius)%Z ->
    let '(i0, i1, j0, j1) := find_inds x_len x radius in
    ((0 <= i0 <= i1)%Z /\ (i1 <= x_len)%Z /\
     (0 <= j0 <= j1)%Z /\ (j1 <= 2 * radius + 1)%Z /\
     (i1 - i0 = j1 - j0)%Z) /\
    forall c,
      ((i0 <= c < i1)%Z <->
       (0 <= c < x_len)%Z /\ (x - radius <= c <= x + radius)%Z) /\
      ((i0 <= c < i1)%Z -> (c - i0 + j0 = c - x + radius)%Z).
Proof.
  intros x_len x radius Hl Hr.
  pose proof (find_inds_slices x_len x radius Hl Hr) as H1.
  pose proof (find_inds_spec x_len x radius Hl Hr) as H2.
  destruct (find_inds x_len x radius) as [[[i0 i1] j0] j1].
  split; [exact H1|].
  intros c. destruct (H2 c) as [Ha Hb].
  rewrite in_slice_true in Ha. split; [exact Ha|].
  intros Hc. apply Hb. apply in_slice_true. exact Hc.
Qed.

Lemma find_inds_pairs_frame_and_window_witness :
  (0 <= 10)%Z /\ (0 <= 3)%Z /\
  forall c,
    ((6 <= c < 10)%Z <-> (0 <= c < 10)%Z /\ (9 - 3 <= c <= 9 + 3)%Z) /\
    ((6 <= c < 10)%Z -> (c - 6 + 0 = c - 9 + 3)%Z).
Proof.
  assert (H1 : (0 <= 10)%Z) by lia.
  assert (H2 : (0 <= 3)%Z) by lia.
  split; [exact H1|]. split; [exact H2|].
  exact (proj2 (find_inds_pairs_frame_and_window 10 9 3 H1 H2)).
Defined.

(** X6 -- [find_area_inds] on a frame with positive sides and a positive
    radius: it returns [None] exactly when the half-open window
    [int(x) - radius, int(x) + radius) misses the columns or the one
    around [int(y)] misses the rows; otherwise the ranges it returns are
    these windows clipped to the frame, and they are non-empty and in
    range. *)
Theorem find_area_inds_clips_window :
  forall x y shp radius,
    (0 < radius)%Z -> (0 < fst shp)%Z -> (0 < snd shp)%Z ->
    let i := int_of_float x in
    let j := int_of_float y in
    (find_area_inds x y shp radius = None <->
     (snd shp <= i - radius)%Z \/ (i + radius <= 0)%Z \/
     (fst shp <= j - radius)%Z \/ (j + radius <= 0)%Z) /\
    (forall i0 i1 j0 j1,
        find_area_inds x y shp radius = Some (i0, i1, j0, j1) ->
        i0 = Z.max (i - radius) 0 /\ i1 = Z.min (i + radius) (snd shp) /\
        j0 = Z.max (j - radius) 0 /\ j1 = Z.min (j + radius) (fst shp) /\
        (0 <= i0 < i1)%Z /\ (i1 <= snd shp)%Z /\
        (0 <= j0 < j1)%Z /\ (j1 <= fst shp)%Z).
Proof.
  intros x y shp radius Hr Hrows Hcols i j.
  unfold find_area_inds. fold i j.
  destruct (i - radius >=? snd shp)%Z eqn:E1.
  { split; [split; [intros _; lia | reflexivity] | intros; discriminate]. }
  destruct (i + radius <=? 0)%Z eqn:E2.
  { split; [split; [intros _; lia | reflexivity] | intros; discriminate]. }
  destruct (j - radius >=? fst shp)%Z eqn:E3.
  { split; [split; [intros _; lia | reflexivity] | intros; discriminate]. }
  destruct (j + radius <=? 0)%Z eqn:E4.
  { split; [split; [intros _; lia | reflexivity] | intros; discriminate]. }
  split.
  - split; [intros H; discriminate | intros H; exfalso; lia].
  - intros i0 i1 j0 j1 [= <- <- <- <-]. lia.
Qed.

Lemma find_area_inds_clips_window_witness :
  (0 < 25)%Z /\ (0 < fst (200, 100)%Z)%Z /\ (0 < snd (200, 100)%Z)%Z /\
  (find_area_inds 0 0 (200, 100)%Z 25 = None <->
   (snd (200, 100)%Z <= int_of_float 0 - 25)%Z \/ (int_of_float 0 + 25 <= 0)%Z \/
   (fst (200, 100)%Z <= int_of_float 0 - 25)%Z \/ (int_of_float 0 + 25 <= 0)%Z).
Proof.
  assert (H1 : (0 < 25)%Z) by lia.
  assert (H2 : (0 < fst (200, 100)%Z)%Z) by (cbn; lia).
  assert (H3 : (0 < snd (200, 100)%Z)%Z) by (cbn; lia).
  split; [exact H1|]. split; [exact H2|]. split; [exact H3|].
  exact (proj1 (find_area_inds_clips_window 0 0 (200, 100)%Z 25 H1 H2 H3)).
Defined.

(** ** Adaptive radius *)

(** X7 -- the two plateaus of [psf_radii]: the radius is the minimum 25
    exactly for flux scales up to 1e-4, and the maximum 100 exactly for
    flux scales above 0.098668, so already a little below 0.1. *)
Theorem psf_radii_plateaus :
  (forall f, psf_radii f = 25%Z <-> f <= 1e-4) /\
  (forall f, psf_radii f = 100%Z <-> 0.098668 < f).
Proof.
  split; intros f; unfold psf_radii;
    set (radii := 25 + 75 * (f - 1e-4) / (1e-1 - 1e-4));
    pose proof (Rceil_bounds (Rmin (Rmax radii 25) 100)) as Hb.
  - split.
    + intros H. rewrite H in Hb.
      destruct (Rle_dec f 1e-4) as [Hf|Hf]; [exact Hf | exfalso].
      apply Rnot_le_lt in Hf.
      assert (Hr : 25 < radii) by (unfold radii; lra).
      destruct (Rle_dec radii 100) as [Hh|Hh].
      * rewrite Rmax_left, Rmin_left in Hb by lra. lra.
      * rewrite Rmax_left, Rmin_right in Hb by lra. lra.
    + intros Hf. assert (Hr : radii <= 25) by (unfold radii; lra).
      rewrite Rmax_right, Rmin_left by lra. apply (Rceil_IZR 25).
  - split.
    + intros H. rewrite H in Hb.
      destruct (Rlt_dec 0.098668 f) as [Hf|Hf]; [exact Hf | exfalso].
      apply Rnot_lt_le in Hf.
      assert (Hr : radii <= 99) by (unfold radii; lra).
      destruct (Rle_dec radii 25) as [Hh|Hh].
      * rewrite Rmax_right, Rmin_left in Hb by lra. lra.
      * rewrite Rmax_left, Rmin_left in Hb by lra. lra.
    + intros Hf. assert (Hr : 99 < radii) by (unfold radii; lra).
      destruct (Rle_dec radii 100) as [Hh|Hh].
      * rewrite Rmax_left, Rmin_left by lra. apply Rceil_unique. lra.
      * rewrite Rmax_left, Rmin_right by lra. apply (Rceil_IZR 100).
Qed.

(** ** Catalogue ingestion *)




Lemma mask_select_length {A : Type} (sel : list bool) (v : list A) :
  length sel = length v ->
  length (mask_select sel v) = length (filter (fun b => b) sel).
Proof.
  unfold mask_select. revert v.
  induction sel as [|b sel IH]; intros [|a v] Hlen; try discriminate.
  - reflexivity.
  - injection Hlen as Hlen. cbn [combine filter fst].
    destruct b; cbn [map length]; rewrite (IH v Hlen); reflexivity.
Qed.

(** X9 -- the five arrays [read_starcat] returns stay parallel: when the
    columns it reads have one common length, the positions, flux scales,
    temperatures and identifiers returned all have the same length, one
    entry per surviving star. *)
Theorem read_starcat_arrays_parallel :
  forall pxl_scl cat maxrad fscalemin name mag RA DEC T_EFF ID
         dx dy fscale Teff gaiaID,
    mag_column cat = Some name ->
    column cat name = Ok mag ->
    column cat "RA" = Ok RA -> column cat "DEC" = Ok DEC ->
    column cat "T_EFF" = Ok T_EFF -> column cat "ID" = Ok ID ->
    length RA = length mag -> length DEC = length mag ->
    length T_EFF = length mag -> length ID = length mag ->
    star_bg.read_starcat pxl_scl cat maxrad fscalemin
    = Ok (dx, dy, fscale, Teff, gaiaID) ->
    length dx = length fscale /\ length dy = length fscale /\
    length Teff = length fscale /\ length gaiaID = length fscale /\
    (length fscale <= length mag)%nat.
Proof.
  intros pxl_scl cat maxrad fscalemin name mag RA DEC T_EFF ID
         dx dy fscale Teff gaiaID
         Hname Hmag HRA HDEC HT HID LRA LDEC LT LID Hrun.
  unfold star_bg.read_starcat in Hrun.
  apply bind_Ok_inv in Hrun as (N & _ & Hrun).
  apply bind_Ok_inv in Hrun as (fs & Hfs & Hrun).
  assert (Hfsv : exists mag0,
             fs = map (fun m => Rpower 10 (- 0.4 * (m - mag0))) (firstn N mag)).
  { unfold mag_column in Hname.
    destruct (has_column cat "MAG_CHEOPS") eqn:E1;
      [| destruct (has_column cat "MAG_GAIA") eqn:E2; [|discriminate]];
      injection Hname as <-; rewrite Hmag in Hfs; cbn [bind] in Hfs;
      apply bind_Ok_inv in Hfs as (mag0 & _ & Hfs);
      injection Hfs as <-; exists mag0; reflexivity. }
  destruct Hfsv as [mag0 ->].
  rewrite HRA in Hrun. cbn [bind] in Hrun.
  apply bind_Ok_inv in Hrun as (RA0 & _ & Hrun).
  rewrite HDEC in Hrun. cbn [bind] in Hrun.
  apply bind_Ok_inv in Hrun as (DEC0 & _ & Hrun).
  rewrite HT in Hrun. cbn [bind] in Hrun.
  rewrite HID in Hrun. cbn [bind] in Hrun.
  injection Hrun as <- <- <- <- <-.
  rewrite !mask_select_length
    by (rewrite !length_map, !length_firstn; lia).
  repeat split; try reflexivity.
  pose proof (filter_length_le (fun b : bool => b)
                (map (fun f => Rltb fscalemin f)
                     (map (fun m => Rpower 10 (- 0.4 * (m - mag0))) (firstn N mag))))
    as Hle.
  rewrite !length_map, length_firstn in Hle. lia.
Qed.

Lemma read_starcat_arrays_parallel_witness :
  exists dx dy fscale Teff gaiaID,
    star_bg.read_starcat 1.01 example_table None 1e-5
    = Ok (dx, dy, fscale, Teff, gaiaID) /\
    length dx = length fscale.
Proof.
  destruct (read_starcat_flux 1.01 example_table None 1e-5
              "MAG_GAIA"%string 2%nat [9; 12] [10; 10.01] [20; 20.01]
              [5500; 4000] [1; 2] 9 10 20
              eq_refl eq_refl eq_refl eq_refl eq_refl eq_refl eq_refl eq_refl
              eq_refl eq_refl)
    as (dx & dy & fscale & Teff & gaiaID & Hrun & _).
  exists dx, dy, fscale, Teff, gaiaID. split; [exact Hrun|].
  exact (proj1 (read_starcat_arrays_parallel 1.01 example_table None 1e-5
                  "MAG_GAIA"%string [9; 12] [10; 10.01] [20; 20.01]
                  [5500; 4000] [1; 2] dx dy fscale Teff gaiaID
                  eq_refl eq_refl eq_refl eq_refl eq_refl eq_refl
                  eq_refl eq_refl eq_refl eq_refl Hrun)).
Defined.



(** ** Selecting bright neighbours: [bright_star_ids] *)

Lemma dist_of_length (self : star_bg.t) :
  consistent_catalogue self -> length (dist_of self) = star_bg.catsize self.
Proof.
  intros (Hf & Hx & Hy). unfold dist_of. rewrite length_map, length_combine. lia.
Qed.

Lemma bright_star_loop_spec (self : star_bg.t) (limflux outradius inradius : R) :
  consistent_catalogue self ->
  forall len k ids,
    (k + len <= star_bg.catsize self)%nat ->
    exists m,
      (k <= m <= k + len)%nat /\
      bright_star_loop self limflux outradius inradius (dist_of self)
                       (seq k len) ids
      = Ok (ids ++ filter (bright_and_near self limflux outradius inradius)
                          (seq k (m - k))) /\
      (forall n, (k <= n < m)%nat ->
                 ~ bright_and_beyond self limflux outradius inradius n) /\
      ((m < k + len)%nat ->
       bright_and_beyond self limflux outradius inradius m).
Proof.
  intros Hwf. pose proof (dist_of_length self Hwf) as Ld.
  destruct Hwf as (Hf & Hx & Hy).
  induction len as [|len IH]; intros k ids Hk.
  - exists k. split; [lia|]. split.
    + cbn [seq bright_star_loop]. rewrite Nat.sub_diag. cbn [seq filter].
      rewrite app_nil_r. reflexivity.
    + split; intros; lia.
  - cbn [seq bright_star_loop].
    rewrite (getitem_nth _ k 0) by lia. cbn [bind].
    destruct (Rltb (nth k (star_bg.fscale self) 0) limflux) eqn:E1.
    { destruct (IH (S k) ids ltac:(lia)) as (m & Hm & Hrun & Hno & Hstop).
      exists m. split; [lia|]. split.
      - rewrite Hrun. do 2 f_equal.
        replace (m - k)%nat with (S (m - S k)) by lia.
        cbn [seq filter]. unfold bright_and_near at 2. rewrite E1. reflexivity.
      - split.
        + intros n Hn. destruct (Nat.eq_dec n k) as [-> | Hne].
          * intros (Hb & _). apply Rltb_true in E1. contradiction.
          * apply Hno. lia.
        + intros Hlt. apply Hstop. lia. }
    rewrite (getitem_nth _ k 0) by lia. cbn [bind].
    destruct (Rltb (nth k (dist_of self) 0) inradius) eqn:E2.
    { destruct (IH (S k) ids ltac:(lia)) as (m & Hm & Hrun & Hno & Hstop).
      exists m. split; [lia|]. split.
      - rewrite Hrun. do 2 f_equal.
        replace (m - k)%nat with (S (m - S k)) by lia.
        cbn [seq filter]. unfold bright_and_near at 2. rewrite E1, E2.
        reflexivity.
      - split.
        + intros n Hn. destruct (Nat.eq_dec n k) as [-> | Hne].
          * intros (_ & Hb & _). apply Rltb_true in E2. contradiction.
          * apply Hno. lia.
        + intros Hlt. apply Hstop. lia. }
    destruct (Rltb outradius (nth k (dist_of self) 0)) eqn:E3.
    { exists k. split; [lia|]. split.
      - rewrite Nat.sub_diag. cbn [seq filter]. rewrite app_nil_r. reflexivity.
      - split; [intros; lia|].
        intros _. apply Rltb_false in E1, E2. apply Rltb_true in E3.
        repeat split; assumption. }
    destruct (IH (S k) (ids ++ [k]) ltac:(lia)) as (m & Hm & Hrun & Hno & Hstop).
    exists m. split; [lia|]. split.
    + rewrite Hrun. rewrite <- app_assoc. do 2 f_equal.
      replace (m - k)%nat with (S (m - S k)) by lia.
      cbn [seq filter]. unfold bright_and_near at 2. rewrite E1, E2, E3.
      reflexivity.
    + split.
      * intros n Hn. destruct (Nat.eq_dec n k) as [-> | Hne].
        -- intros (_ & _ & Hb). apply Rltb_false in E3. contradiction.
        -- apply Hno. lia.
      * intros Hlt. apply Hstop. lia.
Qed.

Lemma bright_and_near_true (self : star_bg.t) (limflux outradius inradius : R)
      (n : nat) :
  bright_and_near self limflux outradius inradius n = true <->
  limflux <= nth n (star_bg.fscale self) 0 /\
  inradius <= nth n (dist_of self) 0 <= outradius.
Proof.
  unfold bright_and_near.
  rewrite !andb_true_iff, !negb_true_iff, !Rltb_false.
  split; intros H; repeat split; lra.
Qed.

(** X11 -- what [bright_star_ids] returns on a consistent catalogue: the
    stars with flux scale at least [limflux] and distance from the target
    between [inradius] and [outradius], in catalogue order, but only among
    those before the first star that is bright enough, not inside
    [inradius] and beyond [outradius], where the loop stops. *)
Theorem bright_star_ids_up_to_first_far_star :
  forall self limflux outradius inradius,
    consistent_catalogue self ->
    exists m,
      (m <= star_bg.catsize self)%nat /\
      bright_star_ids self limflux outradius inradius
      = Ok (filter (bright_and_near self limflux outradius inradius)
                   (range 0 m)) /\
      (forall n, (n < m)%nat ->
                 ~ bright_and_beyond self limflux outradius inradius n) /\
      ((m < star_bg.catsize self)%nat ->
       bright_and_beyond self limflux outradius inradius m) /\
      (forall n,
          In n (filter (bright_and_near self limflux outradius inradius)
                       (range 0 m)) <->
          (n < m)%nat /\
          limflux <= nth n (star_bg.fscale self) 0 /\
          inradius <= nth n (dist_of self) 0 <= outradius).
Proof.
  intros self limflux outradius inradius Hwf.
  destruct (bright_star_loop_spec self limflux outradius inradius Hwf
              (star_bg.catsize self) 0%nat [] ltac:(lia))
    as (m & Hm & Hrun & Hno & Hstop).
  exists m. split; [lia|]. split.
  - unfold bright_star_ids, range. rewrite !Nat.sub_0_r.
    rewrite Nat.sub_0_r in Hrun. exact Hrun.
  - split; [intros n Hn; apply Hno; lia|].
    split; [intros Hlt; apply Hstop; lia|].
    intros n. rewrite filter_In, bright_and_near_true.
    unfold range. rewrite in_seq. split; intros [H1 H2]; (split; [lia | exact H2]).
Qed.

Lemma example_star_bg_consistent : consistent_catalogue example_star_bg.
Proof. repeat split. Qed.

Lemma bright_star_ids_up_to_first_far_star_witness :
  exists m,
    (m <= star_bg.catsize example_star_bg)%nat /\
    bright_star_ids example_star_bg 0.01 100 1
    = Ok (filter (bright_and_near example_star_bg 0.01 100 1) (range 0 m)).
Proof.
  destruct (bright_star_ids_up_to_first_far_star example_star_bg 0.01 100 1
              example_star_bg_consistent) as (m & Hm & Hrun & _).
  exists m. split; [exact Hm | exact Hrun].
Defined.

Lemma filter_none {A : Type} (f : A -> bool) (l : list A) :
  (forall a, In a l -> f a = false) -> filter f l = [].
Proof.
  induction l as [|a l IH]; intros H; [reflexivity|].
  cbn [filter]. rewrite (H a) by (left; reflexivity).
  apply IH. intros b Hb. apply H. right. exact Hb.
Qed.

(** X12 -- on a consistent catalogue sorted by distance from the target,
    stopping at the first far star loses nothing: [bright_star_ids]
    returns exactly the stars of the whole catalogue with flux scale at
    least [limflux] and distance between [inradius] and [outradius], in
    catalogue order. *)
Theorem bright_star_ids_complete_when_sorted :
  forall self limflux outradius inradius,
    consistent_catalogue self ->
    nondecreasing (dist_of self) ->
    bright_star_ids self limflux outradius inradius
    = Ok (filter (bright_and_near self limflux outradius inradius)
                 (range 0 (star_bg.catsize self))).
Proof.
  intros self limflux outradius inradius Hwf Hsorted.
  pose proof (dist_of_length self Hwf) as Ld.
  destruct (bright_star_loop_spec self limflux outradius inradius Hwf
              (star_bg.catsize self) 0%nat [] ltac:(lia))
    as (m & Hm & Hrun & _ & Hstop).
  unfold bright_star_ids, range. rewrite Nat.sub_0_r in *. rewrite Hrun.
  cbn [app]. f_equal.
  assert (Hsplit : seq 0 (star_bg.catsize self)
                   = seq 0 m ++ seq m (star_bg.catsize self - m)).
  { replace (star_bg.catsize self) with (m + (star_bg.catsize self - m))%nat at 1 by lia.
    apply seq_app. }
  rewrite Hsplit, filter_app.
  rewrite <- (app_nil_r (filter _ (seq 0 m))) at 1. f_equal. symmetry.
  destruct (Nat.eq_dec m (star_bg.catsize self)) as [-> | Hne].
  { rewrite Nat.sub_diag. reflexivity. }
  destruct (Hstop ltac:(lia)) as (_ & _ & Hfar).
  assert (Hnone : forall n, In n (seq m (star_bg.catsize self - m)) ->
                            bright_and_near self limflux outradius inradius n = false).
  { intros n Hn. apply in_seq in Hn.
    assert (Hd : nth m (dist_of self) 0 <= nth n (dist_of self) 0)
      by (apply Hsorted; lia).
    unfold bright_and_near.
    replace (Rltb outradius (nth n (dist_of self) 0)) with true
      by (symmetry; apply Rltb_true; lra).
    cbn [negb]. apply andb_false_r. }
  apply filter_none. exact Hnone.
Qed.

Lemma example_star_bg_dist_sorted : nondecreasing (dist_of example_star_bg).
Proof.
  intros i j Hij Hj. cbn in Hj.
  assert (Hc : ((i = 0 /\ j = 0) \/ (i = 0 /\ j = 1) \/ (i = 1 /\ j = 1))%nat) by lia.
  destruct Hc as [[-> ->] | [[-> ->] | [-> ->]]]; cbn [dist_of example_star_bg
    star_bg.xpos star_bg.ypos combine map nth]; try lra.
  apply sqrt_le_1_alt. lra.
Qed.

Lemma bright_star_ids_complete_when_sorted_witness :
  bright_star_ids example_star_bg 0.01 100 1
  = Ok (filter (bright_and_near example_star_bg 0.01 100 1)
               (range 0 (star_bg.catsize example_star_bg))).
Proof.
  exact (bright_star_ids_complete_when_sorted example_star_bg 0.01 100 1
           example_star_bg_consistent example_star_bg_dist_sorted).
Defined.

(** ** MultiPSF: when the call fails *)

Lemma getitem_out_of_range {A : Type} (l : list A) (n : nat) :
  (length l <= n)%nat -> getitem l n = Raise IndexError.
Proof.
  intros H. unfold getitem.
  rewrite (proj2 (nth_error_None l n) H). reflexivity.
Qed.

Lemma MultiPSF_loop_raises (pm : psf_model) (dxs dys x y : list R)
      (grid circular : bool) (m k : nat) (ret : array2) :
  (k <= length dys)%nat -> (length dys < k + m)%nat -> (k + m <= length dxs)%nat ->
  for_each
    (fun ret n =>
       dxn <- getitem dxs n ;;
       dyn <- getitem dys n ;;
       Ok (arr_add ret
             (psf_call pm (vec_sub x dxn) (vec_sub y dyn) grid circular)))
    (seq k m) ret = Raise IndexError.
Proof.
  revert k ret. induction m as [|m IH]; intros k ret H1 H2 H3; [lia|].
  cbn [seq for_each].
  rewrite (getitem_nth dxs k 0) by lia. cbn [bind].
  destruct (Nat.eq_dec k (length dys)) as [-> | Hne].
  - rewrite getitem_out_of_range by lia. reflexivity.
  - rewrite (getitem_nth dys k 0) by lia. cbn [bind].
    apply IH; lia.
Qed.

Lemma MultiPSF_call_returns (pm : psf_model) (dxs dys x y : list R)
      (grid circular : bool) :
  (1 <= length dxs)%nat -> (length dxs <= length dys)%nat ->
  exists img, MultiPSF.call (MultiPSF.init pm dxs dys) x y grid circular = Ok img.
Proof.
  intros H1 H2. unfold MultiPSF.call, MultiPSF.init.
  cbn [MultiPSF.dxs MultiPSF.dys MultiPSF.psf_mod].
  rewrite (getitem_nth dxs 0 0) by lia.
  rewrite (getitem_nth dys 0 0) by lia.
  cbn [bind]. unfold range.
  destruct (MultiPSF_loop pm dxs dys x y grid circular (length dxs - 1) 1
              (psf_call pm (vec_sub x (nth 0 dxs 0)) (vec_sub y (nth 0 dys 0))
                        grid circular))
    as (ret' & Hrun & _); [lia | lia |].
  cbv zeta in Hrun. rewrite Hrun. cbn [bind]. eexists. reflexivity.
Qed.

Lemma MultiPSF_call_index_error (pm : psf_model) (dxs dys x y : list R)
      (grid circular : bool) :
  ~ ((1 <= length dxs)%nat /\ (length dxs <= length dys)%nat) ->
  MultiPSF.call (MultiPSF.init pm dxs dys) x y grid circular = Raise IndexError.
Proof.
  intros H. unfold MultiPSF.call, MultiPSF.init.
  cbn [MultiPSF.dxs MultiPSF.dys MultiPSF.psf_mod].
  destruct dxs as [|dx0 dxs']; [reflexivity|].
  destruct dys as [|dy0 dys']; [reflexivity|].
  cbn [getitem nth_error bind]. unfold range.
  rewrite (MultiPSF_loop_raises pm (dx0 :: dxs') (dy0 :: dys') x y grid circular);
    [reflexivity | cbn [length]; lia | cbn [length] in *; lia | cbn [length]; lia].
Qed.

(** X13 -- a MultiPSF can be evaluated exactly when it has at least one
    offset and [dys] is not shorter than [dxs]: then the call returns an
    image, and otherwise (no offsets, or too few [dys]) it raises
    [IndexError], whatever the sample points and flags. *)
Theorem MultiPSF_call_needs_paired_offsets :
  forall pm dxs dys x y grid circular,
    ((1 <= length dxs)%nat /\ (length dxs <= length dys)%nat ->
     exists img,
       MultiPSF.call (MultiPSF.init pm dxs dys) x y grid circular = Ok img) /\
    (~ ((1 <= length dxs)%nat /\ (length dxs <= length dys)%nat) ->
     MultiPSF.call (MultiPSF.init pm dxs dys) x y grid circular
     = Raise IndexError).
Proof.
  intros pm dxs dys x y grid circular. split.
  - intros [H1 H2]. apply MultiPSF_call_returns; assumption.
  - apply MultiPSF_call_index_error.
Qed.

Lemma MultiPSF_call_needs_paired_offsets_witness :
  (exists img,
      MultiPSF.call (MultiPSF.init flat_psf example_dxs example_dys)
                    example_grid example_grid true true = Ok img) /\
  MultiPSF.call (MultiPSF.init flat_psf example_dxs [])
                example_grid example_grid true true = Raise IndexError.
Proof.
  split.
  - apply (proj1 (MultiPSF_call_needs_paired_offsets
                    flat_psf example_dxs example_dys example_grid example_grid
                    true true)).
    cbn; lia.
  - apply (proj2 (MultiPSF_call_needs_paired_offsets
                    flat_psf example_dxs [] example_grid example_grid true true)).
    cbn; lia.
Defined.

(** ** The working catalogue built by [image_cat] *)

Lemma blur_offsets_lengths (blurdeg xn yn nr : R) :
  (1 <= length (fst (star_bg.blur_offsets blurdeg xn yn nr)))%nat /\
  length (fst (star_bg.blur_offsets blurdeg xn yn nr))
  = length (snd (star_bg.blur_offsets blurdeg xn yn nr)).
Proof.
  destruct (Z_le_gt_dec (2 * int_of_float nr + 1) 2) as [H|H].
  - rewrite (blur_offsets_collapsed blurdeg xn yn nr H). cbn. lia.
  - destruct (blur_offsets_sampled blurdeg xn yn nr ltac:(lia)) as (L1 & L2 & _).
    rewrite L1, L2. lia.
Qed.

Lemma image_cat_consistent_facts :
  forall self x0 y0 rolldeg blurdeg maxrad resolution,
    let xy := star_bg.rotate_cat self rolldeg maxrad in
    let Nstars := length (fst xy) in
    let wc := star_bg.image_cat self x0 y0 rolldeg blurdeg maxrad resolution in
    WorkCat.catsize wc = Nstars /\
    length (WorkCat.x wc) = Nstars /\ length (WorkCat.y wc) = Nstars /\
    length (WorkCat.dxs wc) = Nstars /\ length (WorkCat.dys wc) = Nstars /\
    length (WorkCat.coeff wc) = Nstars /\
    length (WorkCat.fscale wc) = Nat.min Nstars (length (star_bg.fscale self)) /\
    forall n, (n < Nstars)%nat ->
      nth_error (WorkCat.coeff wc) n = Some None /\
      (1 <= length (nth n (WorkCat.dxs wc) []))%nat /\
      length (nth n (WorkCat.dxs wc) []) = length (nth n (WorkCat.dys wc) []) /\
      nth n (WorkCat.x wc) 0 = nth n (fst xy) 0 + x0 /\
      nth n (WorkCat.y wc) 0 = nth n (snd xy) 0 + y0.
Proof.
  intros self x0 y0 rolldeg blurdeg maxrad resolution xy Nstars wc.
  pose proof (rotate_cat_length self rolldeg maxrad) as Hlen. fold xy in Hlen.
  assert (Hwc : wc = star_bg.image_cat self x0 y0 rolldeg blurdeg maxrad resolution)
    by reflexivity.
  unfold star_bg.image_cat in Hwc. fold xy in Hwc.
  destruct xy as [x y] eqn:Exy. cbn [fst snd] in *.
  unfold WorkCat.init in Hwc. rewrite Hwc.
  cbn [WorkCat.catsize WorkCat.x WorkCat.y WorkCat.dxs WorkCat.dys
       WorkCat.coeff WorkCat.fscale].
  unfold vec_add, range.
  rewrite !length_map, !length_seq, repeat_length, length_firstn, Nat.sub_0_r.
  fold Nstars.
  split; [reflexivity|]. split; [reflexivity|]. split; [lia|].
  split; [reflexivity|]. split; [reflexivity|]. split; [reflexivity|].
  split; [reflexivity|].
  intros n Hn. split.
  { rewrite nth_error_repeat by exact Hn. reflexivity. }
  rewrite !map_map.
  rewrite !(nth_map_lt _ _ n [] 0%nat) by (rewrite length_seq; exact Hn).
  rewrite seq_nth by exact Hn. cbn [Nat.add].
  destruct (blur_offsets_lengths blurdeg (nth n x 0) (nth n y 0)
              (nth n (star_bg.num_res blurdeg resolution x y) 0)) as [L1 L2].
  split; [exact L1|]. split; [exact L2|].
  rewrite !(nth_map_lt _ _ n 0 0) by lia. split; reflexivity.
Qed.

(** X14 -- for a non-zero [resolution] (at zero the conversion
    [int(num_res[n])] raises), the working catalogue [image_cat] builds is
    consistent: its
    [catsize] is the number of stars kept by [rotate_cat], and the
    position, offset and coefficient lists all have that many entries;
    no star has fitted coefficients yet; every star has at least one blur
    offset and as many [dys] as [dxs]; and each position is the rotated
    position shifted by the target's [(x0, y0)]. *)
Theorem image_cat_is_consistent :
  forall self x0 y0 rolldeg blurdeg maxrad resolution,
    resolution <> 0 ->
    let xy := star_bg.rotate_cat self rolldeg maxrad in
    let Nstars := length (fst xy) in
    let wc := star_bg.image_cat self x0 y0 rolldeg blurdeg maxrad resolution in
    WorkCat.catsize wc = Nstars /\
    length (WorkCat.x wc) = Nstars /\ length (WorkCat.y wc) = Nstars /\
    length (WorkCat.dxs wc) = Nstars /\ length (WorkCat.dys wc) = Nstars /\
    length (WorkCat.coeff wc) = Nstars /\
    length (WorkCat.fscale wc) = Nat.min Nstars (length (star_bg.fscale self)) /\
    forall n, (n < Nstars)%nat ->
      nth_error (WorkCat.coeff wc) n = Some None /\
      (1 <= length (nth n (WorkCat.dxs wc) []))%nat /\
      length (nth n (WorkCat.dxs wc) []) = length (nth n (WorkCat.dys wc) []) /\
      nth n (WorkCat.x wc) 0 = nth n (fst xy) 0 + x0 /\
      nth n (WorkCat.y wc) 0 = nth n (snd xy) 0 + y0.
Proof.
  intros self x0 y0 rolldeg blurdeg maxrad resolution _.
  apply image_cat_consistent_facts.
Qed.

Lemma image_cat_is_consistent_witness :
  let xy := star_bg.rotate_cat example_star_bg 30 None in
  let Nstars := length (fst xy) in
  let wc := star_bg.image_cat example_star_bg 100 100 30 2 None 0.2 in
  WorkCat.catsize wc = Nstars /\
  length (WorkCat.x wc) = Nstars /\ length (WorkCat.y wc) = Nstars /\
  length (WorkCat.dxs wc) = Nstars /\ length (WorkCat.dys wc) = Nstars /\
  length (WorkCat.coeff wc) = Nstars /\
  length (WorkCat.fscale wc) = Nat.min Nstars (length (star_bg.fscale example_star_bg)) /\
  forall n, (n < Nstars)%nat ->
    nth_error (WorkCat.coeff wc) n = Some None /\
    (1 <= length (nth n (WorkCat.dxs wc) []))%nat /\
    length (nth n (WorkCat.dxs wc) []) = length (nth n (WorkCat.dys wc) []) /\
    nth n (WorkCat.x wc) 0 = nth n (fst xy) 0 + 100 /\
    nth n (WorkCat.y wc) 0 = nth n (snd xy) 0 + 100.
Proof.
  apply (image_cat_is_consistent example_star_bg 100 100 30 2 None 0.2). lra.
Defined.

Lemma int_of_float_small (x : R) : x < 1 -> (int_of_float x <= 0)%Z.
Proof.
  intros H. unfold int_of_float. destruct (Rle_dec 0 x) as [H0|H0].
  - destruct (base_Int_part x) as [H1 H2].
    assert (Hlt : IZR (Int_part x) < IZR 1) by lra.
    apply lt_IZR in Hlt. lia.
  - assert (H1 : (0 <= Int_part (- x))%Z) by (apply Int_part_nonneg; lra). lia.
Qed.

Lemma int_of_float_big (x : R) : 1 <= x -> (1 <= int_of_float x)%Z.
Proof.
  intros H. rewrite int_of_float_nonneg by lra.
  destruct (base_Int_part x) as [H1 H2].
  assert (Hlt : IZR 0 < IZR (Int_part x)) by lra.
  apply lt_IZR in Hlt. lia.
Qed.

(** X15 -- which stars get blur samples in [image_cat], for a non-zero
    [resolution] (at zero the conversion [int(num_res[n])] raises): with
    num_res = 0.5 deg2rad(blurdeg) r / resolution for a star at distance r
    from the target, the star keeps the single zero offset whenever
    num_res < 1 (so always for a zero blur angle and for the target
    itself), and gets at least three samples, 2 floor(num_res) + 1 of
    them, whenever num_res >= 1. *)
Theorem image_cat_blur_threshold :
  forall self x0 y0 rolldeg blurdeg maxrad resolution n,
    let xy := star_bg.rotate_cat self rolldeg maxrad in
    let wc := star_bg.image_cat self x0 y0 rolldeg blurdeg maxrad resolution in
    resolution <> 0 ->
    (n < length (fst xy))%nat ->
    let r := sqrt (nth n (fst xy) 0 ^ 2 + nth n (snd xy) 0 ^ 2) in
    let nr := 0.5 * deg2rad blurdeg * r / resolution in
    (nr < 1 ->
     nth n (WorkCat.dxs wc) [] = [0] /\ nth n (WorkCat.dys wc) [] = [0]) /\
    (1 <= nr ->
     (3 <= length (nth n (WorkCat.dxs wc) []))%nat /\
     Z.of_nat (length (nth n (WorkCat.dxs wc) [])) = (2 * Int_part nr + 1)%Z /\
     length (nth n (WorkCat.dys wc) []) = length (nth n (WorkCat.dxs wc) [])) /\
    (blurdeg = 0 -> nr = 0) /\
    (r = 0 -> nr = 0).
Proof.
  intros self x0 y0 rolldeg blurdeg maxrad resolution n xy wc _ Hn r nr.
  destruct (image_cat_offsets self x0 y0 rolldeg blurdeg maxrad resolution n Hn)
    as (_ & Hdx & Hdy).
  fold xy wc in Hdx, Hdy. fold r in Hdx, Hdy. fold nr in Hdx, Hdy.
  split; [|split; [|split]].
  - intros Hlt. rewrite Hdx, Hdy.
    rewrite (blur_offsets_collapsed blurdeg _ _ nr)
      by (pose proof (int_of_float_small nr Hlt); lia).
    split; reflexivity.
  - intros Hge. rewrite Hdx, Hdy.
    pose proof (int_of_float_big nr Hge) as Hbig.
    destruct (blur_offsets_sampled blurdeg (nth n (fst xy) 0) (nth n (snd xy) 0) nr
                ltac:(lia)) as (L1 & L2 & _).
    rewrite L1, L2. split; [lia|]. split; [|reflexivity].
    rewrite Z2Nat.id by lia. rewrite int_of_float_nonneg by lra. reflexivity.
  - intros ->. unfold nr. rewrite deg2rad_0. unfold Rdiv. ring.
  - intros Hr. unfold nr. rewrite Hr. unfold Rdiv. ring.
Qed.

Lemma image_cat_blur_threshold_witness :
  (0 < length (fst (star_bg.rotate_cat example_star_bg 0 None)))%nat /\
  nth 0 (WorkCat.dxs (star_bg.image_cat example_star_bg 100 100 0 0 None 0.2)) []
  = [0] /\
  nth 0 (WorkCat.dys (star_bg.image_cat example_star_bg 100 100 0 0 None 0.2)) []
  = [0].
Proof.
  assert (H : (0 < length (fst (star_bg.rotate_cat example_star_bg 0 None)))%nat)
    by (cbn; lia).
  split; [exact H|].
  assert (Hres : 0.2 <> 0) by lra.
  pose proof (image_cat_blur_threshold example_star_bg 100 100 0 0 None 0.2
                                       0%nat Hres H) as T.
  cbv zeta in T. destruct T as (H1 & _ & H3 & _).
  apply H1. rewrite H3 by reflexivity. lra.
Defined.

(** ** Placing a star: [add_star] *)

Lemma add_star_value (frame : Frame) (flux x0 y0 : R) (dxs dys : list R)
      (psf_mod : psf_model) (kmat : option (list R * list R * list R))
      (radius : Z) :
  (0 <= fst (shape frame))%Z -> (0 <= snd (shape frame))%Z -> (0 <= radius)%Z ->
  let x0i := int_of_float x0 in
  let y0i := int_of_float y0 in
  match star_frame_of (x0 - IZR x0i) (y0 - IZR y0i) dxs dys psf_mod kmat radius with
  | Raise e => add_star frame flux x0 y0 dxs dys psf_mod kmat radius = Raise e
  | Ok star_frame =>
      exists frame',
        add_star frame flux x0 y0 dxs dys psf_mod kmat radius = Ok frame' /\
        shape frame' = shape frame /\
        forall r c,
          pix frame' r c
          = pix frame r c
            + (if (in_slice 0 (fst (shape frame)) r
                   && in_slice (y0i - radius) (y0i + radius + 1) r)
                  && (in_slice 0 (snd (shape frame)) c
                      && in_slice (x0i - radius) (x0i + radius + 1) c)
               then flux * star_frame (r - y0i + radius)%Z (c - x0i + radius)%Z
               else 0)
  end.
Proof.
  intros Hrows Hcols Hrad x0i y0i.
  unfold add_star. fold x0i y0i.
  pose proof (find_inds_spec (snd (shape frame)) x0i radius Hcols Hrad) as Sx.
  pose proof (find_inds_spec (fst (shape frame)) y0i radius Hrows Hrad) as Sy.
  destruct (find_inds (snd (shape frame)) x0i radius) as [[[xi0 xi1] xj0] xj1].
  destruct (find_inds (fst (shape frame)) y0i radius) as [[[yi0 yi1] yj0] yj1].
  destruct (star_frame_of (x0 - IZR x0i) (y0 - IZR y0i) dxs dys psf_mod kmat radius)
    as [star_frame|e]; cbn [bind]; [|reflexivity].
  eexists. split; [reflexivity|]. split; [reflexivity|].
  intros r c. destruct (Sx c) as [Sx1 Sx2]. destruct (Sy r) as [Sy1 Sy2].
  rewrite slice_add_pix. f_equal.
  assert (Hb : in_slice yi0 yi1 r && in_slice xi0 xi1 c
               = (in_slice 0 (fst (shape frame)) r
                  && in_slice (y0i - radius) (y0i + radius + 1) r)
                 && (in_slice 0 (snd (shape frame)) c
                     && in_slice (x0i - radius) (x0i + radius + 1) c)).
  { apply eq_true_iff_eq. rewrite !andb_true_iff, Sx1, Sy1, !in_slice_true. lia. }
  rewrite <- Hb.
  destruct (in_slice yi0 yi1 r) eqn:Er; destruct (in_slice xi0 xi1 c) eqn:Ec;
    cbn [andb]; try reflexivity.
  rewrite (Sx2 eq_refl), (Sy2 eq_refl). unfold arr_scale. reflexivity.
Qed.

(** X16 -- what [add_star] does to a frame: it fails exactly when the
    star's footprint cannot be produced, the frame being then untouched;
    otherwise it keeps the shape and adds [flux] times the footprint, laid
    out on the (2 radius + 1)-wide window around the star's integer
    position, to the pixels of the frame inside that window, and nothing
    to any other pixel. *)
Theorem add_star_adds_scaled_footprint :
  forall frame flux x0 y0 dxs dys psf_mod kmat radius,
    (0 <= fst (shape frame))%Z -> (0 <= snd (shape frame))%Z -> (0 <= radius)%Z ->
    let x0i := int_of_float x0 in
    let y0i := int_of_float y0 in
    (forall e,
        star_frame_of (x0 - IZR x0i) (y0 - IZR y0i) dxs dys psf_mod kmat radius
        = Raise e ->
        add_star frame flux x0 y0 dxs dys psf_mod kmat radius = Raise e) /\
    (forall star_frame,
        star_frame_of (x0 - IZR x0i) (y0 - IZR y0i) dxs dys psf_mod kmat radius
        = Ok star_frame ->
        exists frame',
          add_star frame flux x0 y0 dxs dys psf_mod kmat radius = Ok frame' /\
          shape frame' = shape frame /\
          forall r c,
            ((0 <= r < fst (shape frame))%Z /\ (0 <= c < snd (shape frame))%Z /\
             (y0i - radius <= r <= y0i + radius)%Z /\
             (x0i - radius <= c <= x0i + radius)%Z ->
             pix frame' r c
             = pix frame r c
               + flux * star_frame (r - y0i + radius)%Z (c - x0i + radius)%Z) /\
            (~ ((0 <= r < fst (shape frame))%Z /\ (0 <= c < snd (shape frame))%Z /\
                (y0i - radius <= r <= y0i + radius)%Z /\
                (x0i - radius <= c <= x0i + radius)%Z) ->
             pix frame' r c = pix frame r c)).
Proof.
  intros frame flux x0 y0 dxs dys psf_mod kmat radius Hrows Hcols Hrad x0i y0i.
  pose proof (add_star_value frame flux x0 y0 dxs dys psf_mod kmat radius
                Hrows Hcols Hrad) as H.
  cbv zeta in H. fold x0i y0i in H.
  split.
  - intros e He. rewrite He in H. exact H.
  - intros star_frame Hsf. rewrite Hsf in H.
    destruct H as (frame' & Hrun & Hshape & Hpix).
    exists frame'. split; [exact Hrun|]. split; [exact Hshape|].
    intros r c. rewrite Hpix. split.
    + intros (H1 & H2 & H3 & H4).
      replace (in_slice 0 (fst (shape frame)) r) with true
        by (symmetry; apply in_slice_true; lia).
      replace (in_slice 0 (snd (shape frame)) c) with true
        by (symmetry; apply in_slice_true; lia).
      replace (in_slice (y0i - radius) (y0i + radius + 1) r) with true
        by (symmetry; apply in_slice_true; lia).
      replace (in_slice (x0i - radius) (x0i + radius + 1) c) with true
        by (symmetry; apply in_slice_true; lia).
      reflexivity.
    + intros Hout.
      destruct ((in_slice 0 (fst (shape frame)) r
                 && in_slice (y0i - radius) (y0i + radius + 1) r)
                && (in_slice 0 (snd (shape frame)) c
                    && in_slice (x0i - radius) (x0i + radius + 1) c)) eqn:E;
        [|lra].
      exfalso. apply Hout.
      rewrite !andb_true_iff, !in_slice_true in E. lia.
Qed.

Lemma add_star_adds_scaled_footprint_witness :
  exists star_frame frame',
    star_frame_of (10 - IZR (int_of_float 10)) (12 - IZR (int_of_float 12))
                  [0] [0] flat_psf None 25 = Ok star_frame /\
    add_star (np_zeros (50, 50)%Z) 0.05 10 12 [0] [0] flat_psf None 25 = Ok frame' /\
    shape frame' = shape (np_zeros (50, 50)%Z).
Proof.
  assert (H1 : (0 <= fst (shape (np_zeros (50, 50)%Z)))%Z) by (cbn; lia).
  assert (H2 : (0 <= snd (shape (np_zeros (50, 50)%Z)))%Z) by (cbn; lia).
  assert (H3 : (0 <= 25)%Z) by lia.
  eexists.
  destruct (proj2 (add_star_adds_scaled_footprint
                     (np_zeros (50, 50)%Z) 0.05 10 12 [0] [0] flat_psf None 25
                     H1 H2 H3) _ eq_refl) as (frame' & Hrun & Hshape & _).
  exists frame'. split; [reflexivity|]. split; [exact Hrun | exact Hshape].
Defined.

(** ** Composing a frame: [make_bg_frame] *)

Lemma getitem_map {A B : Type} (f : A -> B) (l : list A) (n : nat) (a : A) :
  getitem l n = Ok a -> getitem (map f l) n = Ok (f a).
Proof.
  unfold getitem. rewrite nth_error_map.
  destruct (nth_error l n) as [a'|]; intros H; [|discriminate].
  injection H as <-. reflexivity.
Qed.

Section make_bg_frame_facts.

Variables (shp : Z * Z) (work_cat : WorkCat.t) (psf_ids : list nat)
          (psfs : list psf_model) (skip : list nat) (kx ky : option (list R)).
Hypothesis Hrows : (0 <= fst shp)%Z.
Hypothesis Hcols : (0 <= snd shp)%Z.

(** The body of the loop of [make_bg_frame] for a star that is not
    skipped. *)
Let place (frame : Frame) (n : nat) : result Frame :=
  kmat <- choose_kmat kx ky (WorkCat.coeff work_cat) n ;;
  fscale_n <- getitem (WorkCat.fscale work_cat) n ;;
  x_n <- getitem (WorkCat.x work_cat) n ;;
  y_n <- getitem (WorkCat.y work_cat) n ;;
  dxs_n <- getitem (WorkCat.dxs work_cat) n ;;
  dys_n <- getitem (WorkCat.dys work_cat) n ;;
  psf_id <- getitem psf_ids n ;;
  psf_mod <- getitem psfs psf_id ;;
  radius <- getitem (map psf_radii (WorkCat.fscale work_cat)) n ;;
  add_star frame fscale_n x_n y_n dxs_n dys_n psf_mod kmat radius.

Lemma place_adds_single_star_frame (frame f0 : Frame) (n : nat) :
  shape frame = shp ->
  single_star_frame shp work_cat psf_ids psfs kx ky n = Ok f0 ->
  exists frame',
    place frame n = Ok frame' /\
    shape frame' = shp /\
    forall r c, pix frame' r c = pix frame r c + pix f0 r c.
Proof.
  intros Hshape H. unfold single_star_frame in H.
  apply bind_Ok_inv in H as (psf_id & Hid & H).
  apply bind_Ok_inv in H as (psf_mod & Hpm & H).
  unfold make_single_star_frame in H.
  apply bind_Ok_inv in H as (fscale_n & Hf & H).
  apply bind_Ok_inv in H as (kmat & Hk & H).
  apply bind_Ok_inv in H as (x_n & Hx & H).
  apply bind_Ok_inv in H as (y_n & Hy & H).
  apply bind_Ok_inv in H as (dxs_n & Hdx & H).
  apply bind_Ok_inv in H as (dys_n & Hdy & H).
  unfold place.
  rewrite Hk; cbn [bind]. rewrite Hf; cbn [bind]. rewrite Hx; cbn [bind].
  rewrite Hy; cbn [bind]. rewrite Hdx; cbn [bind]. rewrite Hdy; cbn [bind].
  rewrite Hid; cbn [bind]. rewrite Hpm; cbn [bind].
  rewrite (getitem_map psf_radii _ _ _ Hf); cbn [bind].
  pose proof (psf_radii_range fscale_n) as Hrad.
  pose proof (add_star_value (np_zeros shp) fscale_n x_n y_n dxs_n dys_n psf_mod
                kmat (psf_radii fscale_n)) as H0.
  cbn [shape np_zeros] in H0. specialize (H0 Hrows Hcols ltac:(lia)).
  pose proof (add_star_value frame fscale_n x_n y_n dxs_n dys_n psf_mod
                kmat (psf_radii fscale_n)) as H1.
  rewrite Hshape in H1. specialize (H1 Hrows Hcols ltac:(lia)).
  cbv zeta in H0, H1.
  destruct (star_frame_of _ _ dxs_n dys_n psf_mod kmat (psf_radii fscale_n))
    as [sf|e].
  - destruct H0 as (g0 & E0 & _ & P0). destruct H1 as (g1 & E1 & S1 & P1).
    rewrite H in E0. injection E0 as <-.
    exists g1. split; [exact E1|]. split; [exact S1|].
    intros r c. rewrite P1, P0. cbn [pix np_zeros]. unfold zeros. lra.
  - rewrite H in H0. discriminate.
Qed.

Lemma make_bg_frame_loop (l : list nat) :
  (forall n, In n l -> ~ In n skip ->
     exists f, single_star_frame shp work_cat psf_ids psfs kx ky n = Ok f) ->
  forall frame, shape frame = shp ->
  exists frame',
    for_each
      (fun frame n =>
         if existsb (Nat.eqb n) skip then Ok frame else place frame n)
      l frame = Ok frame' /\
    shape frame' = shp /\
    forall r c,
      pix frame' r c
      = pix frame r c
        + Rsum (map (fun n => single_star_pix shp work_cat psf_ids psfs kx ky n r c)
                    (unskipped skip l)).
Proof.
  induction l as [|n l IH]; intros Hl frame Hshape.
  - exists frame. split; [reflexivity|]. split; [exact Hshape|].
    intros r c. cbn [unskipped filter map]. rewrite Rsum_nil. lra.
  - assert (Hl' : forall m, In m l -> ~ In m skip ->
              exists f, single_star_frame shp work_cat psf_ids psfs kx ky m = Ok f)
      by (intros m Hm; apply Hl; right; exact Hm).
    cbn [for_each]. unfold unskipped. cbn [filter]. fold (unskipped skip l).
    destruct (existsb (Nat.eqb n) skip) eqn:Eskip; cbn [negb bind].
    + apply IH; assumption.
    + assert (Hn : ~ In n skip).
      { intros Hin. assert (E : existsb (Nat.eqb n) skip = true).
        { apply existsb_exists. exists n. split; [exact Hin | apply Nat.eqb_refl]. }
        congruence. }
      destruct (Hl n (or_introl eq_refl) Hn) as [f0 Hf0].
      destruct (place_adds_single_star_frame frame f0 n Hshape Hf0)
        as (f1 & E1 & S1 & P1).
      rewrite E1. cbn [bind].
      destruct (IH Hl' f1 S1) as (frame' & Hrun & Hshape' & Hpix).
      exists frame'. split; [exact Hrun|]. split; [exact Hshape'|].
      intros r c. rewrite Hpix, P1. cbn [map]. rewrite Rsum_cons.
      unfold single_star_pix at 2. rewrite Hf0. lra.
Qed.

Lemma make_bg_frame_sum :
  (forall n, (n < WorkCat.catsize work_cat)%nat -> ~ In n skip ->
     exists f, single_star_frame shp work_cat psf_ids psfs kx ky n = Ok f) ->
  exists frame,
    make_bg_frame shp work_cat psf_ids psfs skip kx ky = Ok frame /\
    shape frame = shp /\
    forall r c,
      pix frame r c
      = Rsum (map (fun n => single_star_pix shp work_cat psf_ids psfs kx ky n r c)
                  (unskipped skip (range 0 (WorkCat.catsize work_cat)))).
Proof.
  intros Hret.
  destruct (make_bg_frame_loop (range 0 (WorkCat.catsize work_cat)))
    with (frame := np_zeros shp) as (frame' & Hrun & Hshape & Hpix).
  { intros n Hn. unfold range in Hn. apply in_seq in Hn. apply Hret. lia. }
  { reflexivity. }
  exists frame'. split; [exact Hrun|]. split; [exact Hshape|].
  intros r c. rewrite Hpix. cbn [pix np_zeros]. unfold zeros. lra.
Qed.

End make_bg_frame_facts.

(** X17 -- [make_bg_frame] is the sum of the single-star frames: when every
    star that is not skipped can be rendered alone by
    [make_single_star_frame] with its assigned PSF, [make_bg_frame]
    returns a frame of the requested shape whose every pixel is the sum,
    over the stars not skipped, of the pixel of that star's single-star
    frame. *)
Theorem make_bg_frame_is_sum_of_single_star_frames :
  forall shp work_cat psf_ids psfs skip kx ky,
    (0 <= fst shp)%Z -> (0 <= snd shp)%Z ->
    (forall n, (n < WorkCat.catsize work_cat)%nat -> ~ In n skip ->
       exists f, single_star_frame shp work_cat psf_ids psfs kx ky n = Ok f) ->
    exists frame,
      make_bg_frame shp work_cat psf_ids psfs skip kx ky = Ok frame /\
      shape frame = shp /\
      forall r c,
        pix frame r c
        = Rsum (map (fun n => single_star_pix shp work_cat psf_ids psfs kx ky n r c)
                    (unskipped skip (range 0 (WorkCat.catsize work_cat)))).
Proof.
  intros shp work_cat psf_ids psfs skip kx ky Hrows Hcols Hret.
  exact (make_bg_frame_sum shp work_cat psf_ids psfs skip kx ky Hrows Hcols Hret).
Qed.

Lemma single_one_star_returns (shp : Z * Z) (n : nat) :
  (n < WorkCat.catsize one_star_cat)%nat -> ~ In n [] ->
  exists f, single_star_frame shp one_star_cat [0%nat] [flat_psf] None None n = Ok f.
Proof.
  intros Hn _. assert (n = 0%nat) by (cbn in Hn; lia). subst n.
  unfold single_star_frame, make_single_star_frame, one_star_cat, WorkCat.init.
  cbn [getitem nth_error bind WorkCat.fscale WorkCat.coeff WorkCat.x WorkCat.y
       WorkCat.dxs WorkCat.dys length repeat choose_kmat].
  unfold add_star.
  destruct (find_inds _ _ _) as [[[xi0 xi1] xj0] xj1].
  destruct (find_inds _ _ _) as [[[yi0 yi1] yj0] yj1].
  eexists. reflexivity.
Qed.

Lemma make_bg_frame_is_sum_of_single_star_frames_witness :
  exists frame,
    make_bg_frame (50, 50)%Z one_star_cat [0%nat] [flat_psf] [] None None = Ok frame /\
    shape frame = (50, 50)%Z /\
    forall r c,
      pix frame r c
      = Rsum (map (fun n => single_star_pix (50, 50)%Z one_star_cat [0%nat]
                                            [flat_psf] None None n r c)
                  (unskipped [] (range 0 (WorkCat.catsize one_star_cat)))).
Proof.
  apply make_bg_frame_is_sum_of_single_star_frames;
    [cbn; lia | cbn; lia | apply single_one_star_returns].
Defined.

(** ** Rendering a freshly built working catalogue *)

Lemma rotate_cat_length_le (self : star_bg.t) (rolldeg : R) (maxrad : option R) :
  (length (fst (star_bg.rotate_cat self rolldeg maxrad))
   <= length (star_bg.xpos self))%nat.
Proof.
  unfold star_bg.rotate_cat, rotate_position_arr.
  destruct maxrad as [m|]; cbn [fst];
    rewrite length_map, length_combine, ?length_firstn; lia.
Qed.

Lemma psf_image_returns (x0f y0f : R) (dxs dys : list R) (psf_mod : psf_model)
      (radius : Z) :
  (1 <= length dxs)%nat -> (length dxs <= length dys)%nat ->
  exists sf, psf_image x0f y0f dxs dys psf_mod radius = Ok sf.
Proof. intros H1 H2. unfold psf_image. apply MultiPSF_call_returns; assumption. Qed.

(** A star without fitted coefficients whose lists are in range and whose
    blur offsets are paired can be rendered alone and marked. *)
Lemma unrefined_star_renders (shp : Z * Z) (work_cat : WorkCat.t)
      (psf_ids : list nat) (psfs : list psf_model) (kx ky : option (list R))
      (n : nat) :
  (0 <= fst shp)%Z -> (0 <= snd shp)%Z ->
  (n < length (WorkCat.fscale work_cat))%nat ->
  (n < length (WorkCat.x work_cat))%nat ->
  (n < length (WorkCat.y work_cat))%nat ->
  (n < length (WorkCat.dxs work_cat))%nat ->
  (n < length (WorkCat.dys work_cat))%nat ->
  nth_error (WorkCat.coeff work_cat) n = Some None ->
  (1 <= length (nth n (WorkCat.dxs work_cat) []))%nat ->
  length (nth n (WorkCat.dxs work_cat) []) = length (nth n (WorkCat.dys work_cat) []) ->
  (exists psf_id psf_mod,
      getitem psf_ids n = Ok psf_id /\ getitem psfs psf_id = Ok psf_mod) ->
  (exists f, single_star_frame shp work_cat psf_ids psfs kx ky n = Ok f) /\
  (forall radius level, (0 <= radius)%Z ->
     exists f, psf_mask_star (np_zeros shp) work_cat psf_ids psfs kx ky
                             radius level n = Ok f).
Proof.
  intros Hrows Hcols Lf Lx Ly Ldx Ldy Hc L1 L2 (psf_id & psf_mod & Hid & Hpm).
  assert (Hk : choose_kmat kx ky (WorkCat.coeff work_cat) n = Ok None).
  { unfold choose_kmat. destruct kx; [|reflexivity].
    unfold getitem. rewrite Hc. reflexivity. }
  split.
  - unfold single_star_frame, make_single_star_frame.
    rewrite Hid; cbn [bind]. rewrite Hpm; cbn [bind].
    rewrite (getitem_nth _ n 0 Lf); cbn [bind]. rewrite Hk; cbn [bind].
    rewrite (getitem_nth _ n 0 Lx); cbn [bind].
    rewrite (getitem_nth _ n 0 Ly); cbn [bind].
    rewrite (getitem_nth _ n [] Ldx); cbn [bind].
    rewrite (getitem_nth _ n [] Ldy); cbn [bind].
    pose proof (psf_radii_range (nth n (WorkCat.fscale work_cat) 0)) as Hrad.
    pose proof (add_star_value (np_zeros shp) (nth n (WorkCat.fscale work_cat) 0)
                  (nth n (WorkCat.x work_cat) 0) (nth n (WorkCat.y work_cat) 0)
                  (nth n (WorkCat.dxs work_cat) []) (nth n (WorkCat.dys work_cat) [])
                  psf_mod None (psf_radii (nth n (WorkCat.fscale work_cat) 0))) as H0.
    cbn [shape np_zeros] in H0. specialize (H0 Hrows Hcols ltac:(lia)).
    cbv zeta in H0. cbn [star_frame_of] in H0.
    destruct (psf_image_returns
                (nth n (WorkCat.x work_cat) 0 - IZR (int_of_float (nth n (WorkCat.x work_cat) 0)))
                (nth n (WorkCat.y work_cat) 0 - IZR (int_of_float (nth n (WorkCat.y work_cat) 0)))
                (nth n (WorkCat.dxs work_cat) []) (nth n (WorkCat.dys work_cat) [])
                psf_mod (psf_radii (nth n (WorkCat.fscale work_cat) 0)))
      as [sf Hsf]; [lia | lia |].
    rewrite Hsf in H0. destruct H0 as (f & Hf & _). exists f. exact Hf.
  - intros radius level Hrad.
    unfold psf_mask_star.
    rewrite Hk; cbn [bind].
    rewrite (getitem_nth _ n 0 Lx); cbn [bind].
    rewrite (getitem_nth _ n 0 Ly); cbn [bind].
    rewrite (getitem_nth _ n [] Ldx); cbn [bind].
    rewrite (getitem_nth _ n [] Ldy); cbn [bind].
    rewrite Hid; cbn [bind]. rewrite Hpm; cbn [bind].
    pose proof (add_psf_mask_value (np_zeros shp)
                  (nth n (WorkCat.x work_cat) 0) (nth n (WorkCat.y work_cat) 0)
                  (nth n (WorkCat.dxs work_cat) []) (nth n (WorkCat.dys work_cat) [])
                  psf_mod None radius level) as H0.
    cbn [shape np_zeros] in H0. specialize (H0 Hrows Hcols Hrad).
    cbv zeta in H0. cbn [star_frame_of] in H0.
    destruct (psf_image_returns
                (nth n (WorkCat.x work_cat) 0 - IZR (int_of_float (nth n (WorkCat.x work_cat) 0)))
                (nth n (WorkCat.y work_cat) 0 - IZR (int_of_float (nth n (WorkCat.y work_cat) 0)))
                (nth n (WorkCat.dxs work_cat) []) (nth n (WorkCat.dys work_cat) [])
                psf_mod radius)
      as [sf Hsf]; [lia | lia |].
    rewrite Hsf in H0. destruct H0 as (f & Hf & _). exists f. exact Hf.
Qed.

(** X18 -- a working catalogue fresh from [image_cat] can always be
    rendered and masked: for a non-zero [resolution], a frame with
    non-negative sides, non-negative mask radii and a consistent star
    catalogue whose stars all have a PSF assigned, [make_bg_frame], [make_bg_circ_mask] and
    [make_bg_psf_mask] on the catalogue built by [image_cat] return a
    result, the frame having the requested shape; none of them raises,
    for any roll and blur angle, [maxrad], skip list and kernel offsets. *)
Theorem image_cat_output_renders :
  forall self x0 y0 rolldeg blurdeg maxrad resolution shp psf_ids psfs skip kx ky,
    (0 <= fst shp)%Z -> (0 <= snd shp)%Z ->
    resolution <> 0 ->
    consistent_catalogue self ->
    (forall n, (n < star_bg.catsize self)%nat ->
       exists psf_id psf_mod,
         getitem psf_ids n = Ok psf_id /\ getitem psfs psf_id = Ok psf_mod) ->
    let wc := star_bg.image_cat self x0 y0 rolldeg blurdeg maxrad resolution in
    (exists frame,
        make_bg_frame shp wc psf_ids psfs skip kx ky = Ok frame /\
        shape frame = shp) /\
    (forall radius, 0 <= radius ->
        exists mask, make_bg_circ_mask shp wc skip radius = Ok mask) /\
    (forall radius level, (0 <= radius)%Z ->
        exists mask,
          make_bg_psf_mask shp wc psf_ids psfs skip kx ky radius level = Ok mask).
Proof.
  intros self x0 y0 rolldeg blurdeg maxrad resolution shp psf_ids psfs skip kx ky
         Hrows Hcols _ (Hf & Hx & Hy) Hpsf wc.
  pose proof (image_cat_consistent_facts self x0 y0 rolldeg blurdeg maxrad resolution)
    as Hwc.
  cbv zeta in Hwc. fold wc in Hwc.
  destruct Hwc as (Lcat & Lx & Ly & Ldx & Ldy & Lc & Lfs & Hstar).
  pose proof (rotate_cat_length_le self rolldeg maxrad) as HN.
  set (Nstars := length (fst (star_bg.rotate_cat self rolldeg maxrad))) in *.
  assert (Hall : forall n, (n < WorkCat.catsize wc)%nat ->
            (exists f, single_star_frame shp wc psf_ids psfs kx ky n = Ok f) /\
            (forall radius level, (0 <= radius)%Z ->
               exists f, psf_mask_star (np_zeros shp) wc psf_ids psfs kx ky
                                       radius level n = Ok f)).
  { intros n Hn. rewrite Lcat in Hn.
    destruct (Hstar n Hn) as (Hc & L1 & L2 & _).
    apply unrefined_star_renders; try assumption; try lia.
    apply Hpsf. lia. }
  split; [|split].
  - destruct (make_bg_frame_sum shp wc psf_ids psfs skip kx ky Hrows Hcols)
      as (frame & Hrun & Hshape & _).
    { intros n Hn _. apply (Hall n Hn). }
    exists frame. split; assumption.
  - intros radius _.
    destruct (make_bg_circ_mask_clean shp wc skip radius) as (mask & Hrun & _);
      [lia | lia |].
    exists mask. exact Hrun.
  - intros radius level Hrad.
    destruct (make_bg_psf_mask_clean shp wc psf_ids psfs skip kx ky radius level
                Hrows Hcols Hrad) as (mask & Hrun & _).
    { intros n Hn _. apply (Hall n Hn). exact Hrad. }
    exists mask. exact Hrun.
Qed.

Lemma three_star_bg_ready :
  consistent_catalogue three_star_bg /\
  forall n, (n < star_bg.catsize three_star_bg)%nat ->
    exists psf_id psf_mod,
      getitem (star_bg.psf_ids three_star_bg) n = Ok psf_id /\
      getitem (star_bg.psfs three_star_bg) psf_id = Ok psf_mod.
Proof.
  split; [repeat split|].
  intros n Hn. cbn in Hn.
  assert (Hc : (n = 0 \/ n = 1 \/ n = 2)%nat) by lia.
  destruct Hc as [-> | [-> | ->]]; exists 0%nat, flat_psf; split; reflexivity.
Qed.

Lemma image_cat_output_renders_witness :
  exists frame,
    make_bg_frame (200, 200)%Z
                  (star_bg.image_cat three_star_bg 100 100 30 2 None 0.2)
                  (star_bg.psf_ids three_star_bg) (star_bg.psfs three_star_bg)
                  [0%nat] None None = Ok frame /\
    shape frame = (200, 200)%Z.
Proof.
  assert (H1 : (0 <= fst (200, 200)%Z)%Z) by (cbn; lia).
  assert (H2 : (0 <= snd (200, 200)%Z)%Z) by (cbn; lia).
  assert (H3 : 0.2 <> 0) by lra.
  exact (proj1 (image_cat_output_renders three_star_bg 100 100 30 2 None 0.2
                  (200, 200)%Z (star_bg.psf_ids three_star_bg)
                  (star_bg.psfs three_star_bg) [0%nat] None None H1 H2 H3
                  (proj1 three_star_bg_ready) (proj2 three_star_bg_ready))).
Defined.

(** ** Rendering in [image]: a star stays within its radius *)

Lemma find_area_inds_in_frame (x y : R) (shp : Z * Z) (radius i0 i1 j0 j1 : Z) :
  find_area_inds x y shp radius = Some (i0, i1, j0, j1) ->
  (0 <= i0)%Z /\ (i1 <= snd shp)%Z /\ (0 <= j0)%Z /\ (j1 <= fst shp)%Z.
Proof.
  unfold find_area_inds.
  destruct (_ >=? snd shp)%Z; [discriminate|].
  destruct (_ <=? 0)%Z; [discriminate|].
  destruct (_ >=? fst shp)%Z; [discriminate|].
  destruct (_ <=? 0)%Z; [discriminate|].
  intros [= <- <- <- <-]. lia.
Qed.

Lemma arange_nth (n : Z) (k : nat) :
  (Z.of_nat k < n)%Z -> nth k (arange n) 0 = INR k.
Proof.
  intros H. unfold arange.
  rewrite (nth_map_lt _ _ k 0 0%nat) by (rewrite length_seq; lia).
  rewrite seq_nth by lia. reflexivity.
Qed.

Lemma arange_length (n : Z) : length (arange n) = Z.to_nat n.
Proof. unfold arange. rewrite length_map, length_seq. reflexivity. Qed.

(** Entry [c - i0] of [(np.arange(n) - x0)[i0:i1] - d] is [c - x0 - d]. *)
Lemma window_coordinate (n i0 i1 c : Z) (x0 d : R) :
  (0 <= i0)%Z -> (i0 <= c < i1)%Z -> (i1 <= n)%Z ->
  nth (Z.to_nat (c - i0 + 0)) (vec_sub (slice (vec_sub (arange n) x0) i0 i1) d) 0
  = IZR c - x0 - d.
Proof.
  intros H0 Hc H1. unfold vec_sub at 1.
  assert (Ls : length (slice (map (fun e => e - x0) (arange n)) i0 i1)
               = Z.to_nat (i1 - i0)).
  { unfold slice. rewrite length_firstn, length_skipn, length_map, arange_length. lia. }
  unfold vec_sub.
  rewrite (nth_map_lt _ _ _ 0 0) by (rewrite Ls; lia).
  unfold slice. rewrite nth_firstn.
  replace (Z.to_nat (c - i0 + 0) <? Z.to_nat (i1 - i0))%nat with true
    by (symmetry; apply Nat.ltb_lt; lia).
  rewrite nth_skipn.
  replace (Z.to_nat i0 + Z.to_nat (c - i0 + 0))%nat with (Z.to_nat c) by lia.
  rewrite (nth_map_lt _ _ _ 0 0) by (rewrite arange_length; lia).
  rewrite arange_nth by lia.
  rewrite INR_IZR_INZ, Z2Nat.id by lia. reflexivity.
Qed.

Lemma image_star_local (self : star_bg.t) (x0 y0 : R) (shp : Z * Z)
      (dx dy : list R) (ret_img img' : Frame) (n : nat)
      (fscale_n dx_n dy_n : R) :
  getitem (star_bg.fscale self) n = Ok fscale_n ->
  getitem dx n = Ok dx_n -> getitem dy n = Ok dy_n ->
  star_bg.image_star self x0 y0 shp dx dy
                     (vec_sub (arange (snd shp)) x0)
                     (vec_sub (arange (fst shp)) y0) ret_img n = Ok img' ->
  shape img' = shape ret_img /\
  forall r c,
    pix img' r c <> pix ret_img r c ->
    (0 <= r < fst shp)%Z /\ (0 <= c < snd shp)%Z /\
    (IZR c - (x0 + dx_n)) ^ 2 + (IZR r - (y0 + dy_n)) ^ 2
    <= IZR (psf_radii fscale_n) ^ 2.
Proof.
  intros Hf Hdx Hdy Hrun. unfold star_bg.image_star in Hrun.
  rewrite Hf in Hrun; cbn [bind] in Hrun.
  rewrite Hdx in Hrun; cbn [bind] in Hrun.
  rewrite Hdy in Hrun; cbn [bind] in Hrun.
  destruct (find_area_inds (x0 + dx_n) (y0 + dy_n) shp (psf_radii fscale_n))
    as [[[[i0 i1] j0] j1]|] eqn:Einds.
  2: { injection Hrun as <-. split; [reflexivity|].
       intros r c Hne. exfalso. apply Hne. reflexivity. }
  destruct (find_area_inds_in_frame _ _ _ _ _ _ _ _ Einds) as (Hi0 & Hi1 & Hj0 & Hj1).
  apply bind_Ok_inv in Hrun as (psf_id & _ & Hrun).
  apply bind_Ok_inv in Hrun as (psf_fun & _ & Hrun).
  injection Hrun as <-. split; [reflexivity|].
  intros r c Hne. rewrite slice_add_pix in Hne.
  destruct (in_slice j0 j1 r) eqn:Er; destruct (in_slice i0 i1 c) eqn:Ec;
    cbn [andb] in Hne; try (exfalso; apply Hne; lra).
  apply in_slice_true in Er, Ec.
  split; [lia|]. split; [lia|].
  unfold arr_scale in Hne.
  rewrite (window_coordinate (snd shp) i0 i1 c x0 dx_n) in Hne by lia.
  rewrite (window_coordinate (fst shp) j0 j1 r y0 dy_n) in Hne by lia.
  match type of Hne with
  | context [if ?b then _ else _] => destruct b eqn:Ecut
  end.
  - exfalso. apply Hne. lra.
  - apply Rltb_false in Ecut. simpl pow in *. lra.
Qed.

(** X19 -- in [image] no star is painted beyond its adaptive radius or
    outside the frame: rendering star [n] keeps the shape of the frame,
    and every pixel it changes lies in the frame and within
    [psf_radii(fscale[n])] of the star's position
    [(x0 + dx[n], y0 + dy[n])]. *)
Theorem image_star_stays_within_radius :
  forall self x0 y0 shp dx dy ret_img img' n fscale_n dx_n dy_n,
    getitem (star_bg.fscale self) n = Ok fscale_n ->
    getitem dx n = Ok dx_n -> getitem dy n = Ok dy_n ->
    star_bg.image_star self x0 y0 shp dx dy
                       (vec_sub (arange (snd shp)) x0)
                       (vec_sub (arange (fst shp)) y0) ret_img n = Ok img' ->
    shape img' = shape ret_img /\
    forall r c,
      pix img' r c <> pix ret_img r c ->
      (0 <= r < fst shp)%Z /\ (0 <= c < snd shp)%Z /\
      (IZR c - (x0 + dx_n)) ^ 2 + (IZR r - (y0 + dy_n)) ^ 2
      <= IZR (psf_radii fscale_n) ^ 2.
Proof. exact image_star_local. Qed.

Lemma image_star_three_returns :
  exists img',
    star_bg.image_star three_star_bg 100 100 (200, 200)%Z [0; 30; -20] [0; 40; 10]
                       (vec_sub (arange (snd (200, 200)%Z)) 100)
                       (vec_sub (arange (fst (200, 200)%Z)) 100)
                       (np_zeros (200, 200)%Z) 1 = Ok img'.
Proof.
  unfold star_bg.image_star, three_star_bg.
  cbn [getitem nth_error bind star_bg.fscale star_bg.psf_ids star_bg.psfs].
  destruct (find_area_inds _ _ _ _) as [[[[i0 i1] j0] j1]|]; eexists; reflexivity.
Qed.

Lemma image_star_stays_within_radius_witness :
  exists img',
    star_bg.image_star three_star_bg 100 100 (200, 200)%Z [0; 30; -20] [0; 40; 10]
                       (vec_sub (arange (snd (200, 200)%Z)) 100)
                       (vec_sub (arange (fst (200, 200)%Z)) 100)
                       (np_zeros (200, 200)%Z) 1 = Ok img' /\
    shape img' = shape (np_zeros (200, 200)%Z).
Proof.
  destruct image_star_three_returns as [img' Hrun].
  exists img'. split; [exact Hrun|].
  exact (proj1 (image_star_stays_within_radius
                  three_star_bg 100 100 (200, 200)%Z [0; 30; -20] [0; 40; 10]
                  (np_zeros (200, 200)%Z) img' 1%nat 0.05 30 40
                  eq_refl eq_refl eq_refl Hrun)).
Defined.

(** ** Refinement touches only the listed stars *)

Lemma list_set_length {A : Type} (l : list A) (n : nat) (v : A) :
  length (list_set l n v) = length l.
Proof.
  revert n. induction l as [|a l IH]; intros [|n]; cbn; try reflexivity.
  rewrite IH. reflexivity.
Qed.

Lemma changed_only_refl (starids : list nat) (st : refine_state) :
  changed_only starids st st.
Proof. repeat split. Qed.

Lemma changed_only_trans (k : nat) (l : list nat) (st1 st2 st3 : refine_state) :
  changed_only [k] st1 st2 -> changed_only l st2 st3 ->
  changed_only (k :: l) st1 st3.
Proof.
  intros (A1 & A2 & A3 & A4 & A5 & A6 & A7 & A8 & A9)
         (B1 & B2 & B3 & B4 & B5 & B6 & B7 & B8 & B9).
  repeat split; try congruence.
  - destruct (B9 m) as [E _]; [intros Hin; apply H; right; exact Hin|].
    destruct (A9 m) as [E' _]; [intros [Hin|[]]; apply H; left; exact Hin|].
    congruence.
  - destruct (B9 m) as [_ E]; [intros Hin; apply H; right; exact Hin|].
    destruct (A9 m) as [_ E']; [intros [Hin|[]]; apply H; left; exact Hin|].
    congruence.
Qed.

Section Refiner_frame.

Variable psf_fit :
  list MultiPSF.t -> Frame -> Frame -> (Z -> Z -> bool) ->
  R -> R -> Z -> Z -> R -> Z -> Z -> result fit_result.
Variables (data_frame noise : Frame) (mask : Z -> Z -> bool) (psf_norm : R)
          (psf_ids : list nat) (psfs : list psf_model)
          (krn_scl : R) (krn_rad : Z).

Lemma store_fit_changed_only (model : Frame) (work_cat : WorkCat.t) (k : nat)
      (fitted : fit_result) :
  changed_only [k] (model, work_cat)
               (store_fit psf_norm krn_rad model work_cat k fitted).
Proof.
  destruct fitted as [[[[fitstar_img bg] kmat] sc] w].
  unfold store_fit, changed_only.
  cbn [fst snd WorkCat.catsize WorkCat.x WorkCat.y WorkCat.dxs WorkCat.dys
       WorkCat.fscale WorkCat.coeff frame_add shape].
  rewrite !list_set_length.
  repeat split.
  - apply list_set_other. intros ->. apply H. left. reflexivity.
  - apply list_set_other. intros ->. apply H. left. reflexivity.
Qed.

Lemma refine_star_changed_only (st : refine_state) (k : nat) :
  changed_only [k] st
    (fst (refine_star psf_fit data_frame noise mask psf_norm psf_ids psfs
                      krn_scl krn_rad st k)).
Proof.
  destruct st as [model work_cat]. unfold refine_star.
  destruct (render_current data_frame psf_ids psfs krn_scl krn_rad work_cat k)
    as [[psf_mod star_img]|e]; cbn [fst]; [|apply changed_only_refl].
  destruct (fit_star psf_fit data_frame noise mask krn_scl krn_rad
              (frame_sub model (frame_scale psf_norm star_img)) work_cat psf_mod k)
    as [fitted|e]; cbn [fst].
  - pose proof (store_fit_changed_only
                  (frame_sub model (frame_scale psf_norm star_img)) work_cat k fitted)
      as (A1 & A).
    split; [|exact A]. rewrite A1. reflexivity.
  - repeat split.
Qed.

Lemma refine_loop_changed_only (starids : list nat) (st : refine_state) :
  changed_only starids st
    (fst (refine_loop psf_fit data_frame noise mask psf_norm psf_ids psfs
                      krn_scl krn_rad starids st)).
Proof.
  revert st. induction starids as [|k l IH]; intros st.
  - apply changed_only_refl.
  - cbn [refine_loop].
    pose proof (refine_star_changed_only st k) as Hk.
    destruct (refine_star psf_fit data_frame noise mask psf_norm psf_ids psfs
                          krn_scl krn_rad st k) as [st' [u|e]]; cbn [fst] in *.
    + apply (changed_only_trans k l st st'); [exact Hk | apply IH].
    + apply (changed_only_trans k l st st' st'); [exact Hk | apply changed_only_refl].
Qed.

End Refiner_frame.

(** X20 -- [refine_bg_model] only ever touches the flux scale and the
    coefficients of the stars it is asked to refine: on every exit, normal
    or by exception, the model buffer has kept its shape, the catalogue
    its size, positions and blur offsets, the flux-scale and coefficient
    lists their lengths, and the flux scale and coefficients of every star
    not in [starids] are what they were. *)
Theorem refine_bg_model_changes_only_listed_stars :
  forall psf_fit data_frame noise mask psf_norm psf_ids psfs krn_scl krn_rad
         starids model work_cat,
    let st' := fst (refine_bg_model psf_fit data_frame noise mask psf_norm
                                    psf_ids psfs krn_scl krn_rad
                                    starids model work_cat) in
    shape (fst st') = shape model /\
    WorkCat.catsize (snd st') = WorkCat.catsize work_cat /\
    WorkCat.x (snd st') = WorkCat.x work_cat /\
    WorkCat.y (snd st') = WorkCat.y work_cat /\
    WorkCat.dxs (snd st') = WorkCat.dxs work_cat /\
    WorkCat.dys (snd st') = WorkCat.dys work_cat /\
    length (WorkCat.fscale (snd st')) = length (WorkCat.fscale work_cat) /\
    length (WorkCat.coeff (snd st')) = length (WorkCat.coeff work_cat) /\
    forall m, ~ In m starids ->
      nth_error (WorkCat.fscale (snd st')) m = nth_error (WorkCat.fscale work_cat) m /\
      nth_error (WorkCat.coeff (snd st')) m = nth_error (WorkCat.coeff work_cat) m.
Proof.
  intros psf_fit data_frame noise mask psf_norm psf_ids psfs krn_scl krn_rad
         starids model work_cat st'.
  pose proof (refine_loop_changed_only psf_fit data_frame noise mask psf_norm
                psf_ids psfs krn_scl krn_rad starids (model, work_cat)) as H.
  assert (E : st' = fst (refine_loop psf_fit data_frame noise mask psf_norm
                           psf_ids psfs krn_scl krn_rad starids (model, work_cat))).
  { unfold st', refine_bg_model.
    destruct (refine_loop _ _ _ _ _ _ _ _ _ starids (model, work_cat))
      as [st [u|e]]; reflexivity. }
  rewrite E. exact H.
Qed.

(** ** The fitting kernel of [refine_bg_model] *)

Lemma bool_index_row (sel : Z -> Z -> bool) (a : array2) (r : Z) (cs : list Z) :
  flat_map (fun c => if sel r c then [a r c] else []) cs =
  map (fun p => a (fst p) (snd p))
      (filter (fun p => sel (fst p) (snd p)) (map (fun c => (r, c)) cs)).
Proof.
  induction cs as [|c cs IH]; [reflexivity|].
  cbn [flat_map map filter fst snd].
  destruct (sel r c); cbn [app map fst snd]; rewrite IH; reflexivity.
Qed.

Lemma bool_index_support (rows cols : nat) (sel : Z -> Z -> bool) (a : array2) :
  bool_index rows cols sel a =
  map (fun p => a (fst p) (snd p))
      (filter (fun p => sel (fst p) (snd p))
              (list_prod (map Z.of_nat (seq 0 rows)) (map Z.of_nat (seq 0 cols)))).
Proof.
  unfold bool_index.
  induction (map Z.of_nat (seq 0 rows)) as [|r rs IH]; [reflexivity|].
  cbn [flat_map list_prod].
  rewrite filter_app, map_app, IH, bool_index_row. reflexivity.
Qed.

Lemma kernel_support_in_grid (krn_rad : Z) (p : Z * Z) :
  In p (kernel_support krn_rad) ->
  (0 <= fst p < 2 * krn_rad + 1)%Z /\ (0 <= snd p < 2 * krn_rad + 1)%Z /\
  selk krn_rad (fst p) (snd p) = true.
Proof.
  unfold kernel_support, kernel_side. intros H.
  apply filter_In in H. destruct H as [H Hs].
  destruct p as [r c]. apply in_prod_iff in H. destruct H as [Hr Hc].
  apply in_map_iff in Hr. destruct Hr as (i & <- & Hi).
  apply in_map_iff in Hc. destruct Hc as (j & <- & Hj).
  apply in_seq in Hi. apply in_seq in Hj. cbn [fst snd] in *.
  repeat split; try lia. exact Hs.
Qed.

Lemma kernel_support_centre (krn_rad : Z) :
  (0 <= krn_rad)%Z -> In (krn_rad, krn_rad) (kernel_support krn_rad).
Proof.
  intros H. unfold kernel_support, kernel_side.
  apply filter_In. split.
  - apply in_prod_iff. split; apply in_map_iff; exists (Z.to_nat krn_rad);
      (split; [lia | apply in_seq; lia]).
  - cbn [fst snd]. apply selk_disc; lia.
Qed.

Lemma kernel_kx_support (krn_scl : R) (krn_rad : Z) :
  kernel_kx krn_scl krn_rad =
  map (fun p => krn_scl * IZR (snd p - krn_rad)) (kernel_support krn_rad).
Proof.
  unfold kernel_kx. rewrite bool_index_support, map_map.
  fold (kernel_support krn_rad).
  apply map_ext_in. intros p Hp.
  apply kernel_support_in_grid in Hp. destruct Hp as (Hr & Hc & _).
  unfold xkmat, xkern.
  rewrite window_coords_nth by lia. rewrite Z2Nat.id by lia. reflexivity.
Qed.

Lemma kernel_ky_support (krn_scl : R) (krn_rad : Z) :
  kernel_ky krn_scl krn_rad =
  map (fun p => krn_scl * IZR (fst p - krn_rad)) (kernel_support krn_rad).
Proof.
  unfold kernel_ky. rewrite bool_index_support, map_map.
  fold (kernel_support krn_rad).
  apply map_ext_in. intros p Hp.
  apply kernel_support_in_grid in Hp. destruct Hp as (Hr & Hc & _).
  unfold ykmat, xkern.
  rewrite window_coords_nth by lia. rewrite Z2Nat.id by lia. reflexivity.
Qed.

Lemma kernel_coeff_support (krn_rad : Z) (kmat : array2) :
  bool_index (kernel_side krn_rad) (kernel_side krn_rad) (selk krn_rad) kmat =
  map (fun p => kmat (fst p) (snd p)) (kernel_support krn_rad).
Proof. apply bool_index_support. Qed.

Lemma kernel_lengths (krn_scl : R) (krn_rad : Z) (kmat : array2) :
  let kf := bool_index (kernel_side krn_rad) (kernel_side krn_rad)
                       (selk krn_rad) kmat in
  length (kernel_kx krn_scl krn_rad) = length kf /\
  length (kernel_ky krn_scl krn_rad) = length kf /\
  ((0 <= krn_rad)%Z -> (1 <= length kf)%nat).
Proof.
  intros kf. unfold kf.
  rewrite kernel_kx_support, kernel_ky_support, kernel_coeff_support.
  rewrite !length_map. repeat split.
  intros H. pose proof (kernel_support_centre krn_rad H) as Hin.
  destruct (kernel_support krn_rad); [destruct Hin | cbn [length]; lia].
Qed.

(** X21 -- The kernel offsets and the stored coefficients of
    [refine_bg_model] are aligned: [kx], [ky] and [kmat[selk]] list, in
    the same order, the grid points (r, c) of the (2 krn_rad + 1)-square
    with (c - krn_rad)^2 + (r - krn_rad)^2 <= krn_rad^2, as
    krn_scl * (c - krn_rad), krn_scl * (r - krn_rad) and kmat[r, c]; the
    three have one length, which is at least one since the centre of the
    kernel is always in the support. *)
Theorem kernel_offsets_follow_support :
  forall (krn_scl : R) (krn_rad : Z) (kmat : array2),
    (0 <= krn_rad)%Z ->
    let side := kernel_side krn_rad in
    let kx := kernel_kx krn_scl krn_rad in
    let ky := kernel_ky krn_scl krn_rad in
    let kf := bool_index side side (selk krn_rad) kmat in
    (length kx = length kf /\ length ky = length kf /\ 1 <= length kf)%nat /\
    exists pts : list (Z * Z),
      kx = map (fun p => krn_scl * IZR (snd p - krn_rad)) pts /\
      ky = map (fun p => krn_scl * IZR (fst p - krn_rad)) pts /\
      kf = map (fun p => kmat (fst p) (snd p)) pts /\
      In (krn_rad, krn_rad) pts /\
      forall r c,
        In (r, c) pts <->
        (0 <= r < 2 * krn_rad + 1 /\ 0 <= c < 2 * krn_rad + 1 /\
         (c - krn_rad) ^ 2 + (r - krn_rad) ^ 2 <= krn_rad ^ 2)%Z.
Proof.
  intros krn_scl krn_rad kmat Hrad side kx ky kf.
  split.
  - destruct (kernel_lengths krn_scl krn_rad kmat) as (A & B & C).
    repeat split; [exact A | exact B | exact (C Hrad)].
  - exists (kernel_support krn_rad).
    split; [apply kernel_kx_support|].
    split; [apply kernel_ky_support|].
    split; [apply kernel_coeff_support|].
    split; [apply kernel_support_centre; exact Hrad|].
    intros r c. split.
    + intros Hin. apply kernel_support_in_grid in Hin. cbn [fst snd] in Hin.
      destruct Hin as (Hr & Hc & Hs).
      split; [exact Hr|]. split; [exact Hc|].
      apply selk_disc; [exact Hr | exact Hc | exact Hs].
    + intros (Hr & Hc & Hd). unfold kernel_support, kernel_side.
      apply filter_In. split.
      * apply in_prod_iff. split; apply in_map_iff.
        -- exists (Z.to_nat r). split; [lia | apply in_seq; lia].
        -- exists (Z.to_nat c). split; [lia | apply in_seq; lia].
      * cbn [fst snd]. apply selk_disc; [exact Hr | exact Hc | exact Hd].
Qed.

Lemma kernel_offsets_follow_support_witness :
  let kx := kernel_kx 0.3 1 in
  let ky := kernel_ky 0.3 1 in
  let kf := bool_index (kernel_side 1) (kernel_side 1) (selk 1) zeros in
  (length kx = length kf /\ length ky = length kf /\ 1 <= length kf)%nat /\
  exists pts : list (Z * Z),
    kx = map (fun p => 0.3 * IZR (snd p - 1)) pts /\
    ky = map (fun p => 0.3 * IZR (fst p - 1)) pts /\
    kf = map (fun p => zeros (fst p) (snd p)) pts /\
    In (1, 1)%Z pts /\
    forall r c,
      In (r, c) pts <->
      (0 <= r < 2 * 1 + 1 /\ 0 <= c < 2 * 1 + 1 /\
       (c - 1) ^ 2 + (r - 1) ^ 2 <= 1 ^ 2)%Z.
Proof. apply (kernel_offsets_follow_support 0.3 1%Z zeros). lia. Defined.

(** ** Images of fitted kernels: [psf_fit_image] *)

Lemma MultiPSF_call_ok_paired (pm : psf_model) (dxs dys x y : list R)
      (grid circular : bool) (img : array2) :
  MultiPSF.call (MultiPSF.init pm dxs dys) x y grid circular = Ok img ->
  (1 <= length dxs)%nat /\ (length dxs <= length dys)%nat.
Proof.
  intros H.
  destruct (le_lt_dec 1 (length dxs)) as [H1|H1];
    [destruct (le_lt_dec (length dxs) (length dys)) as [H2|H2]|].
  - split; assumption.
  - rewrite MultiPSF_call_index_error in H by lia. discriminate.
  - rewrite MultiPSF_call_index_error in H by lia. discriminate.
Qed.

Lemma fit_loop_returns (kf kx ky dxs dys : list R) (pm : psf_model) (v : list R)
      (m k : nat) (ret : array2) :
  (1 <= length dxs)%nat -> (length dxs <= length dys)%nat ->
  (k + m <= length kf)%nat -> (k + m <= length kx)%nat -> (k + m <= length ky)%nat ->
  exists ret',
    for_each
      (fun ret n =>
         kfn <- getitem kf n ;;
         kxn <- getitem kx n ;;
         kyn <- getitem ky n ;;
         img <- MultiPSF.call (MultiPSF.init pm dxs dys)
                              (vec_sub v kxn) (vec_sub v kyn) true false ;;
         Ok (arr_add ret (arr_scale kfn img)))
      (seq k m) ret = Ok ret'.
Proof.
  intros Hd1 Hd2. revert k ret.
  induction m as [|m IH]; intros k ret Hf Hx Hy.
  - exists ret. reflexivity.
  - cbn [seq for_each].
    rewrite (getitem_nth kf k 0) by lia. cbn [bind].
    rewrite (getitem_nth kx k 0) by lia. cbn [bind].
    rewrite (getitem_nth ky k 0) by lia. cbn [bind].
    destruct (MultiPSF_call_returns pm dxs dys (vec_sub v (nth k kx 0))
                (vec_sub v (nth k ky 0)) true false Hd1 Hd2) as [img Himg].
    rewrite Himg. cbn [bind].
    apply IH; lia.
Qed.

Lemma fit_loop_raises (kf kx ky dxs dys : list R) (pm : psf_model) (v : list R)
      (m k : nat) (ret : array2) :
  (1 <= length dxs)%nat -> (length dxs <= length dys)%nat ->
  (k + m <= length kf)%nat -> (k <= length kx)%nat -> (k <= length ky)%nat ->
  (length kx < k + m \/ length ky < k + m)%nat ->
  for_each
    (fun ret n =>
       kfn <- getitem kf n ;;
       kxn <- getitem kx n ;;
       kyn <- getitem ky n ;;
       img <- MultiPSF.call (MultiPSF.init pm dxs dys)
                            (vec_sub v kxn) (vec_sub v kyn) true false ;;
       Ok (arr_add ret (arr_scale kfn img)))
    (seq k m) ret = Raise IndexError.
Proof.
  intros Hd1 Hd2. revert k ret.
  induction m as [|m IH]; intros k ret Hf Hx Hy Hshort; [lia|].
  cbn [seq for_each].
  rewrite (getitem_nth kf k 0) by lia. cbn [bind].
  destruct (le_lt_dec (length kx) k) as [Ex|Ex].
  { rewrite (getitem_out_of_range kx k Ex). reflexivity. }
  rewrite (getitem_nth kx k 0) by lia. cbn [bind].
  destruct (le_lt_dec (length ky) k) as [Ey|Ey].
  { rewrite (getitem_out_of_range ky k Ey). reflexivity. }
  rewrite (getitem_nth ky k 0) by lia. cbn [bind].
  destruct (MultiPSF_call_returns pm dxs dys (vec_sub v (nth k kx 0))
              (vec_sub v (nth k ky 0)) true false Hd1 Hd2) as [img Himg].
  rewrite Himg. cbn [bind].
  apply IH; lia.
Qed.

Lemma psf_fit_image_returns (kf kx ky dxs dys : list R) (pm : psf_model)
      (radius : Z) :
  (1 <= length kf)%nat -> (length kf <= length kx)%nat ->
  (length kf <= length ky)%nat ->
  (1 <= length dxs)%nat -> (length dxs <= length dys)%nat ->
  exists img,
    psf_fit_image kf kx ky dxs dys pm radius = Ok img /\
    forall r c, (radius ^ 2 < (r - radius) ^ 2 + (c - radius) ^ 2)%Z ->
                img r c = 0.
Proof.
  intros Hf Hx Hy Hd1 Hd2. unfold psf_fit_image.
  rewrite (getitem_nth kf 0 0) by lia. cbn [bind].
  rewrite (getitem_nth kx 0 0) by lia. cbn [bind].
  rewrite (getitem_nth ky 0 0) by lia. cbn [bind].
  destruct (MultiPSF_call_returns pm dxs dys
              (vec_sub (window_coords radius) (nth 0 kx 0))
              (vec_sub (window_coords radius) (nth 0 ky 0)) true false Hd1 Hd2)
    as [img0 Himg0].
  rewrite Himg0. cbn [bind]. unfold range.
  destruct (fit_loop_returns kf kx ky dxs dys pm (window_coords radius)
              (length kf - 1) 1 (arr_scale (nth 0 kf 0) img0) Hd1 Hd2)
    as [ret Hret]; try lia.
  rewrite Hret. cbn [bind].
  eexists. split; [reflexivity|].
  intros r c Hout. cbv beta.
  replace ((- radius + r) ^ 2 + (- radius + c) ^ 2 <=? radius ^ 2)%Z with false.
  - cbn [b2r]. ring.
  - symmetry. apply Z.leb_gt.
    replace (- radius + r)%Z with (r - radius)%Z by lia.
    replace (- radius + c)%Z with (c - radius)%Z by lia. exact Hout.
Qed.

Lemma psf_fit_image_raises (kf kx ky dxs dys : list R) (pm : psf_model)
      (radius : Z) :
  ~ ((1 <= length kf)%nat /\ (length kf <= length kx)%nat /\
     (length kf <= length ky)%nat /\
     (1 <= length dxs)%nat /\ (length dxs <= length dys)%nat) ->
  psf_fit_image kf kx ky dxs dys pm radius = Raise IndexError.
Proof.
  intros Hn. unfold psf_fit_image.
  destruct kf as [|kf0 kf']; [reflexivity|].
  destruct kx as [|kx0 kx']; [reflexivity|].
  destruct ky as [|ky0 ky']; [reflexivity|].
  cbn [getitem nth_error bind].
  destruct (le_lt_dec 1 (length dxs)) as [Hd1|Hd1];
    [destruct (le_lt_dec (length dxs) (length dys)) as [Hd2|Hd2]|].
  - destruct (MultiPSF_call_returns pm dxs dys
                (vec_sub (window_coords radius) kx0)
                (vec_sub (window_coords radius) ky0) true false Hd1 Hd2)
      as [img0 Himg0].
    rewrite Himg0. cbn [bind]. unfold range.
    rewrite (fit_loop_raises (kf0 :: kf') (kx0 :: kx') (ky0 :: ky') dxs dys pm
               (window_coords radius) (length (kf0 :: kf') - 1) 1
               (arr_scale kf0 img0) Hd1 Hd2);
      [reflexivity | cbn [length]; lia | cbn [length]; lia | cbn [length]; lia |].
    cbn [length] in *. lia.
  - rewrite MultiPSF_call_index_error by lia. reflexivity.
  - rewrite MultiPSF_call_index_error by lia. reflexivity.
Qed.

Lemma fit_loop_scaled (kf kx ky dxs dys : list R) (pm : psf_model) (v : list R)
      (s : R) (l : list nat) (ret ret' out : array2) :
  (forall r c, ret' r c = ret r c / s) ->
  for_each
    (fun ret n =>
       kfn <- getitem kf n ;;
       kxn <- getitem kx n ;;
       kyn <- getitem ky n ;;
       img <- MultiPSF.call (MultiPSF.init pm dxs dys)
                            (vec_sub v kxn) (vec_sub v kyn) true false ;;
       Ok (arr_add ret (arr_scale kfn img)))
    l ret = Ok out ->
  exists out',
    for_each
      (fun ret n =>
         kfn <- getitem (map (fun k => k / s) kf) n ;;
         kxn <- getitem kx n ;;
         kyn <- getitem ky n ;;
         img <- MultiPSF.call (MultiPSF.init pm dxs dys)
                              (vec_sub v kxn) (vec_sub v kyn) true false ;;
         Ok (arr_add ret (arr_scale kfn img)))
      l ret' = Ok out' /\
    forall r c, out' r c = out r c / s.
Proof.
  revert ret ret'. induction l as [|n l IH]; intros ret ret' Hrel H.
  - cbn [for_each] in *. injection H as <-. exists ret'. split; [reflexivity | exact Hrel].
  - cbn [for_each] in *.
    apply bind_Ok_inv in H as (s1 & Hbody & Hrest).
    apply bind_Ok_inv in Hbody as (kfn & Hkf & Hbody).
    apply bind_Ok_inv in Hbody as (kxn & Hkx & Hbody).
    apply bind_Ok_inv in Hbody as (kyn & Hky & Hbody).
    apply bind_Ok_inv in Hbody as (img & Himg & Hbody).
    injection Hbody as <-.
    rewrite (getitem_map (fun k => k / s) kf n kfn Hkf). cbn [bind].
    rewrite Hkx. cbn [bind]. rewrite Hky. cbn [bind]. rewrite Himg. cbn [bind].
    apply (IH (arr_add ret (arr_scale kfn img))); [|exact Hrest].
    intros r c. unfold arr_add, arr_scale. rewrite Hrel. unfold Rdiv. ring.
Qed.

Lemma psf_fit_image_scaled (kf kx ky dxs dys : list R) (pm : psf_model)
      (radius : Z) (s : R) (img : array2) :
  psf_fit_image kf kx ky dxs dys pm radius = Ok img ->
  exists img',
    psf_fit_image (map (fun k => k / s) kf) kx ky dxs dys pm radius = Ok img' /\
    forall r c, img' r c = img r c / s.
Proof.
  unfold psf_fit_image. intros H.
  apply bind_Ok_inv in H as (kf0 & Hkf & H).
  apply bind_Ok_inv in H as (kx0 & Hkx & H).
  apply bind_Ok_inv in H as (ky0 & Hky & H).
  apply bind_Ok_inv in H as (img0 & Himg & H).
  apply bind_Ok_inv in H as (ret & Hloop & H).
  injection H as <-.
  rewrite (getitem_map (fun k => k / s) kf 0 kf0 Hkf). cbn [bind].
  rewrite Hkx. cbn [bind]. rewrite Hky. cbn [bind]. rewrite Himg. cbn [bind].
  rewrite length_map.
  destruct (fit_loop_scaled kf kx ky dxs dys pm (window_coords radius) s
              (range 1 (length kf)) (arr_scale kf0 img0)
              (arr_scale (kf0 / s) img0) ret) as (ret' & Hloop' & Hrel).
  - intros r c. unfold arr_scale, Rdiv. ring.
  - exact Hloop.
  - rewrite Hloop'. cbn [bind]. eexists. split; [reflexivity|].
    intros r c. cbv beta zeta. rewrite Hrel.
    unfold Rdiv. rewrite <- Rmult_assoc. reflexivity.
Qed.

(** X22 -- for a non-negative radius, [psf_fit_image] returns exactly
    when there is at least one coefficient, [kx] and [ky] are at least as long as [kf], and the blur
    offsets are non-empty with [dys] at least as long as [dxs]; in every
    other case it raises [IndexError]. The image it returns is zero at
    every pixel outside the disc of the given radius around the centre of
    the window. *)
Theorem psf_fit_image_returns_iff_aligned :
  forall (kf kx ky dxs dys : list R) (pm : psf_model) (radius : Z),
    (0 <= radius)%Z ->
    let aligned :=
      (1 <= length kf /\ length kf <= length kx /\ length kf <= length ky /\
       1 <= length dxs /\ length dxs <= length dys)%nat in
    (aligned ->
     exists img,
       psf_fit_image kf kx ky dxs dys pm radius = Ok img /\
       forall r c, (radius ^ 2 < (r - radius) ^ 2 + (c - radius) ^ 2)%Z ->
                   img r c = 0) /\
    (~ aligned ->
     psf_fit_image kf kx ky dxs dys pm radius = Raise IndexError).
Proof.
  intros kf kx ky dxs dys pm radius _ aligned. split.
  - intros (A & B & C & D & E). apply psf_fit_image_returns; assumption.
  - intros Hn. apply psf_fit_image_raises. exact Hn.
Qed.

(** X23 -- [psf_fit_image] is linear in the coefficients: if it returns an
    image for [kf], then for the coefficients divided by a non-zero [s]
    (as [refine_bg_model] stores them, with s = knorm) it returns that
    image divided by [s]. *)
Theorem psf_fit_image_normalised_coefficients :
  forall (kf kx ky dxs dys : list R) (pm : psf_model) (radius : Z)
         (s : R) (img : array2),
    s <> 0 ->
    psf_fit_image kf kx ky dxs dys pm radius = Ok img ->
    exists img',
      psf_fit_image (map (fun k => k / s) kf) kx ky dxs dys pm radius = Ok img' /\
      forall r c, s * img' r c = img r c.
Proof.
  intros kf kx ky dxs dys pm radius s img Hs H.
  destruct (psf_fit_image_scaled kf kx ky dxs dys pm radius s img H)
    as (img' & H' & Hrel).
  exists img'. split; [exact H'|].
  intros r c. rewrite Hrel. field. exact Hs.
Qed.

Lemma psf_fit_image_normalised_coefficients_witness :
  exists img img',
    psf_fit_image [3; 1] [0; 0.3] [0; 0.3] [0] [0] flat_psf 1 = Ok img /\
    psf_fit_image (map (fun k => k / 4) [3; 1]) [0; 0.3] [0; 0.3] [0] [0]
                  flat_psf 1 = Ok img' /\
    forall r c, 4 * img' r c = img r c.
Proof.
  destruct (psf_fit_image_returns [3; 1] [0; 0.3] [0; 0.3] [0] [0] flat_psf 1)
    as (img & Himg & _); cbn [length]; try lia.
  destruct (psf_fit_image_normalised_coefficients
              [3; 1] [0; 0.3] [0; 0.3] [0] [0] flat_psf 1 4 img)
    as (img' & Himg' & Hrel); [lra | exact Himg |].
  exists img, img'. repeat split; assumption.
Defined.

Lemma psf_fit_image_returns_iff_aligned_witness :
  (exists img,
      psf_fit_image [3; 1] [0; 0.3] [0; 0.3] [0] [0] flat_psf 1 = Ok img /\
      forall r c, (1 ^ 2 < (r - 1) ^ 2 + (c - 1) ^ 2)%Z -> img r c = 0) /\
  psf_fit_image [3; 1] [0] [0; 0.3] [0] [0] flat_psf 1 = Raise IndexError.
Proof.
  assert (Hrad : (0 <= 1)%Z) by lia.
  split.
  - apply (proj1 (psf_fit_image_returns_iff_aligned
                    [3; 1] [0; 0.3] [0; 0.3] [0] [0] flat_psf 1 Hrad)).
    cbn [length]. lia.
  - apply (proj2 (psf_fit_image_returns_iff_aligned
                    [3; 1] [0] [0; 0.3] [0] [0] flat_psf 1 Hrad)).
    cbn [length]. lia.
Defined.

(** ** A refined star can be rendered again *)

Lemma star_frame_of_ok_paired (x0f y0f : R) (dxs dys : list R) (pm : psf_model)
      (kmat : option (list R * list R * list R)) (radius : Z) (sf : array2) :
  star_frame_of x0f y0f dxs dys pm kmat radius = Ok sf ->
  (1 <= length dxs)%nat /\ (length dxs <= length dys)%nat.
Proof.
  destruct kmat as [[[kf kx] ky]|]; cbn [star_frame_of]; intros H.
  - destruct (le_lt_dec 1 (length dxs)) as [H1|H1];
      [destruct (le_lt_dec (length dxs) (length dys)) as [H2|H2]|].
    + split; assumption.
    + rewrite psf_fit_image_raises in H by lia. discriminate.
    + rewrite psf_fit_image_raises in H by lia. discriminate.
  - unfold psf_image in H. apply MultiPSF_call_ok_paired in H. exact H.
Qed.

Lemma add_star_ok_paired (frame : Frame) (flux x0 y0 : R) (dxs dys : list R)
      (pm : psf_model) (kmat : option (list R * list R * list R)) (radius : Z)
      (out : Frame) :
  add_star frame flux x0 y0 dxs dys pm kmat radius = Ok out ->
  (1 <= length dxs)%nat /\ (length dxs <= length dys)%nat.
Proof.
  unfold add_star.
  destruct (find_inds _ _ _) as [[[xi0 xi1] xj0] xj1].
  destruct (find_inds _ _ _) as [[[yi0 yi1] yj0] yj1].
  intros H. apply bind_Ok_inv in H as (sf & Hsf & _).
  apply star_frame_of_ok_paired in Hsf. exact Hsf.
Qed.

Lemma add_star_returns (frame : Frame) (flux x0 y0 : R) (dxs dys : list R)
      (pm : psf_model) (kmat : option (list R * list R * list R)) (radius : Z)
      (sf : array2) :
  star_frame_of (x0 - IZR (int_of_float x0)) (y0 - IZR (int_of_float y0))
                dxs dys pm kmat radius = Ok sf ->
  exists out, add_star frame flux x0 y0 dxs dys pm kmat radius = Ok out.
Proof.
  unfold add_star. intros H.
  destruct (find_inds _ _ _) as [[[xi0 xi1] xj0] xj1].
  destruct (find_inds _ _ _) as [[[yi0 yi1] yj0] yj1].
  rewrite H. cbn [bind]. eexists. reflexivity.
Qed.

Lemma refined_star_renders (data_frame : Frame) (psf_ids : list nat)
      (psfs : list psf_model) (krn_scl : R) (krn_rad : Z) (psf_norm : R)
      (model : Frame) (work_cat : WorkCat.t) (k : nat) (pm : psf_model)
      (img : Frame) (fitted : fit_result) :
  (0 <= krn_rad)%Z ->
  render_current data_frame psf_ids psfs krn_scl krn_rad work_cat k = Ok (pm, img) ->
  exists img',
    render_current data_frame psf_ids psfs krn_scl krn_rad
      (snd (store_fit psf_norm krn_rad model work_cat k fitted)) k = Ok (pm, img').
Proof.
  intros Hrad H. unfold render_current in *.
  apply bind_Ok_inv in H as (pid & Hpid & H).
  apply bind_Ok_inv in H as (pm0 & Hpm & H).
  apply bind_Ok_inv in H as (img0 & H & E).
  injection E as -> ->.
  rewrite Hpid. cbn [bind]. rewrite Hpm. cbn [bind].
  unfold make_single_star_frame in H.
  apply bind_Ok_inv in H as (f & Hf & H).
  apply bind_Ok_inv in H as (km & Hk & H).
  apply bind_Ok_inv in H as (xn & Hx & H).
  apply bind_Ok_inv in H as (yn & Hy & H).
  apply bind_Ok_inv in H as (dxn & Hdx & H).
  apply bind_Ok_inv in H as (dyn & Hdy & H).
  apply add_star_ok_paired in H. destruct H as [Hd1 Hd2].
  apply getitem_Ok_lt in Hf as [_ Lf].
  assert (Lc : (k < length (WorkCat.coeff work_cat))%nat).
  { unfold choose_kmat in Hk. apply bind_Ok_inv in Hk as (cf & Hcf & _).
    apply getitem_Ok_lt in Hcf as [_ Hcf]. exact Hcf. }
  destruct fitted as [[[[fitstar_img bg] kmat] sc] w].
  unfold store_fit, make_single_star_frame.
  cbn [snd WorkCat.fscale WorkCat.coeff WorkCat.x WorkCat.y WorkCat.dxs WorkCat.dys].
  set (knorm := arr_sum (kernel_side krn_rad) (kernel_side krn_rad) kmat).
  set (kf := bool_index (kernel_side krn_rad) (kernel_side krn_rad)
                        (selk krn_rad) kmat).
  set (f' := nth k (WorkCat.fscale work_cat) 0
             * (knorm / (psf_norm * nth k (WorkCat.fscale work_cat) 0))).
  assert (Ef : getitem (list_set (WorkCat.fscale work_cat) k f') k = Ok f').
  { unfold getitem. rewrite (list_set_same _ k f' Lf). reflexivity. }
  rewrite Ef. cbn [bind].
  unfold choose_kmat, getitem.
  rewrite (list_set_same _ k _ Lc). cbn [bind].
  fold (getitem (WorkCat.x work_cat) k). rewrite Hx. cbn [bind].
  fold (getitem (WorkCat.y work_cat) k). rewrite Hy. cbn [bind].
  fold (getitem (WorkCat.dxs work_cat) k). rewrite Hdx. cbn [bind].
  fold (getitem (WorkCat.dys work_cat) k). rewrite Hdy. cbn [bind].
  destruct (kernel_lengths krn_scl krn_rad kmat) as (Lx & Ly & L1).
  fold kf in Lx, Ly, L1. specialize (L1 Hrad).
  destruct (psf_fit_image_returns
              (map (fun k0 => k0 / knorm) kf)
              (vec_add (kernel_kx krn_scl krn_rad) (xn - IZR (int_of_float xn)))
              (vec_add (kernel_ky krn_scl krn_rad) (yn - IZR (int_of_float yn)))
              dxn dyn pm (psf_radii f'))
    as (sf & Hsf & _);
    try (unfold vec_add; rewrite !length_map; lia);
    try (rewrite length_map; lia); try assumption.
  destruct (add_star_returns (np_zeros (shape data_frame)) f' xn yn dxn dyn pm
              (Some (map (fun k0 => k0 / knorm) kf,
                     kernel_kx krn_scl krn_rad, kernel_ky krn_scl krn_rad))
              (psf_radii f') sf Hsf) as [out Hout].
  rewrite Hout. cbn [bind]. exists out. reflexivity.
Qed.

(** X24 -- Refinement leaves a star renderable: if the loop body of
    [refine_bg_model] could render star [k] from the working catalogue,
    it can render it again from the catalogue it stores after the fit,
    whatever kernel the fit returned: the stored coefficients are as many
    as the kernel offsets. *)
Theorem refined_star_renders_again :
  forall (data_frame : Frame) (psf_ids : list nat) (psfs : list psf_model)
         (krn_scl : R) (krn_rad : Z) (psf_norm : R) (model : Frame)
         (work_cat : WorkCat.t) (k : nat) (pm : psf_model) (img : Frame)
         (fitted : fit_result),
    (0 <= krn_rad)%Z ->
    render_current data_frame psf_ids psfs krn_scl krn_rad work_cat k
      = Ok (pm, img) ->
    exists img',
      render_current data_frame psf_ids psfs krn_scl krn_rad
        (snd (store_fit psf_norm krn_rad model work_cat k fitted)) k
      = Ok (pm, img').
Proof. exact refined_star_renders. Qed.

Lemma refined_star_renders_again_witness :
  exists img img',
    render_current (np_zeros (200, 200)%Z) [0%nat] [flat_psf] 0.3 3 one_star_cat 0
      = Ok (flat_psf, img) /\
    render_current (np_zeros (200, 200)%Z) [0%nat] [flat_psf] 0.3 3
      (snd (store_fit 1 3 (np_zeros (200, 200)%Z) one_star_cat 0
                      (np_zeros (200, 200)%Z, 0, (fun _ _ => 1), 0, [])))
      0 = Ok (flat_psf, img').
Proof.
  destruct (render_one_star_returns (200, 200)%Z 0.3 3) as [img Himg].
  destruct (refined_star_renders_again
              (np_zeros (200, 200)%Z) [0%nat] [flat_psf] 0.3 3 1
              (np_zeros (200, 200)%Z) one_star_cat 0 flat_psf img
              (np_zeros (200, 200)%Z, 0, (fun _ _ => 1), 0, []))
    as [img' Himg']; [lia | exact Himg |].
  exists img, img'. split; assumption.
Defined.

(** ** Helpers of [read.py]: index ranges and the PSF score *)

Lemma int_of_float_IZR (z : Z) : int_of_float (IZR z) = z.
Proof.
  unfold int_of_float. destruct (Rle_dec 0 (IZR z)) as [H|H].
  - symmetry. apply Int_part_spec. lra.
  - rewrite <- opp_IZR.
    rewrite <- (Int_part_spec (IZR (- z)) (- z)%Z) by lra. lia.
Qed.

Lemma int_of_float_truncates (x : R) :
  Rabs (x - IZR (int_of_float x)) < 1 /\ Rabs (IZR (int_of_float x)) <= Rabs x.
Proof.
  unfold int_of_float. destruct (Rle_dec 0 x) as [H|H].
  - destruct (base_Int_part x) as [H1 H2].
    pose proof (Int_part_nonneg x H) as H0. apply IZR_le in H0.
    rewrite !Rabs_right by lra. lra.
  - destruct (base_Int_part (- x)) as [H1 H2].
    assert (Hx : 0 <= - x) by lra.
    pose proof (Int_part_nonneg (- x) Hx) as H0. apply IZR_le in H0.
    rewrite opp_IZR.
    rewrite (Rabs_left1 (- IZR (Int_part (- x)))) by lra.
    rewrite (Rabs_left1 x) by lra.
    split; [|lra].
    unfold Rabs. destruct (Rcase_abs _); lra.
Qed.

(** X25 -- [sub_image_indices] truncates each offset towards zero to get
    the start of its index range, and for integer sizes (pixel counts) the
    range [i0:i1] has exactly [size[0]] entries and [j0:j1] exactly
    [size[1]], for every offset, negative or fractional. *)
Theorem sub_image_indices_extent :
  forall (ox oy : R) (w h : Z),
    let '(i0, i1, j0, j1) := sub_image_indices (ox, oy) (IZR w, IZR h) in
    (i1 - i0 = w)%Z /\ (j1 - j0 = h)%Z /\
    Rabs (ox - IZR i0) < 1 /\ Rabs (IZR i0) <= Rabs ox /\
    Rabs (oy - IZR j0) < 1 /\ Rabs (IZR j0) <= Rabs oy.
Proof.
  intros ox oy w h. unfold sub_image_indices. cbn [fst snd].
  rewrite <- !plus_IZR, !int_of_float_IZR.
  destruct (int_of_float_truncates ox) as [A B].
  destruct (int_of_float_truncates oy) as [C D].
  repeat split; try assumption; lia.
Qed.

Lemma Rsum_sq_scaled (k : R) (ws : list R) :
  Rsum (map (fun w => w ^ 2) (map (fun w => k * w) ws))
  = k ^ 2 * Rsum (map (fun w => w ^ 2) ws).
Proof.
  induction ws as [|w ws IH]; cbn [map].
  - rewrite Rsum_nil. ring.
  - rewrite !Rsum_cons, IH. ring.
Qed.

Lemma normalised_weights_scaled (k : R) (ws : list R) :
  0 < k -> 0 < Rsum (map (fun w => w ^ 2) ws) ->
  map (fun w => w / (0.5 * sqrt (Rsum (map (fun w => w ^ 2)
                                           (map (fun w => k * w) ws)))))
      (map (fun w => k * w) ws)
  = map (fun w => w / (0.5 * sqrt (Rsum (map (fun w => w ^ 2) ws)))) ws.
Proof.
  intros Hk HS. rewrite Rsum_sq_scaled, map_map.
  assert (Hsq : sqrt (k ^ 2 * Rsum (map (fun w => w ^ 2) ws))
                = k * sqrt (Rsum (map (fun w => w ^ 2) ws))).
  { rewrite sqrt_mult_alt by (apply pow2_ge_0).
    replace (k ^ 2) with (Rsqr k) by (unfold Rsqr; ring).
    rewrite sqrt_Rsqr by lra. reflexivity. }
  rewrite Hsq.
  pose proof (sqrt_lt_R0 _ HS) as Hpos.
  apply map_ext. intros w. field. split; lra.
Qed.

(** X26 -- The score of [psf_metric] depends on the weights only up to a
    positive common factor: multiplying all weights by k > 0 gives the
    same score (or the same [IndexError]), as long as the weights are not
    all zero; and a score it returns is never negative. *)
Theorem psf_metric_weights_scale_free :
  forall (target_params psf_params weights : list R) (k : R),
    0 < k ->
    0 < Rsum (map (fun w => w ^ 2) weights) ->
    psf_metric target_params psf_params (map (fun w => k * w) weights)
      = psf_metric target_params psf_params weights /\
    forall score,
      psf_metric target_params psf_params weights = Ok score -> 0 <= score.
Proof.
  intros tp pp ws k Hk HS. split.
  - unfold psf_metric. rewrite (normalised_weights_scaled k ws Hk HS). reflexivity.
  - intros score H. unfold psf_metric in H.
    repeat (apply bind_Ok_inv in H as (? & _ & H)).
    injection H as <-.
    repeat apply Rplus_le_le_0_compat; apply pow2_ge_0.
Qed.

Lemma psf_metric_weights_scale_free_witness :
  psf_metric [5000; 1; 59000] [5500; 2; 58000; 60] (map (fun w => 3 * w) [1; 1; 1; 1])
    = psf_metric [5000; 1; 59000] [5500; 2; 58000; 60] [1; 1; 1; 1] /\
  forall score,
    psf_metric [5000; 1; 59000] [5500; 2; 58000; 60] [1; 1; 1; 1] = Ok score ->
    0 <= score.
Proof.
  apply (psf_metric_weights_scale_free
           [5000; 1; 59000] [5500; 2; 58000; 60] [1; 1; 1; 1] 3).
  - lra.
  - cbn [map]. rewrite !Rsum_cons, Rsum_nil. lra.
Defined.

(** ** PSF indices by temperature *)

Lemma Rleb_false (a b : R) : Rleb a b = false <-> ~ a <= b.
Proof.
  unfold Rleb. destruct (Rle_dec a b); split; intros;
    (assumption || discriminate || reflexivity || contradiction).
Qed.

Ltac split_Rabs :=
  repeat match goal with
         | |- context [Rabs ?x] =>
             let H := fresh "Habs" in
             destruct (Rcase_abs x) as [H|H];
             [rewrite (Rabs_left x H) | rewrite (Rabs_right x H)];
             try (exfalso; lra)
         end.

Ltac split_Rltb :=
  repeat match goal with
         | |- context [Rltb ?a ?b] =>
             let E := fresh "E" in
             destruct (Rltb a b) eqn:E;
             [apply Rltb_true in E | apply Rltb_false in E];
             try (exfalso; lra)
         end.

Lemma nearest_model_Teff (t : R) :
  argmin (map (fun m => Rabs (m - t)) psf_mod_Teff) = Ok (Teff_bin (Some t)).
Proof.
  unfold psf_mod_Teff, argmin, Teff_bin. cbn [map]. f_equal.
  destruct (Rleb t 3500) eqn:B0;
    [apply Rleb_true in B0 | apply Rleb_false in B0;
     destruct (Rleb t 4500) eqn:B1;
     [apply Rleb_true in B1 | apply Rleb_false in B1;
      destruct (Rleb t 5500) eqn:B2;
      [apply Rleb_true in B2 | apply Rleb_false in B2;
       destruct (Rleb t 7000) eqn:B3;
       [apply Rleb_true in B3 | apply Rleb_false in B3;
        destruct (Rleb t 9000) eqn:B4;
        [apply Rleb_true in B4 | apply Rleb_false in B4]]]]];
    split_Rabs; cbn [argmin_from]; split_Rltb; reflexivity.
Qed.

Lemma assign_loop (catsize : nat) (Teff : list (option R)) (m k : nat)
      (ids : list nat) :
  (k + m <= length Teff)%nat -> (k + m <= length ids)%nat ->
  exists ids',
    for_each
      (fun psf_ids n =>
         Teff_n <- getitem Teff n ;;
         match Teff_n with
         | Some Teff_n =>
             id <- argmin (map (fun m => Rabs (m - Teff_n)) psf_mod_Teff) ;;
             Ok (list_set psf_ids n id)
         | None => Ok psf_ids
         end)
      (seq k m) ids = Ok ids' /\
    length ids' = length ids /\
    (forall n, (n < k \/ k + m <= n)%nat -> nth_error ids' n = nth_error ids n) /\
    (forall n, (k <= n < k + m)%nat ->
       nth_error ids' n =
       match nth n Teff None with
       | Some t => Some (Teff_bin (Some t))
       | None => nth_error ids n
       end).
Proof.
  revert k ids. induction m as [|m IH]; intros k ids HT Hids.
  - exists ids. cbn [seq for_each]. repeat split; intros; lia || reflexivity.
  - cbn [seq for_each].
    rewrite (getitem_nth Teff k None) by lia. cbn [bind].
    destruct (nth k Teff None) as [t|] eqn:Et.
    + rewrite nearest_model_Teff. cbn [bind].
      destruct (IH (S k) (list_set ids k (Teff_bin (Some t))))
        as (ids' & Hrun & Hlen & Hout & Hin);
        [lia | rewrite list_set_length; lia |].
      exists ids'. split; [exact Hrun|].
      rewrite list_set_length in Hlen. split; [exact Hlen|]. split.
      * intros n Hn. rewrite Hout by lia. apply list_set_other. lia.
      * intros n Hn. destruct (Nat.eq_dec n k) as [->|Hne].
        -- rewrite Hout by lia. rewrite Et. apply list_set_same. lia.
        -- rewrite Hin by lia.
           destruct (nth n Teff None); [reflexivity|].
           apply list_set_other. lia.
    + destruct (IH (S k) ids) as (ids' & Hrun & Hlen & Hout & Hin); [lia | lia |].
      exists ids'. split; [exact Hrun|]. split; [exact Hlen|]. split.
      * intros n Hn. apply Hout. lia.
      * intros n Hn. destruct (Nat.eq_dec n k) as [->|Hne].
        -- rewrite Hout by lia. rewrite Et. reflexivity.
        -- apply Hin. lia.
Qed.

(** X27 -- The PSF index [assign_psf] gives a star is its temperature
    bin: 0 up to 3500 K, 1 up to 4500 K, 2 up to 5500 K, 3 up to 7000 K,
    4 up to 9000 K and 5 above, each bound included in the cooler bin,
    and the default 2 for a temperature that is not finite. With a
    temperature for each of the [catsize] stars the loop returns one
    index per star. *)
Theorem assign_psf_ids_are_temperature_bins :
  forall (catsize : nat) (Teff : list (option R)),
    (catsize <= length Teff)%nat ->
    exists psf_ids,
      assign_psf_ids catsize Teff = Ok psf_ids /\
      length psf_ids = catsize /\
      forall n, (n < catsize)%nat ->
        nth_error psf_ids n = Some (Teff_bin (nth n Teff None)).
Proof.
  intros catsize Teff Hlen. unfold assign_psf_ids, range.
  destruct (assign_loop catsize Teff (catsize - 0) 0 (repeat default_psf_id catsize))
    as (ids' & Hrun & Hl & _ & Hin);
    [lia | rewrite repeat_length; lia |].
  exists ids'. split; [exact Hrun|].
  rewrite repeat_length in Hl. split; [exact Hl|].
  intros n Hn. rewrite Hin by lia.
  destruct (nth n Teff None) as [t|]; [reflexivity|].
  cbn [Teff_bin]. rewrite nth_error_repeat by exact Hn. reflexivity.
Qed.

Lemma assign_psf_ids_are_temperature_bins_witness :
  exists psf_ids,
    assign_psf_ids 3 [Some 3500; None; Some 5777] = Ok psf_ids /\
    length psf_ids = 3%nat /\
    forall n, (n < 3)%nat ->
      nth_error psf_ids n
      = Some (Teff_bin (nth n [Some 3500; None; Some 5777] None)).
Proof.
  apply (assign_psf_ids_are_temperature_bins 3 [Some 3500; None; Some 5777]).
  cbn [length]. lia.
Defined.

(** ** The whole image, and the smearing trail *)

Lemma getitem_Ok_nth {A : Type} (l : list A) (n : nat) (a d : A) :
  getitem l n = Ok a -> nth n l d = a.
Proof.
  intros H. apply getitem_Ok_lt in H as [H _].
  apply nth_error_nth. exact H.
Qed.

Lemma image_star_returns (self : star_bg.t) (x0 y0 : R) (shp : Z * Z)
      (dx dy xcoo ycoo : list R) (ret_img : Frame) (n : nat) :
  (n < length (star_bg.fscale self))%nat ->
  (n < length dx)%nat -> (n < length dy)%nat ->
  (exists psf_id psf_mod,
      getitem (star_bg.psf_ids self) n = Ok psf_id /\
      getitem (star_bg.psfs self) psf_id = Ok psf_mod) ->
  exists img',
    star_bg.image_star self x0 y0 shp dx dy xcoo ycoo ret_img n = Ok img'.
Proof.
  intros Hf Hdx Hdy (psf_id & psf_mod & Hid & Hpm). unfold star_bg.image_star.
  rewrite (getitem_nth _ n 0 Hf). cbn [bind].
  rewrite (getitem_nth _ n 0 Hdx). cbn [bind].
  rewrite (getitem_nth _ n 0 Hdy). cbn [bind].
  destruct (find_area_inds _ _ _ _) as [[[[i0 i1] j0] j1]|];
    [|eexists; reflexivity].
  rewrite Hid. cbn [bind]. rewrite Hpm. cbn [bind]. eexists. reflexivity.
Qed.

Lemma image_loop_returns (self : star_bg.t) (x0 y0 : R) (shp : Z * Z)
      (skip : list nat) (limflux : R) (dx dy xcoo ycoo : list R) (l : list nat) :
  (forall n, In n l ->
     (n < length (star_bg.fscale self))%nat /\
     (n < length dx)%nat /\ (n < length dy)%nat /\
     exists psf_id psf_mod,
       getitem (star_bg.psf_ids self) n = Ok psf_id /\
       getitem (star_bg.psfs self) psf_id = Ok psf_mod) ->
  forall ret_img,
  exists img,
    for_each (star_bg.image_body self x0 y0 shp skip limflux dx dy xcoo ycoo)
             l ret_img = Ok img.
Proof.
  induction l as [|n l IH]; intros Hl ret_img.
  - exists ret_img. reflexivity.
  - assert (Hl' : forall m, In m l ->
              (m < length (star_bg.fscale self))%nat /\
              (m < length dx)%nat /\ (m < length dy)%nat /\
              exists psf_id psf_mod,
                getitem (star_bg.psf_ids self) m = Ok psf_id /\
                getitem (star_bg.psfs self) psf_id = Ok psf_mod)
      by (intros m Hm; apply Hl; right; exact Hm).
    destruct (Hl n (or_introl eq_refl)) as (Hf & Hdx & Hdy & Hpsf).
    cbn [for_each]. unfold star_bg.image_body at 1.
    destruct (existsb (Nat.eqb n) skip); cbn [bind]; [apply IH; exact Hl'|].
    rewrite (getitem_nth _ n 0 Hf). cbn [bind].
    destruct (Rltb (nth n (star_bg.fscale self) 0) limflux);
      cbn [bind]; [apply IH; exact Hl'|].
    destruct (image_star_returns self x0 y0 shp dx dy xcoo ycoo ret_img n
                Hf Hdx Hdy Hpsf) as [mid Hmid].
    rewrite Hmid. cbn [bind]. apply IH. exact Hl'.
Qed.

Lemma image_loop_local (self : star_bg.t) (x0 y0 : R) (shp : Z * Z)
      (skip : list nat) (limflux : R) (dx dy : list R) (l : list nat) :
  forall ret_img img,
    for_each (star_bg.image_body self x0 y0 shp skip limflux dx dy
                (vec_sub (arange (snd shp)) x0) (vec_sub (arange (fst shp)) y0))
             l ret_img = Ok img ->
    shape img = shape ret_img /\
    forall r c,
      pix img r c <> pix ret_img r c ->
      ((0 <= r < fst shp)%Z /\ (0 <= c < snd shp)%Z) /\
      exists n,
        In n l /\ ~ In n skip /\
        ~ nth n (star_bg.fscale self) 0 < limflux /\
        (IZR c - (x0 + nth n dx 0)) ^ 2 + (IZR r - (y0 + nth n dy 0)) ^ 2
        <= IZR (psf_radii (nth n (star_bg.fscale self) 0)) ^ 2.
Proof.
  induction l as [|n l IH]; intros ret_img img Hrun.
  - cbn [for_each] in Hrun. injection Hrun as <-. split; [reflexivity|].
    intros r c Hne. exfalso. apply Hne. reflexivity.
  - cbn [for_each] in Hrun.
    apply bind_Ok_inv in Hrun as (mid & Hbody & Hrest).
    destruct (IH mid img Hrest) as [Hshape Hlater].
    assert (Hlater' : forall r c,
               pix img r c <> pix mid r c ->
               ((0 <= r < fst shp)%Z /\ (0 <= c < snd shp)%Z) /\
               exists m,
                 In m (n :: l) /\ ~ In m skip /\
                 ~ nth m (star_bg.fscale self) 0 < limflux /\
                 (IZR c - (x0 + nth m dx 0)) ^ 2 + (IZR r - (y0 + nth m dy 0)) ^ 2
                 <= IZR (psf_radii (nth m (star_bg.fscale self) 0)) ^ 2).
    { intros r c Hne. destruct (Hlater r c Hne) as [Hin (m & Hm & Hrest')].
      split; [exact Hin|]. exists m. split; [right; exact Hm | exact Hrest']. }
    unfold star_bg.image_body in Hbody.
    destruct (existsb (Nat.eqb n) skip) eqn:Eskip.
    { injection Hbody as <-. split; [exact Hshape | exact Hlater']. }
    apply bind_Ok_inv in Hbody as (f & Hf & Hbody).
    destruct (Rltb f limflux) eqn:Efaint.
    { injection Hbody as <-. split; [exact Hshape | exact Hlater']. }
    apply Rltb_false in Efaint.
    pose proof Hbody as Hstar. unfold star_bg.image_star in Hstar.
    rewrite Hf in Hstar. cbn [bind] in Hstar.
    apply bind_Ok_inv in Hstar as (dxn & Hdx & Hstar).
    apply bind_Ok_inv in Hstar as (dyn & Hdy & _).
    destruct (image_star_local self x0 y0 shp dx dy ret_img mid n f dxn dyn
                Hf Hdx Hdy Hbody) as [Hshape0 Hnow].
    split; [congruence|].
    intros r c Hne.
    destruct (Req_dec (pix img r c) (pix mid r c)) as [Heq|Hneq];
      [|apply Hlater'; exact Hneq].
    rewrite Heq in Hne. destruct (Hnow r c Hne) as (Hr & Hc & Hnear).
    split; [split; assumption|].
    exists n. split; [left; reflexivity|].
    rewrite (getitem_Ok_nth _ n f 0 Hf), (getitem_Ok_nth _ n dxn 0 Hdx),
            (getitem_Ok_nth _ n dyn 0 Hdy).
    split; [|split; assumption].
    intros Hin.
    assert (E : existsb (Nat.eqb n) skip = true).
    { apply existsb_exists. exists n. split; [exact Hin | apply Nat.eqb_refl]. }
    congruence.
Qed.

Lemma image_local_facts (self : star_bg.t) (x0 y0 rolldeg : R) (shp : Z * Z)
      (skip : list nat) (limflux : R) :
  consistent_catalogue self ->
  (forall n, (n < star_bg.catsize self)%nat ->
     exists psf_id psf_mod,
       getitem (star_bg.psf_ids self) n = Ok psf_id /\
       getitem (star_bg.psfs self) psf_id = Ok psf_mod) ->
  let dx := fst (star_bg.rotate_cat self rolldeg None) in
  let dy := snd (star_bg.rotate_cat self rolldeg None) in
  exists img,
    star_bg.image self x0 y0 rolldeg shp skip limflux None = Ok img /\
    shape img = shp /\
    forall r c,
      pix img r c <> 0 ->
      ((0 <= r < fst shp)%Z /\ (0 <= c < snd shp)%Z) /\
      exists n,
        (n < star_bg.catsize self)%nat /\ ~ In n skip /\
        ~ nth n (star_bg.fscale self) 0 < limflux /\
        (IZR c - (x0 + nth n dx 0)) ^ 2 + (IZR r - (y0 + nth n dy 0)) ^ 2
        <= IZR (psf_radii (nth n (star_bg.fscale self) 0)) ^ 2.
Proof.
  intros (Cf & Cx & Cy) Hpsf dx dy.
  assert (Ldx : length dx = star_bg.catsize self).
  { unfold dx, star_bg.rotate_cat. rewrite rotate_position_arr_len; lia. }
  assert (Ldy : length dy = star_bg.catsize self).
  { unfold dy. rewrite <- rotate_cat_length. exact Ldx. }
  assert (Himg : star_bg.image self x0 y0 rolldeg shp skip limflux None
                 = for_each (star_bg.image_body self x0 y0 shp skip limflux dx dy
                               (vec_sub (arange (snd shp)) x0)
                               (vec_sub (arange (fst shp)) y0))
                            (range 0 (star_bg.catsize self)) (np_zeros shp)).
  { unfold star_bg.image, dx, dy.
    destruct (star_bg.rotate_cat self rolldeg None) as [dx0 dy0]. reflexivity. }
  destruct (image_loop_returns self x0 y0 shp skip limflux dx dy
              (vec_sub (arange (snd shp)) x0) (vec_sub (arange (fst shp)) y0)
              (range 0 (star_bg.catsize self))) with (ret_img := np_zeros shp)
    as [img Hrun].
  { intros n Hn. unfold range in Hn. apply in_seq in Hn.
    repeat split; try lia. apply Hpsf. lia. }
  exists img. split; [rewrite Himg; exact Hrun|].
  destruct (image_loop_local self x0 y0 shp skip limflux dx dy
              (range 0 (star_bg.catsize self)) (np_zeros shp) img Hrun)
    as [Hshape Hloc].
  split; [exact Hshape|].
  intros r c Hne. destruct (Hloc r c Hne) as [Hin (n & Hn & Hrest)].
  split; [exact Hin|]. exists n. split; [|exact Hrest].
  unfold range in Hn. apply in_seq in Hn. lia.
Qed.

(** X28 -- Empty sky stays empty in [image]: for a frame with
    non-negative sides, on a catalogue whose arrays have [catsize] entries
    and whose stars all have a PSF, [image] returns
    a frame of the requested shape, and a pixel of it can only be non-zero
    if it lies within [psf_radii(fscale[n])] of the rotated position of
    some star [n] that is neither skipped nor fainter than [limflux]. *)
Theorem image_nonzero_only_near_drawn_star :
  forall self x0 y0 rolldeg shp skip limflux,
    (0 <= fst shp)%Z -> (0 <= snd shp)%Z ->
    consistent_catalogue self ->
    (forall n, (n < star_bg.catsize self)%nat ->
       exists psf_id psf_mod,
         getitem (star_bg.psf_ids self) n = Ok psf_id /\
         getitem (star_bg.psfs self) psf_id = Ok psf_mod) ->
    let dx := fst (star_bg.rotate_cat self rolldeg None) in
    let dy := snd (star_bg.rotate_cat self rolldeg None) in
    exists img,
      star_bg.image self x0 y0 rolldeg shp skip limflux None = Ok img /\
      shape img = shp /\
      forall r c,
        pix img r c <> 0 ->
        ((0 <= r < fst shp)%Z /\ (0 <= c < snd shp)%Z) /\
        exists n,
          (n < star_bg.catsize self)%nat /\ ~ In n skip /\
          ~ nth n (star_bg.fscale self) 0 < limflux /\
          (IZR c - (x0 + nth n dx 0)) ^ 2 + (IZR r - (y0 + nth n dy 0)) ^ 2
          <= IZR (psf_radii (nth n (star_bg.fscale self) 0)) ^ 2.
Proof.
  intros self x0 y0 rolldeg shp skip limflux _ _.
  apply image_local_facts.
Qed.

Lemma three_star_sky_ready :
  consistent_catalogue three_star_sky /\
  forall n, (n < star_bg.catsize three_star_sky)%nat ->
    exists psf_id psf_mod,
      getitem (star_bg.psf_ids three_star_sky) n = Ok psf_id /\
      getitem (star_bg.psfs three_star_sky) psf_id = Ok psf_mod.
Proof.
  split; [repeat split|].
  intros n Hn. cbn in Hn.
  assert (Hc : (n = 0 \/ n = 1 \/ n = 2)%nat) by lia.
  destruct Hc as [-> | [-> | ->]]; exists 0%nat, unit_psf; split; reflexivity.
Qed.

Lemma image_nonzero_only_near_drawn_star_witness :
  let dx := fst (star_bg.rotate_cat three_star_sky 30 None) in
  let dy := snd (star_bg.rotate_cat three_star_sky 30 None) in
  exists img,
    star_bg.image three_star_sky 100 100 30 (200, 200)%Z [0%nat] 1e-5 None = Ok img /\
    shape img = (200, 200)%Z /\
    forall r c,
      pix img r c <> 0 ->
      ((0 <= r < fst (200, 200)%Z)%Z /\ (0 <= c < snd (200, 200)%Z)%Z) /\
      exists n,
        (n < star_bg.catsize three_star_sky)%nat /\ ~ In n [0%nat] /\
        ~ nth n (star_bg.fscale three_star_sky) 0 < 1e-5 /\
        (IZR c - (100 + nth n dx 0)) ^ 2 + (IZR r - (100 + nth n dy 0)) ^ 2
        <= IZR (psf_radii (nth n (star_bg.fscale three_star_sky) 0)) ^ 2.
Proof.
  apply (image_nonzero_only_near_drawn_star
           three_star_sky 100 100 30 (200, 200)%Z [0%nat] 1e-5).
  - cbn [fst]. lia.
  - cbn [snd]. lia.
  - exact (proj1 three_star_sky_ready).
  - exact (proj2 three_star_sky_ready).
Defined.

Lemma Rsum_nonzero_ex {A : Type} (f : A -> R) (l : list A) :
  Rsum (map f l) <> 0 -> exists a, In a l /\ f a <> 0.
Proof.
  induction l as [|a l IH]; cbn [map]; intros H.
  - rewrite Rsum_nil in H. exfalso. apply H. reflexivity.
  - rewrite Rsum_cons in H.
    destruct (Req_dec (f a) 0) as [E|E].
    + destruct IH as (b & Hb & Hfb); [rewrite E in H; intros E'; apply H; lra|].
      exists b. split; [right; exact Hb | exact Hfb].
    + exists a. split; [left; reflexivity | exact E].
Qed.

(** X29 -- The smearing trail lies under the stars: for a frame with
    non-negative sides, on such a catalogue [smear] returns one value per column of the frame, the target
    included in the sum, and the value of a column can only be non-zero
    if some star not fainter than [limflux] lies within
    [psf_radii(fscale[n])] columns of it. *)
Theorem smear_only_under_stars :
  forall self x0 y0 rolldeg shp limflux,
    (0 <= fst shp)%Z -> (0 <= snd shp)%Z ->
    consistent_catalogue self ->
    (forall n, (n < star_bg.catsize self)%nat ->
       exists psf_id psf_mod,
         getitem (star_bg.psf_ids self) n = Ok psf_id /\
         getitem (star_bg.psfs self) psf_id = Ok psf_mod) ->
    let dx := fst (star_bg.rotate_cat self rolldeg None) in
    exists trail,
      smear self x0 y0 rolldeg shp limflux = Ok trail /\
      length trail = Z.to_nat (snd shp) /\
      forall c,
        (c < length trail)%nat ->
        nth c trail 0 <> 0 ->
        exists n,
          (n < star_bg.catsize self)%nat /\
          ~ nth n (star_bg.fscale self) 0 < limflux /\
          Rabs (INR c - (x0 + nth n dx 0))
          <= IZR (psf_radii (nth n (star_bg.fscale self) 0)).
Proof.
  intros self x0 y0 rolldeg shp limflux _ _ Hcons Hpsf dx.
  destruct (image_local_facts self x0 y0 rolldeg shp [] limflux Hcons Hpsf)
    as (img & Himg & Hshape & Hloc).
  unfold smear. rewrite Himg. cbn [bind]. eexists. split; [reflexivity|].
  rewrite !length_map, length_seq. split; [reflexivity|].
  intros c Hc Hne.
  rewrite (nth_map_lt _ _ c 0 0%Z) in Hne by (rewrite length_map, length_seq; exact Hc).
  rewrite (nth_map_lt _ _ c 0%Z 0%nat) in Hne by (rewrite length_seq; exact Hc).
  rewrite seq_nth in Hne by exact Hc. cbn [Nat.add] in Hne.
  apply Rsum_nonzero_ex in Hne. destruct Hne as (r & _ & Hpix).
  destruct (Hloc r (Z.of_nat c) Hpix) as [_ (n & Hn & _ & Hbright & Hnear)].
  exists n. split; [exact Hn|]. split; [exact Hbright|].
  rewrite <- INR_IZR_INZ in Hnear. fold dx in Hnear.
  pose proof (psf_radii_range (nth n (star_bg.fscale self) 0)) as [Hlo _].
  apply IZR_le in Hlo.
  set (d := INR c - (x0 + nth n dx 0)) in *.
  set (e := IZR r - (y0 + nth n (snd (star_bg.rotate_cat self rolldeg None)) 0)) in *.
  set (R0 := IZR (psf_radii (nth n (star_bg.fscale self) 0))) in *.
  clearbody d e R0.
  apply Rabs_le. split; nra.
Qed.

Lemma smear_only_under_stars_witness :
  let dx := fst (star_bg.rotate_cat three_star_sky 30 None) in
  exists trail,
    smear three_star_sky 100 100 30 (200, 200)%Z 1e-2 = Ok trail /\
    length trail = Z.to_nat (snd (200, 200)%Z) /\
    forall c,
      (c < length trail)%nat ->
      nth c trail 0 <> 0 ->
      exists n,
        (n < star_bg.catsize three_star_sky)%nat /\
        ~ nth n (star_bg.fscale three_star_sky) 0 < 1e-2 /\
        Rabs (INR c - (100 + nth n dx 0))
        <= IZR (psf_radii (nth n (star_bg.fscale three_star_sky) 0)).
Proof.
  apply (smear_only_under_stars three_star_sky 100 100 30 (200, 200)%Z 1e-2).
  - cbn [fst]. lia.
  - cbn [snd]. lia.
  - exact (proj1 three_star_sky_ready).
  - exact (proj2 three_star_sky_ready).
Defined.

(** ** Image rendering: what the drawn stars add *)

Lemma image_star_adds_term (self : star_bg.t) (x0 y0 : R) (shp : Z * Z)
      (dx dy : list R) (ret_img : Frame) (n : nat) :
  (n < length (star_bg.fscale self))%nat ->
  (n < length dx)%nat -> (n < length dy)%nat ->
  (exists psf_id psf_mod,
      getitem (star_bg.psf_ids self) n = Ok psf_id /\
      getitem (star_bg.psfs self) psf_id = Ok psf_mod) ->
  exists img',
    star_bg.image_star self x0 y0 shp dx dy
                       (vec_sub (arange (snd shp)) x0)
                       (vec_sub (arange (fst shp)) y0) ret_img n = Ok img' /\
    shape img' = shape ret_img /\
    forall r c,
      pix img' r c = pix ret_img r c + star_term self x0 y0 shp dx dy n r c.
Proof.
  intros Hf Hdx Hdy (psf_id & psf_mod & Hid & Hpm).
  unfold star_bg.image_star, star_term.
  rewrite (getitem_nth _ n 0 Hf). cbn [bind].
  rewrite (getitem_nth _ n 0 Hdx). cbn [bind].
  rewrite (getitem_nth _ n 0 Hdy). cbn [bind].
  rewrite (getitem_Ok_nth _ n psf_id 0%nat Hid).
  rewrite (getitem_Ok_nth _ psf_id psf_mod flat_psf Hpm).
  destruct (find_area_inds (x0 + nth n dx 0) (y0 + nth n dy 0) shp
              (psf_radii (nth n (star_bg.fscale self) 0)))
    as [[[[i0 i1] j0] j1]|] eqn:Einds.
  2: { exists ret_img. split; [reflexivity|]. split; [reflexivity|].
       intros r c. lra. }
  destruct (find_area_inds_in_frame _ _ _ _ _ _ _ _ Einds) as (Hi0 & Hi1 & Hj0 & Hj1).
  rewrite Hid. cbn [bind]. rewrite Hpm. cbn [bind].
  eexists. split; [reflexivity|]. split; [reflexivity|].
  intros r c. rewrite slice_add_pix. f_equal.
  destruct (in_slice j0 j1 r) eqn:Er; destruct (in_slice i0 i1 c) eqn:Ec;
    cbn [andb]; try reflexivity.
  apply in_slice_true in Er, Ec.
  unfold arr_scale.
  rewrite (window_coordinate (snd shp) i0 i1 c x0 (nth n dx 0)) by lia.
  rewrite (window_coordinate (fst shp) j0 j1 r y0 (nth n dy 0)) by lia.
  replace (r - j0 + 0)%Z with (r - j0)%Z by lia.
  replace (c - i0 + 0)%Z with (c - i0)%Z by lia.
  cbv zeta.
  match goal with
  | |- context [if ?b then _ else _] => destruct b
  end; [ring | reflexivity].
Qed.

Lemma image_star_loop_sum (self : star_bg.t) (x0 y0 : R) (shp : Z * Z)
      (dx dy : list R) (l : list nat) :
  (forall n, In n l ->
     (n < length (star_bg.fscale self))%nat /\
     (n < length dx)%nat /\ (n < length dy)%nat /\
     exists psf_id psf_mod,
       getitem (star_bg.psf_ids self) n = Ok psf_id /\
       getitem (star_bg.psfs self) psf_id = Ok psf_mod) ->
  forall ret_img,
  exists img,
    for_each (star_bg.image_star self x0 y0 shp dx dy
                (vec_sub (arange (snd shp)) x0) (vec_sub (arange (fst shp)) y0))
             l ret_img = Ok img /\
    shape img = shape ret_img /\
    forall r c,
      pix img r c
      = pix ret_img r c
        + Rsum (map (fun n => star_term self x0 y0 shp dx dy n r c) l).
Proof.
  induction l as [|n l IH]; intros Hl ret_img.
  - exists ret_img. split; [reflexivity|]. split; [reflexivity|].
    intros r c. cbn [map]. rewrite Rsum_nil. lra.
  - destruct (Hl n (or_introl eq_refl)) as (Hf & Hdx & Hdy & Hpsf).
    destruct (image_star_adds_term self x0 y0 shp dx dy ret_img n Hf Hdx Hdy Hpsf)
      as (mid & Hmid & Smid & Pmid).
    destruct (IH (fun m Hm => Hl m (or_intror Hm)) mid) as (img & Himg & Simg & Pimg).
    exists img. cbn [for_each]. rewrite Hmid. cbn [bind].
    split; [exact Himg|]. split; [congruence|].
    intros r c. rewrite Pimg, Pmid. cbn [map]. rewrite Rsum_cons. lra.
Qed.

Lemma image_sum_facts (self : star_bg.t) (x0 y0 rolldeg : R) (shp : Z * Z)
      (skip : list nat) (limflux : R) :
  consistent_catalogue self ->
  (forall n, (n < star_bg.catsize self)%nat ->
     exists psf_id psf_mod,
       getitem (star_bg.psf_ids self) n = Ok psf_id /\
       getitem (star_bg.psfs self) psf_id = Ok psf_mod) ->
  let dx := fst (star_bg.rotate_cat self rolldeg None) in
  let dy := snd (star_bg.rotate_cat self rolldeg None) in
  exists img,
    star_bg.image self x0 y0 rolldeg shp skip limflux None = Ok img /\
    shape img = shp /\
    forall r c,
      pix img r c
      = Rsum (map (fun n => star_term self x0 y0 shp dx dy n r c)
                  (filter (is_drawn self skip limflux)
                          (range 0 (star_bg.catsize self)))).
Proof.
  intros (Cf & Cx & Cy) Hpsf dx dy.
  assert (Ldx : length dx = star_bg.catsize self).
  { unfold dx, star_bg.rotate_cat. rewrite rotate_position_arr_len; lia. }
  assert (Ldy : length dy = star_bg.catsize self).
  { unfold dy. rewrite <- rotate_cat_length. exact Ldx. }
  rewrite image_draws_filtered by (symmetry; exact Cf).
  fold dx dy.
  destruct (image_star_loop_sum self x0 y0 shp dx dy
              (filter (is_drawn self skip limflux) (range 0 (star_bg.catsize self))))
    with (ret_img := np_zeros shp) as (img & Himg & Simg & Pimg).
  { intros n Hn. apply filter_In in Hn as [Hn _].
    unfold range in Hn. apply in_seq in Hn.
    repeat split; try lia. apply Hpsf. lia. }
  exists img. split; [exact Himg|]. split; [exact Simg|].
  intros r c. rewrite Pimg. cbn [np_zeros pix]. unfold zeros. lra.
Qed.

Lemma three_star_sky_drawn :
  filter (is_drawn three_star_sky [] 1e-5) (range 0 (star_bg.catsize three_star_sky))
  = [0; 1]%nat.
Proof.
  unfold range, three_star_sky, is_drawn.
  cbn [star_bg.catsize star_bg.fscale Nat.sub seq filter existsb negb andb nth].
  replace (Rltb 1.0 1e-5) with false by (symmetry; apply Rltb_false; lra).
  replace (Rltb 0.05 1e-5) with false by (symmetry; apply Rltb_false; lra).
  replace (Rltb 1e-6 1e-5) with true by (symmetry; apply Rltb_true; lra).
  reflexivity.
Qed.

Lemma psf_radii_bright (f : R) : 0.098668 < f -> psf_radii f = 100%Z.
Proof.
  intros Hf. unfold psf_radii.
  set (radii := 25 + 75 * (f - 1e-4) / (1e-1 - 1e-4)).
  assert (Hr : 99 < radii) by (unfold radii; lra).
  destruct (Rle_dec radii 100) as [Hh|Hh].
  - rewrite Rmax_left, Rmin_left by lra. apply Rceil_unique. lra.
  - rewrite Rmax_left, Rmin_right by lra. apply (Rceil_IZR 100).
Qed.

Lemma psf_radii_faint (f : R) : f <= 1e-4 -> psf_radii f = 25%Z.
Proof.
  intros Hf. unfold psf_radii.
  set (radii := 25 + 75 * (f - 1e-4) / (1e-1 - 1e-4)).
  assert (Hr : radii <= 25) by (unfold radii; lra).
  rewrite Rmax_right, Rmin_left by lra. apply (Rceil_IZR 25).
Qed.

Lemma psf_radii_0_05 : psf_radii 0.05 = 63%Z.
Proof.
  unfold psf_radii.
  set (radii := 25 + 75 * (0.05 - 1e-4) / (1e-1 - 1e-4)).
  assert (Hr : 62 < radii <= 63) by (unfold radii; lra).
  rewrite Rmax_left, Rmin_left by lra. apply Rceil_unique. lra.
Qed.

Lemma three_star_sky_unrolled :
  fst (star_bg.rotate_cat three_star_sky 0 None) = [0; 30; -20] /\
  snd (star_bg.rotate_cat three_star_sky 0 None) = [0; 40; 10].
Proof.
  unfold star_bg.rotate_cat, rotate_position_arr, three_star_sky.
  cbn [star_bg.xpos star_bg.ypos combine map fst snd].
  rewrite deg2rad_0, cos_0, sin_0.
  split; repeat (apply f_equal2; [lra|]); reflexivity.
Qed.

Lemma find_area_inds_at (i j : Z) (shp : Z * Z) (radius : Z) :
  find_area_inds (IZR i) (IZR j) shp radius
  = (if (i - radius >=? snd shp)%Z then None else
     if (i + radius <=? 0)%Z then None else
     if (j - radius >=? fst shp)%Z then None else
     if (j + radius <=? 0)%Z then None else
     Some (Z.max (i - radius) 0, Z.min (i + radius) (snd shp),
           Z.max (j - radius) 0, Z.min (j + radius) (fst shp))).
Proof. unfold find_area_inds. rewrite !int_of_float_IZR. reflexivity. Qed.

(** The own pixel of each of the three stars, for the target at
    (100, 100) in a 200 x 200 frame and no roll: what the star adds there. *)
Lemma three_star_sky_terms :
  let dx := fst (star_bg.rotate_cat three_star_sky 0 None) in
  let dy := snd (star_bg.rotate_cat three_star_sky 0 None) in
  star_term three_star_sky 100 100 (200, 200)%Z dx dy 0 100 100 = 1.0 /\
  star_term three_star_sky 100 100 (200, 200)%Z dx dy 1 140 130 = 0.05 /\
  star_term three_star_sky 100 100 (200, 200)%Z dx dy 2 110 80 = 1e-6.
Proof.
  destruct three_star_sky_unrolled as [Hdx Hdy].
  cbv zeta. rewrite Hdx, Hdy.
  unfold star_term, three_star_sky.
  cbn [star_bg.fscale star_bg.psf_ids star_bg.psfs nth].
  rewrite (psf_radii_bright 1.0) by lra.
  rewrite psf_radii_0_05.
  rewrite (psf_radii_faint 1e-6) by lra.
  replace (100 + 0) with (IZR 100) by lra.
  replace (100 + 30) with (IZR 130) by lra.
  replace (100 + 40) with (IZR 140) by lra.
  replace (100 + -20) with (IZR 80) by lra.
  replace (100 + 10) with (IZR 110) by lra.
  rewrite !find_area_inds_at.
  cbn [fst snd Z.geb Z.leb Z.compare Z.sub Z.add Z.opp Z.pos_sub Z.max Z.min
       Pos.compare Pos.compare_cont Pos.add Pos.succ Pos.pred_double Z.succ_double
       Z.pred_double Z.double Pos.add_carry in_slice Z.ltb andb].
  repeat match goal with
         | |- context [Rltb ?a ?b] =>
             replace (Rltb a b) with false by (symmetry; apply Rltb_false; simpl pow; lra)
         end.
  cbn [psf_call unit_psf].
  repeat split; lra.
Qed.

(** C8 -- [image] draws exactly the stars that are neither in the skip
    list nor fainter than [limflux], and each drawn star adds its scaled
    footprint.  The loop of [image] is the rendering, in catalogue order,
    of just the stars passing the two tests.  Rendering one star adds to
    each pixel of the index ranges of [find_area_inds] the flux scale
    times the star's PSF, cut to zero beyond the adaptive radius, and
    nothing to any other pixel (nothing at all when the footprint misses
    the frame).  So for a frame with non-negative sides and a catalogue
    whose stars all have a PSF, every pixel of the returned frame is the
    sum of these terms over the stars that are neither skipped nor faint.
    For flux scales [1.0, 0.05, 1e-6], an empty skip list and floor 1e-5
    the frame is the sum of the terms of stars 0 and 1; with a PSF equal
    to 1 these are 1.0 and 0.05 at the stars' own pixels, while the term
    1e-6 of star 2 is not in the sum. *)
Theorem image_draws_unskipped_bright :
  (forall self x0 y0 rolldeg shp skip limflux,
      (0 <= fst shp)%Z -> (0 <= snd shp)%Z ->
      star_bg.catsize self = length (star_bg.fscale self) ->
      star_bg.image self x0 y0 rolldeg shp skip limflux None
      = for_each (star_bg.image_star self x0 y0 shp
                    (fst (star_bg.rotate_cat self rolldeg None))
                    (snd (star_bg.rotate_cat self rolldeg None))
                    (vec_sub (arange (snd shp)) x0)
                    (vec_sub (arange (fst shp)) y0))
                 (filter (is_drawn self skip limflux)
                         (range 0 (star_bg.catsize self)))
                 (np_zeros shp)) /\
  (forall self skip limflux n,
      is_drawn self skip limflux n = true <->
      ~ In n skip /\ ~ nth n (star_bg.fscale self) 0 < limflux) /\
  (forall x0 y0 rolldeg shp,
      (0 <= fst shp)%Z -> (0 <= snd shp)%Z ->
      star_bg.image three_star_bg x0 y0 rolldeg shp [] 1e-5 None
      = for_each (star_bg.image_star three_star_bg x0 y0 shp
                    (fst (star_bg.rotate_cat three_star_bg rolldeg None))
                    (snd (star_bg.rotate_cat three_star_bg rolldeg None))
                    (vec_sub (arange (snd shp)) x0)
                    (vec_sub (arange (fst shp)) y0))
                 [0; 1]%nat (np_zeros shp)) /\
  (forall self x0 y0 shp dx dy ret_img n,
      (n < length (star_bg.fscale self))%nat ->
      (n < length dx)%nat -> (n < length dy)%nat ->
      (exists psf_id psf_mod,
          getitem (star_bg.psf_ids self) n = Ok psf_id /\
          getitem (star_bg.psfs self) psf_id = Ok psf_mod) ->
      exists img',
        star_bg.image_star self x0 y0 shp dx dy
                           (vec_sub (arange (snd shp)) x0)
                           (vec_sub (arange (fst shp)) y0) ret_img n = Ok img' /\
        shape img' = shape ret_img /\
        forall r c,
          pix img' r c = pix ret_img r c + star_term self x0 y0 shp dx dy n r c) /\
  (forall self x0 y0 rolldeg shp skip limflux,
      (0 <= fst shp)%Z -> (0 <= snd shp)%Z ->
      consistent_catalogue self ->
      (forall n, (n < star_bg.catsize self)%nat ->
         exists psf_id psf_mod,
           getitem (star_bg.psf_ids self) n = Ok psf_id /\
           getitem (star_bg.psfs self) psf_id = Ok psf_mod) ->
      let dx := fst (star_bg.rotate_cat self rolldeg None) in
      let dy := snd (star_bg.rotate_cat self rolldeg None) in
      exists img,
        star_bg.image self x0 y0 rolldeg shp skip limflux None = Ok img /\
        shape img = shp /\
        forall r c,
          pix img r c
          = Rsum (map (fun n => star_term self x0 y0 shp dx dy n r c)
                      (filter (is_drawn self skip limflux)
                              (range 0 (star_bg.catsize self))))) /\
  (forall x0 y0 rolldeg shp,
      (0 <= fst shp)%Z -> (0 <= snd shp)%Z ->
      let dx := fst (star_bg.rotate_cat three_star_sky rolldeg None) in
      let dy := snd (star_bg.rotate_cat three_star_sky rolldeg None) in
      exists img,
        star_bg.image three_star_sky x0 y0 rolldeg shp [] 1e-5 None = Ok img /\
        shape img = shp /\
        forall r c,
          pix img r c
          = star_term three_star_sky x0 y0 shp dx dy 0 r c
            + star_term three_star_sky x0 y0 shp dx dy 1 r c) /\
  (let dx := fst (star_bg.rotate_cat three_star_sky 0 None) in
   let dy := snd (star_bg.rotate_cat three_star_sky 0 None) in
   star_term three_star_sky 100 100 (200, 200)%Z dx dy 0 100 100 = 1.0 /\
   star_term three_star_sky 100 100 (200, 200)%Z dx dy 1 140 130 = 0.05 /\
   star_term three_star_sky 100 100 (200, 200)%Z dx dy 2 110 80 = 1e-6).
Proof.
  split.
  { intros self x0 y0 rolldeg shp skip limflux _ _. apply image_draws_filtered. }
  split.
  { intros self skip limflux n. unfold is_drawn.
    rewrite andb_true_iff, !negb_true_iff, Rltb_false.
    split; intros [H1 H2]; (split; [|exact H2]).
    + intros Hin. assert (E : existsb (Nat.eqb n) skip = true).
      { apply existsb_exists. exists n. split; [exact Hin | apply Nat.eqb_refl]. }
      congruence.
    + destruct (existsb (Nat.eqb n) skip) eqn:E; [|reflexivity].
      apply existsb_exists in E as (m & Hm & Heq).
      apply Nat.eqb_eq in Heq. subst m. contradiction. }
  split.
  { intros x0 y0 rolldeg shp _ _.
    rewrite image_draws_filtered by reflexivity.
    rewrite three_star_drawn. reflexivity. }
  split; [exact image_star_adds_term|].
  split.
  { intros self x0 y0 rolldeg shp skip limflux _ _. apply image_sum_facts. }
  split; [|exact three_star_sky_terms].
  intros x0 y0 rolldeg shp _ _ dx dy.
  destruct (image_sum_facts three_star_sky x0 y0 rolldeg shp [] 1e-5
              (proj1 three_star_sky_ready) (proj2 three_star_sky_ready))
    as (img & Himg & Simg & Pimg).
  exists img. split; [exact Himg|]. split; [exact Simg|].
  intros r c. rewrite Pimg, three_star_sky_drawn.
  cbn [map]. rewrite !Rsum_cons, Rsum_nil. fold dx dy. lra.
Qed.

Lemma image_draws_unskipped_bright_witness :
  let dx := fst (star_bg.rotate_cat three_star_sky 0 None) in
  let dy := snd (star_bg.rotate_cat three_star_sky 0 None) in
  exists img,
    star_bg.image three_star_sky 100 100 0 (200, 200)%Z [] 1e-5 None = Ok img /\
    shape img = (200, 200)%Z /\
    forall r c,
      pix img r c
      = star_term three_star_sky 100 100 (200, 200)%Z dx dy 0 r c
        + star_term three_star_sky 100 100 (200, 200)%Z dx dy 1 r c.
Proof.
  apply (proj1 (proj2 (proj2 (proj2 (proj2 (proj2 image_draws_unskipped_bright)))))
           100 100 0 (200, 200)%Z).
  - cbn [fst]. lia.
  - cbn [snd]. lia.
Defined.
